(** * Pairwise schedules of a linearized loopy kernel

    A shallow embedding of [loopy/schedule/checker/schedule.py]
    (the walk of [PairwiseScheduleBuilder.__init__], the zero padding,
    the statement tags of [build_maps]) and of the instruction-block
    homogenizer of [loopy/schedule/tree.py], with the properties the
    specification states about them. The constructor is modelled twice:
    as a function of the values it is given, and on a store of objects
    with the references it shares ([PyHeap]). *)

From Stdlib Require Import ZArith Lia.
From stdpp Require Import base option list strings pretty gmap.

Local Open Scope Z_scope.
Local Open Scope list_scope.
Local Set Warnings "-register-all".

(** ** Python values and exceptions *)

(** The exceptions the modelled code can raise. [AttributeError_NoneType a]
    is the error of reading attribute [a] of [None], [KeyError k] that of
    looking up a key [k] that a dict does not have. *)
Inductive PyError : Type :=
| IndexError_pop_from_empty_list
| IndexError_list_index_out_of_range
| TypeError_str_plus_int
| AttributeError_NoneType (attr : string)
| KeyError (key : string).

(** The double-quote character, as a one-character string. *)
Definition dq : string := String (Ascii.ascii_of_nat 34) EmptyString.

(** The text CPython attaches to each exception. *)
Definition message (e : PyError) : string :=
  match e with
  | IndexError_pop_from_empty_list => "pop from empty list"
  | IndexError_list_index_out_of_range => "list index out of range"
  | TypeError_str_plus_int =>
      "can only concatenate str (not " +:+ dq +:+ "int" +:+ dq +:+ ") to str"
  | AttributeError_NoneType a =>
      "'NoneType' object has no attribute '" +:+ a +:+ "'"
  | KeyError k => "'" +:+ k +:+ "'"
  end.

(** A computation that returns a value or raises. *)
Inductive result (A : Type) : Type :=
| Ok (a : A)
| Raise (e : PyError).
Arguments Ok {A} a.
Arguments Raise {A} e.

#[global] Instance result_ret : MRet result := fun A a => Ok a.

#[global] Instance result_bind : MBind result := fun A B k m =>
  match m with
  | Ok a => k a
  | Raise e => Raise e
  end.

(** An entry of a lex tuple: an [int] or the [str] name of an iname. *)
Inductive LexVal : Type :=
| LexInt (z : Z)
| LexIname (s : string).

#[global] Instance LexVal_eq_dec : EqDecision LexVal.
Proof. solve_decision. Defined.

(** ** Python list primitives used by the walk *)

(** [l.pop()]: the list without its last element, and that element. *)
Fixpoint py_pop {A} (l : list A) : result (list A * A) :=
  match l with
  | [] => Raise IndexError_pop_from_empty_list
  | x :: l' =>
      match l' with
      | [] => Ok ([], x)
      | _ :: _ => '(r, y) ← py_pop l'; Ok (x :: r, y)
      end
  end.

(** [l[-1]]. *)
Definition py_last {A} (l : list A) : result A :=
  match py_pop l with
  | Ok (_, x) => Ok x
  | Raise _ => Raise IndexError_list_index_out_of_range
  end.

(** [l[-1] = v]. *)
Definition py_set_last {A} (l : list A) (v : A) : result (list A) :=
  match py_pop l with
  | Ok (r, _) => Ok (r ++ [v])
  | Raise _ => Raise IndexError_list_index_out_of_range
  end.

(** [v + 1] for an entry of the lex tuple. *)
Definition py_add_one (v : LexVal) : result LexVal :=
  match v with
  | LexInt z => Ok (LexInt (z + 1))
  | LexIname _ => Raise TypeError_str_plus_int
  end.

(** [l[-1] = l[-1] + 1]. *)
Definition py_incr_last (l : list LexVal) : result (list LexVal) :=
  v ← py_last l;
  v' ← py_add_one v;
  py_set_last l v'.

(** ** Linearization items *)

(** The schedule items of a linearization, as [make_schedule_tree]
    dispatches on them. The walk passes over [CallKernel] and
    [ReturnFromKernel] in its last [else]. *)
Inductive ScheduleItem : Type :=
| EnterLoop (iname : string)
| LeaveLoop (iname : string)
| RunInstruction (id : string)
| Barrier (comment synchronization_kind mem_kind : string)
          (originating_insn_id : option string)
| CallKernel (kernel_name : string)
| ReturnFromKernel (kernel_name : string).

(** Modelled from the spec: [get_insn_id_from_linearization_item] of
    [loopy.schedule.checker.utils] is not among the sources; a
    [RunInstruction] carries its statement id and a [Barrier] its optional
    originating statement id. Only called on these two kinds of item. *)
Definition get_insn_id_from_linearization_item (item : ScheduleItem)
  : option string :=
  match item with
  | RunInstruction id => Some id
  | Barrier _ _ _ oid => oid
  | _ => None
  end.

(** ** Statement instance sets and the state of the walk *)

Record StatementInstanceSet : Type := mkSIS {
  insn_id : string;
  lex_points : list LexVal
}.

#[global] Instance StatementInstanceSet_eq_dec : EqDecision StatementInstanceSet.
Proof. solve_decision. Defined.

(** The local variables of [__init__] during the loop, with the two
    attributes of [self], which are [None] until a statement is captured. *)
Record WalkState : Type := mkWalk {
  next_insn_lex_tuple : list LexVal;
  stmt_added_since_prev_block_at_tier : list bool;
  self_before : option StatementInstanceSet;
  self_after : option StatementInstanceSet
}.

Definition initial_state : WalkState :=
  mkWalk [LexInt 0] [false] None None.

(** How an iteration of the loop body ends: by reaching the test before
    [break], or by [continue], which skips it. *)
Inductive Flow : Type := ReachedEnd | Continued.

Section Walk.

Variable before_insn_id after_insn_id : string.
Variable loops_to_ignore : gset string.

(** The common tail of the [EnterLoop] and [LeaveLoop] branches:
    [if stmt_added_since_prev_block_at_tier[-1]: ...]. *)
Definition bump_if_stmt_added (tup : list LexVal) (flags : list bool)
  : result (list LexVal * list bool) :=
  flag ← py_last flags;
  if (flag : bool) then
    tup' ← py_incr_last tup;
    flags' ← py_set_last flags false;
    Ok (tup', flags')
  else Ok (tup, flags).

(** One iteration of the [for] loop over the linearization. *)
Definition loop_body (item : ScheduleItem) (st : WalkState)
  : result (WalkState * Flow) :=
  match item with
  | EnterLoop iname =>
      if bool_decide (iname ∈ loops_to_ignore) then Ok (st, Continued)
      else
        '(tup, flags) ← bump_if_stmt_added (next_insn_lex_tuple st)
                           (stmt_added_since_prev_block_at_tier st);
        Ok (mkWalk (tup ++ [LexIname iname] ++ [LexInt 0])
                   (flags ++ [false])
                   (self_before st) (self_after st),
            ReachedEnd)
  | LeaveLoop iname =>
      if bool_decide (iname ∈ loops_to_ignore) then Ok (st, Continued)
      else
        '(tup1, _) ← py_pop (next_insn_lex_tuple st);
        '(tup2, _) ← py_pop tup1;
        '(flags1, _) ← py_pop (stmt_added_since_prev_block_at_tier st);
        '(tup, flags) ← bump_if_stmt_added tup2 flags1;
        Ok (mkWalk tup flags (self_before st) (self_after st), ReachedEnd)
  | RunInstruction _ | Barrier _ _ _ _ =>
      match get_insn_id_from_linearization_item item with
      | None => Ok (st, Continued)
      | Some lp_insn_id =>
          let snapshot := mkSIS lp_insn_id (next_insn_lex_tuple st) in
          let is_before := bool_decide (lp_insn_id = before_insn_id) in
          let is_after := bool_decide (lp_insn_id = after_insn_id) in
          let before' :=
            if is_before then Some snapshot else self_before st in
          let after' :=
            if is_after then Some snapshot else self_after st in
          let stmt_added := is_before || is_after in
          if stmt_added then
            tup ← py_incr_last (next_insn_lex_tuple st);
            Ok (mkWalk tup
                  (replicate
                     (length (stmt_added_since_prev_block_at_tier st)) true)
                  before' after',
                ReachedEnd)
          else
            Ok (mkWalk (next_insn_lex_tuple st)
                  (stmt_added_since_prev_block_at_tier st)
                  before' after',
                ReachedEnd)
      end
  | CallKernel _ | ReturnFromKernel _ => Ok (st, ReachedEnd)
  end.

(** [if self.stmt_instance_set_before and self.stmt_instance_set_after]. *)
Definition both_created (st : WalkState) : bool :=
  match self_before st, self_after st with
  | Some _, Some _ => true
  | _, _ => false
  end.

(** The [for] loop, with its [break]. *)
Fixpoint for_loop (items : list ScheduleItem) (st : WalkState)
  : result WalkState :=
  match items with
  | [] => Ok st
  | item :: rest =>
      '(st', flow) ← loop_body item st;
      match flow with
      | ReachedEnd => if both_created st' then Ok st' else for_loop rest st'
      | Continued => for_loop rest st'
      end
  end.

End Walk.

(** ** Post-processing: zero padding *)

(** [_pad_lex_tuple_with_zeros]; [[0]*k] is empty for a negative [k]. *)
Definition _pad_lex_tuple_with_zeros (stmt_inst : StatementInstanceSet)
    (length_ : Z) : StatementInstanceSet :=
  mkSIS (insn_id stmt_inst)
        (lex_points stmt_inst ++
         replicate (Z.to_nat (length_ - Z.of_nat (length (lex_points stmt_inst))))
                   (LexInt 0)).

(** Reading [.lex_points] of an attribute of [self] that may be [None]. *)
Definition get_lex_points (o : option StatementInstanceSet)
  : result (list LexVal) :=
  match o with
  | Some s => Ok (lex_points s)
  | None => Raise (AttributeError_NoneType "lex_points")
  end.

(** [max_lex_dims], on the attributes as they are after the loop. *)
Definition max_lex_dims_of (before after : option StatementInstanceSet)
  : result Z :=
  lb ← get_lex_points before;
  la ← get_lex_points after;
  Ok (Z.max (Z.of_nat (length lb)) (Z.of_nat (length la))).

(** A constructed [PairwiseScheduleBuilder]. *)
Record PairwiseScheduleBuilder : Type := mkBuilder {
  stmt_instance_set_before : StatementInstanceSet;
  stmt_instance_set_after : StatementInstanceSet
}.

(** [PairwiseScheduleBuilder.__init__]. *)
Definition PairwiseScheduleBuilder_init
    (linearization_items_ordered : list ScheduleItem)
    (before_insn_id after_insn_id : string)
    (loops_to_ignore : gset string) : result PairwiseScheduleBuilder :=
  st ← for_loop before_insn_id after_insn_id loops_to_ignore
        linearization_items_ordered initial_state;
  max_lex_dim ← max_lex_dims_of (self_before st) (self_after st);
  match self_before st, self_after st with
  | Some b, Some a =>
      Ok (mkBuilder (_pad_lex_tuple_with_zeros b max_lex_dim)
                    (_pad_lex_tuple_with_zeros a max_lex_dim))
  | _, _ => Raise (AttributeError_NoneType "insn_id")
  end.

(** [max_lex_dims] of a constructed builder. *)
Definition max_lex_dims (self : PairwiseScheduleBuilder) : Z :=
  Z.max (Z.of_nat (length (lex_points (stmt_instance_set_before self))))
        (Z.of_nat (length (lex_points (stmt_instance_set_after self)))).

(** The integer statement tags [(int_sid_before, int_sid_after)] that
    [build_maps] puts in the which-statement coordinate. *)
Definition int_sids (self : PairwiseScheduleBuilder) : Z * Z :=
  let int_sid_before := 0 in
  let int_sid_after :=
    if bool_decide (insn_id (stmt_instance_set_before self) =
                    insn_id (stmt_instance_set_after self))
    then 0 else 1 in
  (int_sid_before, int_sid_after).

(** ** The lexicographic order map *)

(** A constraint of a lex order map between a point [A] (the before side,
    whose coordinate names carry the mark) and a point [B]. *)
Inductive LexConstraint : Type :=
| CoordEq (i : nat)   (* A[i] = B[i] *)
| CoordLt (i : nat).  (* A[i] < B[i] *)

(** The disjunct for prefix length [k]: equal on coordinates [0, k), and
    strictly less at coordinate [k]. *)
Definition lex_order_disjunct (k : nat) : list LexConstraint :=
  (CoordEq <$> seq 0 k) ++ [CoordLt k].

(** Modelled from the spec: [create_lex_order_map] of
    [loopy.schedule.checker.lexicographic_order_map] is not among the
    sources. The map is the union over [k] in [range(n_dims)] of
    (prefix-equality and strict-less-at-[k]): a list of disjuncts, each a
    list of constraints. *)
Definition create_lex_order_map (n_dims : nat) : list (list LexConstraint) :=
  lex_order_disjunct <$> seq 0 n_dims.

(** A pair of points satisfies a constraint. *)
Definition holds (A B : list Z) (c : LexConstraint) : bool :=
  match c with
  | CoordEq i =>
      match A !! i, B !! i with
      | Some x, Some y => bool_decide (x = y)
      | _, _ => false
      end
  | CoordLt i =>
      match A !! i, B !! i with
      | Some x, Some y => bool_decide (x < y)
      | _, _ => false
      end
  end.

(** A pair of points of arity [n_dims] is in the map. *)
Definition in_lex_order_map (n_dims : nat) (A B : list Z) : bool :=
  bool_decide (length A = n_dims) && bool_decide (length B = n_dims) &&
  existsb (forallb (holds A B)) (create_lex_order_map n_dims).

(** [get_lex_order_map_for_sched_space]. *)
Definition get_lex_order_map_for_sched_space (self : PairwiseScheduleBuilder)
  : list (list LexConstraint) :=
  let n_dims := max_lex_dims self in
  create_lex_order_map (Z.to_nat n_dims).

(** The dictionary order on tuples of integers. *)
Fixpoint lex_lt (A B : list Z) : Prop :=
  match A, B with
  | x :: A', y :: B' => x < y \/ (x = y /\ lex_lt A' B')
  | _, _ => False
  end.

(** ** The maps of a pairwise schedule and their composition *)

(** The domain of the inames around a statement, as the kernel gives it:
    the names of the inames in order, and the values they may take. *)
Record InameDomain : Type := mkDomain {
  dom_inames_ordered : list string;
  dom_contains : list Z -> bool
}.

(** The kernel, as far as [build_maps] consults it: the domain of the
    inames around each statement
    ([knl.get_inames_domain(knl.id_to_insn[id].within_inames)]). *)
Record LoopKernel : Type := mkKernel {
  get_inames_domain : string -> InameDomain
}.

(** The value of an iname in a statement instance. *)
Fixpoint iname_value (names : list string) (vals : list Z) (s : string)
  : option Z :=
  match names, vals with
  | n :: names', v :: vals' =>
      if bool_decide (n = s) then Some v else iname_value names' vals' s
  | _, _ => None
  end.

(** The value of an entry of a lex tuple at a statement instance. *)
Definition lex_val_at (names : list string) (vals : list Z) (v : LexVal)
  : option Z :=
  match v with
  | LexInt z => Some z
  | LexIname s => iname_value names vals s
  end.

(** A map from the instances [(statement tag, inames)] of one statement to
    lex points, as [_get_map_for_stmt_inst] builds it from the tuple pair
    [((int_sid,) + inames, lex_points)] and the domain. *)
Record SchedMap : Type := mkSchedMap {
  map_int_sid : Z;
  map_domain : InameDomain;
  map_lex_points : list LexVal
}.

(** Modelled from the spec: [create_symbolic_map_from_tuples] of
    [loopy.schedule.checker.utils] is not among the sources. The relation
    sends an instance with the statement tag of the map and inames in the
    domain to the lex tuple at these inames; it relates nothing else. *)
Definition sched_map_image (m : SchedMap) (inst : list Z) : option (list Z) :=
  match inst with
  | [] => None
  | sid :: vals =>
      if bool_decide (sid = map_int_sid m) &&
         bool_decide (length vals = length (dom_inames_ordered (map_domain m))) &&
         dom_contains (map_domain m) vals
      then mapM (lex_val_at (dom_inames_ordered (map_domain m)) vals)
                (map_lex_points m)
      else None
  end.

(** [build_maps]. *)
Definition build_maps (self : PairwiseScheduleBuilder) (knl : LoopKernel)
  : SchedMap * SchedMap :=
  let _get_map_for_stmt_inst stmt_inst int_sid :=
    mkSchedMap int_sid (get_inames_domain knl (insn_id stmt_inst))
               (lex_points stmt_inst) in
  let '(int_sid_before, int_sid_after) := int_sids self in
  (_get_map_for_stmt_inst (stmt_instance_set_before self) int_sid_before,
   _get_map_for_stmt_inst (stmt_instance_set_after self) int_sid_after).

(** Modelled from the spec: the composer of statement instance orderings
    is not among the sources. SIO = before_relation inverse, then the lex
    order relation, then after_relation: two instances are related iff the
    lex point of the first is strictly before the lex point of the
    second. *)
Definition statement_instance_ordering (self : PairwiseScheduleBuilder)
    (knl : LoopKernel) (inst_before inst_after : list Z) : Prop :=
  let '(map_before, map_after) := build_maps self knl in
  exists p q,
    sched_map_image map_before inst_before = Some p /\
    sched_map_image map_after inst_after = Some q /\
    in_lex_order_map (Z.to_nat (max_lex_dims self)) p q = true.

(** ** Vocabulary of the properties of the walk *)

(** [id_] is the usable statement id of some item of the linearization. *)
Definition occurs_in (id_ : string) (items : list ScheduleItem) : bool :=
  existsb (fun item =>
             bool_decide (get_insn_id_from_linearization_item item = Some id_))
          items.

(** The loops that are open (innermost first) after the items, starting
    from [stack]; loops to ignore are transparent, and a [LeaveLoop]
    closes the innermost open loop. *)
Fixpoint open_loops (loops_to_ignore : gset string)
    (items : list ScheduleItem) (stack : list string) : list string :=
  match items with
  | [] => stack
  | EnterLoop iname :: rest =>
      if bool_decide (iname ∈ loops_to_ignore)
      then open_loops loops_to_ignore rest stack
      else open_loops loops_to_ignore rest (iname :: stack)
  | LeaveLoop iname :: rest =>
      if bool_decide (iname ∈ loops_to_ignore)
      then open_loops loops_to_ignore rest stack
      else open_loops loops_to_ignore rest (tail stack)
  | _ :: rest => open_loops loops_to_ignore rest stack
  end.

(** No [LeaveLoop] that is not ignored comes with no loop open: the
    initial frame is never popped. *)
Fixpoint keeps_initial_frame (loops_to_ignore : gset string)
    (items : list ScheduleItem) (depth : nat) : bool :=
  match items with
  | [] => true
  | EnterLoop iname :: rest =>
      if bool_decide (iname ∈ loops_to_ignore)
      then keeps_initial_frame loops_to_ignore rest depth
      else keeps_initial_frame loops_to_ignore rest (S depth)
  | LeaveLoop iname :: rest =>
      if bool_decide (iname ∈ loops_to_ignore)
      then keeps_initial_frame loops_to_ignore rest depth
      else match depth with
           | O => false
           | S d => keeps_initial_frame loops_to_ignore rest d
           end
  | _ :: rest => keeps_initial_frame loops_to_ignore rest depth
  end.

(** Well-nestedness: every [LeaveLoop] that is not ignored closes the most
    recently opened loop that is still open, and so never the initial
    frame. [stack] holds the open loops, innermost first. *)
Fixpoint well_nested (loops_to_ignore : gset string)
    (items : list ScheduleItem) (stack : list string) : bool :=
  match items with
  | [] => true
  | EnterLoop iname :: rest =>
      if bool_decide (iname ∈ loops_to_ignore)
      then well_nested loops_to_ignore rest stack
      else well_nested loops_to_ignore rest (iname :: stack)
  | LeaveLoop iname :: rest =>
      if bool_decide (iname ∈ loops_to_ignore)
      then well_nested loops_to_ignore rest stack
      else match stack with
           | [] => false
           | top :: stack' =>
               bool_decide (top = iname) &&
               well_nested loops_to_ignore rest stack'
           end
  | _ :: rest => well_nested loops_to_ignore rest stack
  end.

(** The states at the end of each iteration the loop completes, in order. *)
Fixpoint for_loop_trace (before_insn_id after_insn_id : string)
    (loops_to_ignore : gset string)
    (items : list ScheduleItem) (st : WalkState) : list WalkState :=
  match items with
  | [] => []
  | item :: rest =>
      match loop_body before_insn_id after_insn_id loops_to_ignore item st with
      | Raise _ => []
      | Ok (st', ReachedEnd) =>
          st' :: (if both_created st' then []
                  else for_loop_trace before_insn_id after_insn_id
                         loops_to_ignore rest st')
      | Ok (st', Continued) =>
          st' :: for_loop_trace before_insn_id after_insn_id
                   loops_to_ignore rest st'
      end
  end.

(** A lex tuple written frame by frame: the counter of the initial frame,
    then for each open loop (innermost first in [frames]) its symbol and
    its counter. *)
Fixpoint tuple_of (c0 : Z) (frames : list (string * Z)) : list LexVal :=
  match frames with
  | [] => [LexInt c0]
  | (s, c) :: outer => tuple_of c0 outer ++ [LexIname s; LexInt c]
  end.

(** [l[-1] = l[-1] + 1] on a tuple written frame by frame. *)
Definition bump (c0 : Z) (frames : list (string * Z))
  : Z * list (string * Z) :=
  match frames with
  | [] => (c0 + 1, [])
  | (s, c) :: outer => (c0, (s, c + 1) :: outer)
  end.

(** The shape of the state between two iterations: the lex tuple lists the
    counters and symbols of the open loops [stack] (innermost first), the
    counters are not negative, and there is one flag per frame. *)
Definition shaped (stack : list string) (st : WalkState) : Prop :=
  exists c0 frames,
    next_insn_lex_tuple st = tuple_of c0 frames /\
    frames.*1 = stack /\
    0 <= c0 /\
    Forall (fun f => 0 <= f.2) frames /\
    length (stmt_added_since_prev_block_at_tier st) = S (length stack).

(** [s] is a snapshot taken at an item of [items] that carries the
    statement id [target]: its lex tuple lists, between counters that are
    not negative, the loops open at that item (the walk starting with
    [stack] open). *)
Definition captured_at (loops_to_ignore : gset string)
    (items : list ScheduleItem) (stack : list string) (target : string)
    (s : StatementInstanceSet) : Prop :=
  exists pre item post c0 frames,
    items = pre ++ item :: post /\
    get_insn_id_from_linearization_item item = Some target /\
    insn_id s = target /\
    lex_points s = tuple_of c0 frames /\
    frames.*1 = open_loops loops_to_ignore pre stack /\
    0 <= c0 /\
    Forall (fun f => 0 <= f.2) frames.

(** The shape of a snapshot [s] for the statement id [target]: it was
    taken at an item of [items] carrying that id, and with [d] loops open
    there, its lex tuple has length [2 d + 1], integer counters that are
    not negative at the even indices and the symbols of the open loops,
    outermost first, at the odd indices. *)
Definition captured_shape (loops_to_ignore : gset string)
    (items : list ScheduleItem) (target : string)
    (s : StatementInstanceSet) : Prop :=
  exists pre item post,
    items = pre ++ item :: post /\
    get_insn_id_from_linearization_item item = Some target /\
    let enclosing := rev (open_loops loops_to_ignore pre []) in
    let d := length enclosing in
    length (lex_points s) = (2 * d + 1)%nat /\
    (forall k : nat, (k <= d)%nat ->
       exists c, lex_points s !! (2 * k)%nat = Some (LexInt c) /\ 0 <= c) /\
    (forall k : nat, (k < d)%nat ->
       lex_points s !! (2 * k + 1)%nat = LexIname <$> enclosing !! k).

(** [sub] occurs in [s]. *)
Fixpoint is_substring (sub s : string) : bool :=
  String.prefix sub s ||
  match s with
  | EmptyString => false
  | String _ s' => is_substring sub s'
  end.

(** The message of the exception names the statement id. *)
Definition identifies (e : PyError) (id_ : string) : bool :=
  is_substring id_ (message e).

(** ** Scenario A *)

Definition scenario_A : list ScheduleItem :=
  [ EnterLoop "i"; EnterLoop "k"; RunInstruction "Sa"; LeaveLoop "k";
    EnterLoop "j"; RunInstruction "Sb"; RunInstruction "Sc"; LeaveLoop "j";
    LeaveLoop "i"; EnterLoop "t"; RunInstruction "Sd"; LeaveLoop "t" ].


(** The kernel of Scenario A: [i], [k], [j], [t] range over
    [0 <= . < pi], [pk], [pj], [pt]; Sa is in [i, k], Sb and Sc are in
    [i, j], Sd is in [t]. *)
Definition box (bounds : list Z) (vals : list Z) : bool :=
  bool_decide (length vals = length bounds) &&
  forallb (fun '(v, p) => bool_decide (0 <= v < p)) (zip vals bounds).

Definition scenario_A_kernel (pi pk pj pt : Z) : LoopKernel :=
  mkKernel (fun id_ =>
    if bool_decide (id_ = "Sa") then mkDomain ["i"; "k"] (box [pi; pk])
    else if bool_decide (id_ = "Sd") then mkDomain ["t"] (box [pt])
    else mkDomain ["i"; "j"] (box [pi; pj])).

(** ** The schedule tree and the instruction-block homogenizer *)

Module Tree.

Section Homogenizer.

(** The type of the predicates of an instruction (expressions). *)
Context {Expression : Type} `{Countable Expression}.

(** An instruction of the kernel, as far as the homogenizer reads it. *)
Record Instruction : Type := mkInstruction {
  within_inames : gset string;
  predicates : gset Expression
}.

(** The kernel, as far as the homogenizer reads it. *)
Record LoopKernel : Type := mkKernel {
  id_to_insn : gmap string Instruction
}.

Record RunInstruction : Type := mkRunInstruction {
  insn_id : string
}.

(** The nodes of a schedule tree that [make_schedule_tree] builds. *)
Inductive ScheduleNode : Type :=
| Run (r : RunInstruction)
| Barrier (comment synchronization_kind mem_kind : string)
          (originating_insn_id : option string)
| InstructionBlock (children : list RunInstruction)
| Loop (iname : string) (children : list ScheduleNode)
| Function (name : string) (extra_args extra_inames : list string)
           (children : list ScheduleNode)
| Schedule (children : list ScheduleNode).

(** What a mapper method returns: a node, or [GroupedChildren]. *)
Inductive Mapped : Type :=
| Node (n : ScheduleNode)
| GroupedChildren (contents : list ScheduleNode).

(** [IdentityMapper.combine]. *)
Definition combine (values : list Mapped) : list ScheduleNode :=
  foldl (fun result val =>
           match val with
           | GroupedChildren contents => result ++ contents
           | Node n => result ++ [n]
           end) [] values.

Variable kernel : LoopKernel.

(** [self.kernel.id_to_insn[insn_id]]. *)
Definition lookup_insn (id_ : string) : result Instruction :=
  match id_to_insn kernel !! id_ with
  | Some insn => Ok insn
  | None => Raise (KeyError id_)
  end.

(** [InstructionBlockHomogenizer._are_insns_similar]. *)
Definition _are_insns_similar (insn1_id insn2_id : string) : result bool :=
  insn1 ← lookup_insn insn1_id;
  insn2 ← lookup_insn insn2_id;
  Ok (bool_decide (within_inames insn1 = within_inames insn2) &&
      bool_decide (predicates insn1 = predicates insn2)).

(** One iteration of the loop of [map_instruction_block], on the pair
    [(insn_blocks, similar_run_insns)]. *)
Definition block_loop_body (run_insn : RunInstruction)
    (st : list (list RunInstruction) * list RunInstruction)
  : result (list (list RunInstruction) * list RunInstruction) :=
  let '(insn_blocks, similar_run_insns) := st in
  match similar_run_insns with
  | _ :: _ =>
      last_insn ← py_last similar_run_insns;
      similar ← _are_insns_similar (insn_id last_insn) (insn_id run_insn);
      if (similar : bool)
      then Ok (insn_blocks, similar_run_insns ++ [run_insn])
      else Ok (insn_blocks ++ [similar_run_insns], [run_insn])
  | [] => Ok (insn_blocks, similar_run_insns ++ [run_insn])
  end.

Fixpoint block_loop (children : list RunInstruction)
    (st : list (list RunInstruction) * list RunInstruction)
  : result (list (list RunInstruction) * list RunInstruction) :=
  match children with
  | [] => Ok st
  | run_insn :: rest =>
      st' ← block_loop_body run_insn st;
      block_loop rest st'
  end.

(** [InstructionBlockHomogenizer.map_instruction_block]: the children
    of the new blocks, block by block. *)
Definition map_instruction_block (children : list RunInstruction)
  : result (list (list RunInstruction)) :=
  '(insn_blocks, similar_run_insns) ← block_loop children ([], []);
  Ok (insn_blocks ++ [similar_run_insns]).

(** [InstructionBlockHomogenizer.__call__]: the methods of
    [IdentityMapper], with [map_instruction_block] overridden. *)
Fixpoint rec (expr : ScheduleNode) : result Mapped :=
  match expr with
  | Run r => Ok (Node (Run (mkRunInstruction (insn_id r))))
  | Barrier c sk mk oid => Ok (Node (Barrier c sk mk oid))
  | InstructionBlock children =>
      blocks ← map_instruction_block children;
      Ok (GroupedChildren (InstructionBlock <$> blocks))
  | Loop iname children =>
      values ← mapM rec children;
      Ok (Node (Loop iname (combine values)))
  | Function name extra_args extra_inames children =>
      values ← mapM rec children;
      Ok (Node (Function name extra_args extra_inames (combine values)))
  | Schedule children =>
      values ← mapM rec children;
      Ok (Node (Schedule (combine values)))
  end.

(** The nodes a mapper result stands for in the children of its parent. *)
Definition nodes_of (val : Mapped) : list ScheduleNode :=
  match val with
  | GroupedChildren contents => contents
  | Node n => [n]
  end.

(** The instruction blocks of a tree, in order. *)
Fixpoint blocks_of (expr : ScheduleNode) : list (list RunInstruction) :=
  match expr with
  | Run _ | Barrier _ _ _ _ => []
  | InstructionBlock children => [children]
  | Loop _ children | Function _ _ _ children | Schedule children =>
      concat (blocks_of <$> children)
  end.

(** The instructions of a block have the same [within_inames] and the
    same [predicates], pairwise. *)
Definition homogeneous (block : list RunInstruction) : Prop :=
  forall r1 r2, r1 ∈ block -> r2 ∈ block ->
    exists insn1 insn2,
      id_to_insn kernel !! insn_id r1 = Some insn1 /\
      id_to_insn kernel !! insn_id r2 = Some insn2 /\
      within_inames insn1 = within_inames insn2 /\
      predicates insn1 = predicates insn2.

End Homogenizer.

Arguments Instruction Expression {_ _}.
Arguments LoopKernel Expression {_ _}.
Arguments ScheduleNode : clear implicits.
Arguments Mapped : clear implicits.

(** [homogenize_instruction_blocks], on the schedule of the kernel. *)
Definition homogenize_instruction_blocks {Expression : Type}
    `{Countable Expression} (kernel : LoopKernel Expression)
    (schedule : ScheduleNode) : result Mapped :=
  rec kernel schedule.

(** [IdentityMapper.__call__], with none of its methods overridden. The
    children of an instruction block are mapped by [map_run_instruction]
    and put back in a block. *)
Fixpoint identity_rec (expr : ScheduleNode) : Mapped :=
  match expr with
  | Run r => Node (Run (mkRunInstruction (insn_id r)))
  | Barrier c sk mk oid => Node (Barrier c sk mk oid)
  | InstructionBlock children =>
      Node (InstructionBlock
              ((fun r => mkRunInstruction (insn_id r)) <$> children))
  | Loop iname children =>
      Node (Loop iname (combine (identity_rec <$> children)))
  | Function name extra_args extra_inames children =>
      Node (Function name extra_args extra_inames
              (combine (identity_rec <$> children)))
  | Schedule children =>
      Node (Schedule (combine (identity_rec <$> children)))
  end.

(** [InstructionGatherer.combine]:
    [reduce(frozenset.union, values, frozenset())]. *)
Definition gatherer_combine (values : list (gset string)) : gset string :=
  foldl (fun acc val => acc ∪ val) ∅ values.

(** [InstructionGatherer.__call__]: the ids of the instructions run in
    the tree and of the instructions its barriers originate from. *)
Fixpoint gather (expr : ScheduleNode) : gset string :=
  match expr with
  | Run r => {[ insn_id r ]}
  | Barrier _ _ _ oid =>
      match oid with
      | Some id_ => {[ id_ ]}
      | None => ∅
      end
  | InstructionBlock children =>
      gatherer_combine ((fun r => {[ insn_id r ]}) <$> children)
  | Loop _ children | Function _ _ _ children | Schedule children =>
      gatherer_combine (gather <$> children)
  end.

(** The two ways the unpacking [function, = [...]] fails. *)
Inductive UnpackError : Type :=
| ValueError_not_enough_values
| ValueError_too_many_values.

(** [get_insns_in_function], on the children of the schedule of the
    kernel: the instructions of the one function called [name]. *)
Definition get_insns_in_function (schedule_children : list ScheduleNode)
    (name : string) : UnpackError + gset string :=
  match List.filter (fun child =>
                       match child with
                       | Function child_name _ _ _ =>
                           bool_decide (child_name = name)
                       | _ => false
                       end) schedule_children with
  | [] => inl ValueError_not_enough_values
  | [function] => inr (gather function)
  | _ :: _ :: _ => inl ValueError_too_many_values
  end.

(** The nodes of a tree written as the linearization items they stand
    for, identified by the instruction ids they carry. *)
Fixpoint ids_in_order (expr : ScheduleNode) : list string :=
  match expr with
  | Run r => [insn_id r]
  | Barrier _ _ _ oid =>
      match oid with
      | Some id_ => [id_]
      | None => []
      end
  | InstructionBlock children => insn_id <$> children
  | Loop _ children | Function _ _ _ children | Schedule children =>
      concat (ids_in_order <$> children)
  end.

End Tree.

(** A kernel with three instructions: [a] and [b] alike, [c] in another
    loop. *)
Definition three_insn_kernel : Tree.LoopKernel string :=
  Tree.mkKernel
    (<["a" := Tree.mkInstruction {["i"]} ∅]>
       (<["b" := Tree.mkInstruction {["i"]} ∅]>
          (<["c" := Tree.mkInstruction {["j"]} ∅]> ∅))).

Definition three_insn_block : list Tree.RunInstruction :=
  [Tree.mkRunInstruction "a"; Tree.mkRunInstruction "b";
   Tree.mkRunInstruction "c"].


(** ** Further vocabulary of the walk *)

(** The items the walk does not pass over: the loops that are not
    ignored and the items carrying one of the two statement ids. *)
Definition relevant_item (before_insn_id after_insn_id : string)
    (loops_to_ignore : gset string) (item : ScheduleItem) : bool :=
  match item with
  | EnterLoop iname | LeaveLoop iname =>
      negb (bool_decide (iname ∈ loops_to_ignore))
  | RunInstruction _ | Barrier _ _ _ _ =>
      match get_insn_id_from_linearization_item item with
      | Some id_ =>
          bool_decide (id_ = before_insn_id) || bool_decide (id_ = after_insn_id)
      | None => false
      end
  | CallKernel _ | ReturnFromKernel _ => false
  end.

(** The item is not the entry or the exit of an ignored loop. *)
Definition not_ignored_loop (loops_to_ignore : gset string)
    (item : ScheduleItem) : bool :=
  match item with
  | EnterLoop iname | LeaveLoop iname =>
      negb (bool_decide (iname ∈ loops_to_ignore))
  | _ => true
  end.

(** The state, and the builder, with the before and after sides
    exchanged. *)
Definition swap_state (st : WalkState) : WalkState :=
  mkWalk (next_insn_lex_tuple st) (stmt_added_since_prev_block_at_tier st)
         (self_after st) (self_before st).

Definition swap_builder (self : PairwiseScheduleBuilder)
  : PairwiseScheduleBuilder :=
  mkBuilder (stmt_instance_set_after self) (stmt_instance_set_before self).

(** [f] applied to the value a computation returns. *)
Definition result_map {A B} (f : A -> B) (m : result A) : result B :=
  match m with
  | Ok a => Ok (f a)
  | Raise e => Raise e
  end.

(** The lex tuple [X] comes before [Y]: they agree on a prefix, after
    which both have an integer, that of [X] the smaller. *)
Definition lex_precedes (X Y : list LexVal) : Prop :=
  exists (k : nat) (x y : Z),
    take k X = take k Y /\
    X !! k = Some (LexInt x) /\ Y !! k = Some (LexInt y) /\ x < y.

(** The frames of the loops [stack] with all their counters at zero, and
    the state of a walk that has not yet met one of the two statements. *)
Definition zero_frames (stack : list string) : list (string * Z) :=
  (fun s => (s, 0)) <$> stack.

Definition pristine (stack : list string) (st : WalkState) : Prop :=
  next_insn_lex_tuple st = tuple_of 0 (zero_frames stack) /\
  stmt_added_since_prev_block_at_tier st = replicate (S (length stack)) false /\
  self_before st = None /\ self_after st = None.

(** The entries of a lex tuple after the counter of the initial frame. *)
Fixpoint frame_entries (frames : list (string * Z)) : list LexVal :=
  match frames with
  | [] => []
  | (s, c) :: outer => frame_entries outer ++ [LexIname s; LexInt c]
  end.

(** The walk, at the tuple [tuple_of c0 frames] with the flags [flags],
    has moved on from the snapshot [T]: a counter of the initial frame or
    of a loop still open, with the same frames around it, is now greater
    than in [T], and the frames outside that one all have their flag up. *)
Definition moved_on (T : list LexVal) (c0 : Z) (frames : list (string * Z))
    (flags : list bool) : Prop :=
  length flags = S (length frames) /\
  ((exists c0b framesb, T = tuple_of c0b framesb /\ c0b < c0) \/
   (exists inner innerb s cb c outer,
      frames = inner ++ (s, c) :: outer /\
      T = tuple_of c0 (innerb ++ (s, cb) :: outer) /\
      cb < c /\
      Forall (fun f => f = true) (take (S (length outer)) flags))).

Definition diverged (T : list LexVal) (st : WalkState) : Prop :=
  exists c0 frames,
    next_insn_lex_tuple st = tuple_of c0 frames /\
    moved_on T c0 frames (stmt_added_since_prev_block_at_tier st).

(** ** Names of the coordinates *)

Definition LIN_CHECK_IDENTIFIER_PREFIX : string := "_lp_linchk_".
Definition LEX_VAR_PREFIX : string := LIN_CHECK_IDENTIFIER_PREFIX +:+ "l".
Definition STATEMENT_VAR_NAME : string :=
  LIN_CHECK_IDENTIFIER_PREFIX +:+ "statement".

(** [get_lex_var_names]: [LEX_VAR_PREFIX + str(i)] for [i] in
    [range(self.max_lex_dims())]. *)
Definition get_lex_var_names (self : PairwiseScheduleBuilder) : list string :=
  (fun i : nat => LEX_VAR_PREFIX +:+ pretty i) <$>
  seq 0 (Z.to_nat (max_lex_dims self)).

(** Two consecutive blocks that could not be one: the last instruction of
    the first and the first instruction of the second differ in their
    [within_inames] or in their [predicates]. *)
Definition boundary_differs {Expression : Type} `{Countable Expression}
    (kernel : Tree.LoopKernel Expression)
    (b1 b2 : list Tree.RunInstruction) : Prop :=
  exists r1 r2 insn1 insn2,
    last b1 = Some r1 /\ head b2 = Some r2 /\
    Tree.id_to_insn kernel !! Tree.insn_id r1 = Some insn1 /\
    Tree.id_to_insn kernel !! Tree.insn_id r2 = Some insn2 /\
    ~ (Tree.within_inames insn1 = Tree.within_inames insn2 /\
       Tree.predicates insn1 = Tree.predicates insn2).

(** ** Building the schedule tree *)

Module TreeBuilder.

(** The items of [kernel.schedule] that [make_schedule_tree] reads, with
    the attributes it reads; [OtherItem] is an item of any other class. *)
Inductive SchedItem : Type :=
| CallKernel (kernel_name : string) (extra_args extra_inames : list string)
| ReturnFromKernel (kernel_name : string)
| EnterLoop (iname : string)
| LeaveLoop (iname : string)
| RunInstruction (insn_id : string)
| Barrier (comment synchronization_kind mem_kind : string)
          (originating_insn_id : option string)
| OtherItem.

(** The ways [make_schedule_tree] fails. *)
Inductive BuildError : Type :=
| AssertionError
| IndexError_list_index_out_of_range
| IndexError_pop_from_empty_list
| NotImplementedError.

(** A node of [_build_stack] that is open: the node without the open
    node above it on the stack, which is its last child. The children
    listed are those before that one. *)
Inductive OpenNode : Type :=
| OpenSchedule (children : list Tree.ScheduleNode)
| OpenFunction (name : string) (extra_args extra_inames : list string)
               (children : list Tree.ScheduleNode)
| OpenLoop (iname : string) (children : list Tree.ScheduleNode)
| OpenBlock (children : list Tree.RunInstruction).

(** The node an open node is once the node above it is popped. *)
Definition close (n : OpenNode) : Tree.ScheduleNode :=
  match n with
  | OpenSchedule children => Tree.Schedule children
  | OpenFunction name ea ei children => Tree.Function name ea ei children
  | OpenLoop iname children => Tree.Loop iname children
  | OpenBlock children => Tree.InstructionBlock children
  end.

(** [node.children.append(child)], for a node that is not a block. *)
Definition append_child (n : OpenNode) (child : Tree.ScheduleNode) : OpenNode :=
  match n with
  | OpenSchedule children => OpenSchedule (children ++ [child])
  | OpenFunction name ea ei children =>
      OpenFunction name ea ei (children ++ [child])
  | OpenLoop iname children => OpenLoop iname (children ++ [child])
  | OpenBlock children => OpenBlock children
  end.

(** The build stack, its top (the current node) first. *)
Definition BuildStack : Type := list OpenNode.

Definition is_block (n : OpenNode) : bool :=
  match n with OpenBlock _ => true | _ => false end.

(** [self._build_stack.pop()]: the node popped, which stays the last
    child of the node below it. *)
Definition pop (stack : BuildStack)
  : BuildError + (Tree.ScheduleNode * BuildStack) :=
  match stack with
  | [] => inl IndexError_pop_from_empty_list
  | top :: [] => inr (close top, [])
  | top :: below :: rest => inr (close top, append_child below (close top) :: rest)
  end.

(** [if isinstance(self.current_node, InstructionBlock):
        self._build_stack.pop()]. *)
Definition end_instruction_block (stack : BuildStack)
  : BuildError + BuildStack :=
  match stack with
  | [] => inl IndexError_list_index_out_of_range
  | top :: _ =>
      if is_block top then
        match pop stack with
        | inl e => inl e
        | inr (_, stack') => inr stack'
        end
      else inr stack
  end.

(** [assert isinstance(self.current_node, ...)] for the classes given by
    [allowed]. *)
Definition assert_current (allowed : OpenNode -> bool) (stack : BuildStack)
  : BuildError + unit :=
  match stack with
  | [] => inl IndexError_list_index_out_of_range
  | top :: _ => if allowed top then inr tt else inl AssertionError
  end.

Definition is_schedule (n : OpenNode) : bool :=
  match n with OpenSchedule _ => true | _ => false end.
Definition is_function (n : OpenNode) : bool :=
  match n with OpenFunction _ _ _ _ => true | _ => false end.
Definition is_loop (n : OpenNode) : bool :=
  match n with OpenLoop _ _ => true | _ => false end.
Definition is_schedule_function_or_loop (n : OpenNode) : bool :=
  is_schedule n || is_function n || is_loop n.

Definition bind_build {A B} (m : BuildError + A) (k : A -> BuildError + B)
  : BuildError + B :=
  match m with
  | inl e => inl e
  | inr a => k a
  end.

(** [make_and_enter_function]. *)
Definition make_and_enter_function (name : string)
    (extra_args extra_inames : list string) (stack : BuildStack)
  : BuildError + BuildStack :=
  bind_build (end_instruction_block stack) (fun stack =>
  bind_build (assert_current is_schedule stack) (fun _ =>
  inr (OpenFunction name extra_args extra_inames [] :: stack))).

(** [make_and_enter_instruction_block]. *)
Definition make_and_enter_instruction_block (stack : BuildStack)
  : BuildError + BuildStack :=
  bind_build (assert_current is_schedule_function_or_loop stack) (fun _ =>
  inr (OpenBlock [] :: stack)).

(** [make_and_enter_loop]. *)
Definition make_and_enter_loop (iname : string) (stack : BuildStack)
  : BuildError + BuildStack :=
  bind_build (end_instruction_block stack) (fun stack =>
  bind_build (assert_current is_schedule_function_or_loop stack) (fun _ =>
  inr (OpenLoop iname [] :: stack))).

(** [add_run_instruction]. *)
Definition add_run_instruction (insn_id : string) (stack : BuildStack)
  : BuildError + BuildStack :=
  bind_build
    (match stack with
     | [] => inl IndexError_list_index_out_of_range
     | top :: _ =>
         if is_block top then inr stack
         else make_and_enter_instruction_block stack
     end) (fun stack =>
  match stack with
  | OpenBlock children :: rest =>
      inr (OpenBlock (children ++ [Tree.mkRunInstruction insn_id]) :: rest)
  | top :: rest =>
      inr (append_child top (Tree.Run (Tree.mkRunInstruction insn_id)) :: rest)
  | [] => inl IndexError_list_index_out_of_range
  end).

(** [add_barrier]. *)
Definition add_barrier (comment sync_kind mem_kind : string)
    (insn_id : option string) (stack : BuildStack)
  : BuildError + BuildStack :=
  bind_build (end_instruction_block stack) (fun stack =>
  bind_build (assert_current is_schedule_function_or_loop stack) (fun _ =>
  match stack with
  | top :: rest =>
      inr (append_child top
             (Tree.Barrier comment sync_kind mem_kind insn_id) :: rest)
  | [] => inl IndexError_list_index_out_of_range
  end)).

(** [exit_function], [exit_loop] and [exit]: the node popped and the
    stack left. *)
Definition exit_with (allowed : OpenNode -> bool) (stack : BuildStack)
  : BuildError + (Tree.ScheduleNode * BuildStack) :=
  bind_build (end_instruction_block stack) (fun stack =>
  bind_build (assert_current allowed stack) (fun _ =>
  pop stack)).

Definition exit_function := exit_with is_function.
Definition exit_loop := exit_with is_loop.
Definition exit := exit_with is_schedule.

(** The name of a function node, the iname of a loop node. *)
Definition node_name (n : Tree.ScheduleNode) : option string :=
  match n with
  | Tree.Function name _ _ _ => Some name
  | Tree.Loop iname _ => Some iname
  | _ => None
  end.

(** One iteration of the loop of [make_schedule_tree]. *)
Definition build_step (sched_item : SchedItem) (stack : BuildStack)
  : BuildError + BuildStack :=
  match sched_item with
  | CallKernel kernel_name extra_args extra_inames =>
      make_and_enter_function kernel_name extra_args extra_inames stack
  | ReturnFromKernel kernel_name =>
      bind_build (exit_function stack) (fun '(fn, stack) =>
      if bool_decide (node_name fn = Some kernel_name) then inr stack
      else inl AssertionError)
  | EnterLoop iname => make_and_enter_loop iname stack
  | LeaveLoop iname =>
      bind_build (exit_loop stack) (fun '(loop, stack) =>
      if bool_decide (node_name loop = Some iname) then inr stack
      else inl AssertionError)
  | RunInstruction insn_id => add_run_instruction insn_id stack
  | Barrier comment sync_kind mem_kind insn_id =>
      add_barrier comment sync_kind mem_kind insn_id stack
  | OtherItem => inl NotImplementedError
  end.

Fixpoint build_loop (schedule : list SchedItem) (stack : BuildStack)
  : BuildError + BuildStack :=
  match schedule with
  | [] => inr stack
  | sched_item :: rest =>
      bind_build (build_step sched_item stack) (build_loop rest)
  end.

(** [make_schedule_tree], from [kernel.schedule] to the new schedule. *)
Definition make_schedule_tree (schedule : list SchedItem)
  : BuildError + Tree.ScheduleNode :=
  bind_build (build_loop schedule [OpenSchedule []]) (fun stack =>
  bind_build (exit stack) (fun '(sched, _) => inr sched)).

(** The items a tree stands for, in order. *)
Fixpoint linearize (expr : Tree.ScheduleNode) : list SchedItem :=
  match expr with
  | Tree.Run r => [RunInstruction (Tree.insn_id r)]
  | Tree.Barrier c sk mk oid => [Barrier c sk mk oid]
  | Tree.InstructionBlock children =>
      (fun r => RunInstruction (Tree.insn_id r)) <$> children
  | Tree.Loop iname children =>
      EnterLoop iname :: concat (linearize <$> children) ++ [LeaveLoop iname]
  | Tree.Function name ea ei children =>
      CallKernel name ea ei :: concat (linearize <$> children) ++
      [ReturnFromKernel name]
  | Tree.Schedule children => concat (linearize <$> children)
  end.

(** The items an open node stands for so far. *)
Definition linearize_open (n : OpenNode) : list SchedItem :=
  match n with
  | OpenSchedule children => concat (linearize <$> children)
  | OpenFunction name ea ei children =>
      CallKernel name ea ei :: concat (linearize <$> children)
  | OpenLoop iname children =>
      EnterLoop iname :: concat (linearize <$> children)
  | OpenBlock children =>
      (fun r => RunInstruction (Tree.insn_id r)) <$> children
  end.

(** The items a build stack stands for: those of its open nodes, from
    the bottom of the stack to its top. *)
Fixpoint linearize_stack (stack : BuildStack) : list SchedItem :=
  match stack with
  | [] => []
  | top :: below => linearize_stack below ++ linearize_open top
  end.

(** The stack as the builder keeps it: a schedule at the bottom, and a
    block nowhere but on top. *)
Fixpoint stack_ok (stack : BuildStack) : bool :=
  match stack with
  | [] => false
  | [bottom] => is_schedule bottom
  | top :: (below :: _) as rest =>
      negb (is_schedule top) && negb (is_block below) && stack_ok rest
  end.

(** *** The trees the builder makes *)

Definition is_instruction_block (n : Tree.ScheduleNode) : bool :=
  match n with Tree.InstructionBlock _ => true | _ => false end.

(** No two instruction blocks are next to each other. *)
Fixpoint separated (children : list Tree.ScheduleNode) : bool :=
  match children with
  | a :: (b :: _) as rest =>
      negb (is_instruction_block a && is_instruction_block b) && separated rest
  | _ => true
  end.

(** A child as the builder makes it, in a function or a loop
    ([in_function_or_loop]) or at the top of the schedule: a barrier, a
    block that is not empty, a loop, or at the top a function, with
    children of this kind that are separated. *)
Fixpoint normal (in_function_or_loop : bool) (n : Tree.ScheduleNode) : bool :=
  match n with
  | Tree.Run _ | Tree.Schedule _ => false
  | Tree.Barrier _ _ _ _ => true
  | Tree.InstructionBlock children => negb (bool_decide (children = []))
  | Tree.Loop _ children => separated children && forallb (normal true) children
  | Tree.Function _ _ _ children =>
      negb in_function_or_loop &&
      (separated children && forallb (normal true) children)
  end.

Definition children_ok (in_function_or_loop : bool)
    (children : list Tree.ScheduleNode) : bool :=
  separated children && forallb (normal in_function_or_loop) children.

Definition normal_schedule (tree : Tree.ScheduleNode) : bool :=
  match tree with
  | Tree.Schedule children => children_ok false children
  | _ => false
  end.

Definition ends_with_block (children : list Tree.ScheduleNode) : bool :=
  match last children with
  | Some n => is_instruction_block n
  | None => false
  end.

Definition open_children (n : OpenNode) : list Tree.ScheduleNode :=
  match n with
  | OpenSchedule children | OpenFunction _ _ _ children
  | OpenLoop _ children => children
  | OpenBlock _ => []
  end.

Definition open_ok (n : OpenNode) : bool :=
  match n with
  | OpenBlock children => negb (bool_decide (children = []))
  | _ => children_ok (negb (is_schedule n)) (open_children n)
  end.

Definition no_trailing_block (n : OpenNode) : bool :=
  negb (ends_with_block (open_children n)).

(** The open nodes hold children as the builder makes them; a function
    is open in the schedule only; and the node under an open block does
    not end with a block. *)
Fixpoint stack_nf (stack : BuildStack) : bool :=
  match stack with
  | [] => true
  | top :: rest =>
      open_ok top &&
      match rest with
      | below :: _ =>
          (if is_function top then is_schedule below else true) &&
          (if is_block top then no_trailing_block below else true)
      | [] => true
      end &&
      stack_nf rest
  end.

(** The stack between two iterations. *)
Definition stack_inv (stack : BuildStack) : bool :=
  stack_ok stack && stack_nf stack &&
  match stack with
  | top :: _ => no_trailing_block top
  | [] => false
  end.

(** The stack once the block on its top, if any, is ended. *)
Definition settle (stack : BuildStack) : BuildStack :=
  match stack with
  | OpenBlock children :: below :: rest =>
      append_child below (Tree.InstructionBlock children) :: rest
  | _ => stack
  end.

(** The statement id an item carries, if any. *)
Definition usable_id (item : SchedItem) : option string :=
  match item with
  | RunInstruction insn_id => Some insn_id
  | Barrier _ _ _ originating_insn_id => originating_insn_id
  | _ => None
  end.

End TreeBuilder.

(** A tree around the three instructions, and the schedule of Scenario A
    in one kernel, with the tree it stands for. *)
Definition three_insn_tree : Tree.ScheduleNode :=
  Tree.Schedule
    [Tree.Function "knl" [] []
       [Tree.Loop "i"
          [Tree.InstructionBlock three_insn_block;
           Tree.Barrier "for c" "local" "local" (Some "c")]]].

Definition scenario_A_schedule : list TreeBuilder.SchedItem :=
  [ TreeBuilder.CallKernel "example" [] [];
    TreeBuilder.EnterLoop "i"; TreeBuilder.EnterLoop "k";
    TreeBuilder.RunInstruction "Sa"; TreeBuilder.LeaveLoop "k";
    TreeBuilder.EnterLoop "j"; TreeBuilder.RunInstruction "Sb";
    TreeBuilder.RunInstruction "Sc"; TreeBuilder.LeaveLoop "j";
    TreeBuilder.LeaveLoop "i"; TreeBuilder.EnterLoop "t";
    TreeBuilder.RunInstruction "Sd"; TreeBuilder.LeaveLoop "t";
    TreeBuilder.ReturnFromKernel "example" ].

Definition scenario_A_tree : Tree.ScheduleNode :=
  Tree.Schedule
    [Tree.Function "example" [] []
       [Tree.Loop "i"
          [Tree.Loop "k"
             [Tree.InstructionBlock [Tree.mkRunInstruction "Sa"]];
           Tree.Loop "j"
             [Tree.InstructionBlock
                [Tree.mkRunInstruction "Sb"; Tree.mkRunInstruction "Sc"]]];
        Tree.Loop "t"
          [Tree.InstructionBlock [Tree.mkRunInstruction "Sd"]]]].

(** ** The constructor on a store of Python objects

    The same code with its objects in a store: the lists that the walk
    mutates in place, the set of loops to ignore (by default the one
    object that the [def] statement makes, shared by every call), the
    list of items and the objects the constructor makes. What the caller
    passes, and what the constructor returns, are references. *)

Module PyHeap.

(** A reference. *)
Abbreviation loc := nat.

(** The objects the constructor reads or makes. A schedule item, a
    [str], an [int] and a [bool] are immutable and stand for themselves;
    the items, which the constructor only reads, are held in their list. *)
Inductive Obj : Type :=
| OLexList (entries : list LexVal)
| OFlagList (entries : list bool)
| OSet (members : gset string)
| OItemList (entries : list ScheduleItem)
| OStatementInstanceSet (insn_id : string) (lex_points : loc)
| OPairwiseScheduleBuilder
    (stmt_instance_set_before stmt_instance_set_after : option loc).

(** The store: the object at reference [l] is the [l]-th. *)
Abbreviation Store := (list Obj).

(** How a computation on the store ends. [Stuck] is for a reference that
    is dangling or of another class than the code handles, which the
    arguments of a well-formed call are not. *)
Inductive outcome (A : Type) : Type :=
| Returned (a : A) (h : Store)
| Raised (e : PyError) (h : Store)
| Stuck.
Arguments Returned {A} a h.
Arguments Raised {A} e h.
Arguments Stuck {A}.

Definition M (A : Type) : Type := Store -> outcome A.

#[global] Instance M_ret : MRet M := fun A a h => Returned a h.

#[global] Instance M_bind : MBind M := fun A B k m h =>
  match m h with
  | Returned a h' => k a h'
  | Raised e h' => Raised e h'
  | Stuck => Stuck
  end.

Definition raise {A} (e : PyError) : M A := fun h => Raised e h.
Definition stuck {A} : M A := fun _ => Stuck.

Definition lift {A} (r : result A) : M A :=
  match r with
  | Ok a => mret a
  | Raise e => raise e
  end.

(** Making an object: its reference is new. *)
Definition alloc (o : Obj) : M loc :=
  fun h => Returned (length h) (h ++ [o]).

Definition load (l : loc) : M Obj :=
  fun h => match h !! l with
           | Some o => Returned o h
           | None => Stuck
           end.

(** Mutating an object in place. *)
Definition store (l : loc) (o : Obj) : M unit :=
  fun h => Returned tt (<[l := o]> h).

Definition load_lex (l : loc) : M (list LexVal) :=
  o ← load l;
  match o with OLexList entries => mret entries | _ => stuck end.

Definition load_flags (l : loc) : M (list bool) :=
  o ← load l;
  match o with OFlagList entries => mret entries | _ => stuck end.

Definition load_set (l : loc) : M (gset string) :=
  o ← load l;
  match o with OSet members => mret members | _ => stuck end.

Definition load_items (l : loc) : M (list ScheduleItem) :=
  o ← load l;
  match o with OItemList entries => mret entries | _ => stuck end.

(** The object that [loops_to_ignore=set()] makes when the [def]
    statement runs; every call that omits the argument gets this one. *)
Definition default_loops_to_ignore : loc := 0%nat.

Section Walk.

Variable before_insn_id after_insn_id : string.
Variable loops_to_ignore : loc.
Variable self : loc.
(** [next_insn_lex_tuple] is bound once, to a list mutated in place;
    [stmt_added_since_prev_block_at_tier] is bound anew to [[True]*len]
    after a capture, so the loop passes it on. *)
Variable next_insn_lex_tuple : loc.

(** [next_insn_lex_tuple[-1] = next_insn_lex_tuple[-1]+1]. *)
Definition incr_last : M unit :=
  tup ← load_lex next_insn_lex_tuple;
  tup' ← lift (py_incr_last tup);
  store next_insn_lex_tuple (OLexList tup').

(** [next_insn_lex_tuple.append(v)]. *)
Definition append_lex (v : LexVal) : M unit :=
  tup ← load_lex next_insn_lex_tuple;
  store next_insn_lex_tuple (OLexList (tup ++ [v])).

(** [next_insn_lex_tuple.pop()]. *)
Definition pop_lex : M unit :=
  tup ← load_lex next_insn_lex_tuple;
  '(tup', _) ← lift (py_pop tup);
  store next_insn_lex_tuple (OLexList tup').

Definition bump_if_stmt_added (flags : loc) : M unit :=
  fl ← load_flags flags;
  flag ← lift (py_last fl);
  if (flag : bool) then
    incr_last;;
    fl ← load_flags flags;
    fl' ← lift (py_set_last fl false);
    store flags (OFlagList fl')
  else mret tt.

(** [self.stmt_instance_set_before =
       StatementInstanceSet(lp_insn_id, next_insn_lex_tuple[:])]:
    the slice is a new list, the set a new object. *)
Definition capture (lp_insn_id : string) (before : bool) : M unit :=
  tup ← load_lex next_insn_lex_tuple;
  copy ← alloc (OLexList tup);
  stmt_inst ← alloc (OStatementInstanceSet lp_insn_id copy);
  o ← load self;
  match o with
  | OPairwiseScheduleBuilder b a =>
      store self
        (if before then OPairwiseScheduleBuilder (Some stmt_inst) a
         else OPairwiseScheduleBuilder b (Some stmt_inst))
  | _ => stuck
  end.

(** One iteration of the [for] loop: the reference that
    [stmt_added_since_prev_block_at_tier] holds afterwards, and how the
    iteration ends. *)
Definition loop_body (item : ScheduleItem) (flags : loc) : M (loc * Flow) :=
  match item with
  | EnterLoop iname =>
      ignored ← load_set loops_to_ignore;
      if bool_decide (iname ∈ ignored) then mret (flags, Continued)
      else
        bump_if_stmt_added flags;;
        append_lex (LexIname iname);;
        append_lex (LexInt 0);;
        fl ← load_flags flags;
        store flags (OFlagList (fl ++ [false]));;
        mret (flags, ReachedEnd)
  | LeaveLoop iname =>
      ignored ← load_set loops_to_ignore;
      if bool_decide (iname ∈ ignored) then mret (flags, Continued)
      else
        pop_lex;;
        pop_lex;;
        fl ← load_flags flags;
        '(fl', _) ← lift (py_pop fl);
        store flags (OFlagList fl');;
        bump_if_stmt_added flags;;
        mret (flags, ReachedEnd)
  | RunInstruction _ | Barrier _ _ _ _ =>
      match get_insn_id_from_linearization_item item with
      | None => mret (flags, Continued)
      | Some lp_insn_id =>
          let is_before := bool_decide (lp_insn_id = before_insn_id) in
          let is_after := bool_decide (lp_insn_id = after_insn_id) in
          (if is_before then capture lp_insn_id true else mret tt);;
          (if is_after then capture lp_insn_id false else mret tt);;
          if is_before || is_after then
            incr_last;;
            fl ← load_flags flags;
            flags' ← alloc (OFlagList (replicate (length fl) true));
            mret (flags', ReachedEnd)
          else mret (flags, ReachedEnd)
      end
  | CallKernel _ | ReturnFromKernel _ => mret (flags, ReachedEnd)
  end.

(** [if self.stmt_instance_set_before and self.stmt_instance_set_after]:
    an instance set is true, [None] is not. *)
Definition both_created : M bool :=
  o ← load self;
  match o with
  | OPairwiseScheduleBuilder (Some _) (Some _) => mret true
  | OPairwiseScheduleBuilder _ _ => mret false
  | _ => stuck
  end.

(** The [for] loop: the iterator reads the list of items at its index
    [i] anew at every iteration, and stops at its end. The list does not
    grow, so [fuel] above the number of items left is never used up. *)
Fixpoint for_loop (fuel : nat) (linearization_items_ordered : loc) (i : nat)
    (flags : loc) : M unit :=
  match fuel with
  | O => stuck
  | S fuel =>
      items ← load_items linearization_items_ordered;
      match items !! i with
      | None => mret tt
      | Some item =>
          '(flags', flow) ← loop_body item flags;
          match flow with
          | ReachedEnd =>
              done ← both_created;
              if (done : bool) then mret tt
              else for_loop fuel linearization_items_ordered (S i) flags'
          | Continued =>
              for_loop fuel linearization_items_ordered (S i) flags'
          end
      end
  end.

(** [stmt_inst.lex_points], for an attribute of [self] that may be
    [None]. *)
Definition lex_points_of (stmt_inst : option loc) : M (list LexVal) :=
  match stmt_inst with
  | None => raise (AttributeError_NoneType "lex_points")
  | Some s =>
      o ← load s;
      match o with
      | OStatementInstanceSet _ lex_points => load_lex lex_points
      | _ => stuck
      end
  end.

Definition max_lex_dims : M Z :=
  o ← load self;
  match o with
  | OPairwiseScheduleBuilder b a =>
      lb ← lex_points_of b;
      la ← lex_points_of a;
      mret (Z.max (Z.of_nat (length lb)) (Z.of_nat (length la)))
  | _ => stuck
  end.

(** [_pad_lex_tuple_with_zeros]: a new instance set with a new list.
    (The slice and the list of zeros it is made of are dropped at once
    and are not given a place in the store.) *)
Definition _pad_lex_tuple_with_zeros (stmt_inst : option loc) (length_ : Z)
  : M loc :=
  match stmt_inst with
  | None => raise (AttributeError_NoneType "insn_id")
  | Some s =>
      o ← load s;
      match o with
      | OStatementInstanceSet insn_id lex_points =>
          entries ← load_lex lex_points;
          padded ← alloc
            (OLexList
               (entries ++
                replicate (Z.to_nat (length_ - Z.of_nat (length entries)))
                          (LexInt 0)));
          alloc (OStatementInstanceSet insn_id padded)
      | _ => stuck
      end
  end.

(** The two assignments that end [__init__]. *)
Definition pad_both (max_lex_dim : Z) : M unit :=
  o ← load self;
  match o with
  | OPairwiseScheduleBuilder b a =>
      b' ← _pad_lex_tuple_with_zeros b max_lex_dim;
      store self (OPairwiseScheduleBuilder (Some b') a);;
      a' ← _pad_lex_tuple_with_zeros a max_lex_dim;
      store self (OPairwiseScheduleBuilder (Some b') (Some a'))
  | _ => stuck
  end.

End Walk.

(** [PairwiseScheduleBuilder(linearization_items_ordered, before_insn_id,
    after_insn_id, loops_to_ignore)], with [loops_to_ignore] given or
    left out: the reference to the new builder. *)
Definition PairwiseScheduleBuilder_new (linearization_items_ordered : loc)
    (before_insn_id after_insn_id : string) (loops_to_ignore : option loc)
  : M loc :=
  let loops_to_ignore := default default_loops_to_ignore loops_to_ignore in
  self ← alloc (OPairwiseScheduleBuilder None None);
  next_insn_lex_tuple ← alloc (OLexList [LexInt 0]);
  stmt_added_since_prev_block_at_tier ← alloc (OFlagList [false]);
  items ← load_items linearization_items_ordered;
  for_loop before_insn_id after_insn_id loops_to_ignore self
    next_insn_lex_tuple (S (length items)) linearization_items_ordered 0%nat
    stmt_added_since_prev_block_at_tier;;
  max_lex_dim ← max_lex_dims self;
  pad_both self max_lex_dim;;
  mret self.

(** What a reference to an instance set, and to a builder, stands for. *)
Definition read_stmt_inst (h : Store) (l : loc)
  : option StatementInstanceSet :=
  match h !! l with
  | Some (OStatementInstanceSet insn_id lex_points) =>
      match h !! lex_points with
      | Some (OLexList entries) => Some (mkSIS insn_id entries)
      | _ => None
      end
  | _ => None
  end.

Definition read_builder (h : Store) (l : loc)
  : option PairwiseScheduleBuilder :=
  match h !! l with
  | Some (OPairwiseScheduleBuilder (Some b) (Some a)) =>
      match read_stmt_inst h b, read_stmt_inst h a with
      | Some sb, Some sa => Some (mkBuilder sb sa)
      | _, _ => None
      end
  | _ => None
  end.

(** The arguments of a call are what they should be: a list holding the
    items [lin], and for the loops to ignore a set with the members
    [ign], given or, when left out, the default one. *)
Definition args_ok (h : Store) (linearization_items_ordered : loc)
    (lin : list ScheduleItem) (loops_to_ignore : option loc)
    (ign : gset string) : Prop :=
  h !! linearization_items_ordered = Some (OItemList lin) /\
  h !! default default_loops_to_ignore loops_to_ignore = Some (OSet ign).

(** Every object of [h0] is in [h], as it was. *)
Definition kept (h0 h : Store) : Prop := take (length h0) h = h0.

(** An attribute of [self] in the store stands for that of the walk: an
    instance set whose list of lex points is not the list the walk goes
    on mutating. *)
Definition repr (h : Store) (next_insn_lex_tuple : loc) (o : option loc)
    (v : option StatementInstanceSet) : Prop :=
  match o, v with
  | None, None => True
  | Some l, Some s =>
      exists copy,
        h !! l = Some (OStatementInstanceSet (insn_id s) copy) /\
        h !! copy = Some (OLexList (lex_points s)) /\
        copy <> next_insn_lex_tuple
  | _, _ => False
  end.

(** The store [h], in a call made on the store [h0], stands for the
    state [st] of the walk: the objects of [h0] are kept, and the local
    variables and [self], all made by the call, hold what [st] has. *)
Definition sim (h0 : Store) (self lex_tuple flags : loc)
    (st : WalkState) (h : Store) : Prop :=
  kept h0 h /\
  (length h0 <= self)%nat /\ (length h0 <= lex_tuple)%nat /\
  (length h0 <= flags)%nat /\
  h !! lex_tuple = Some (OLexList (next_insn_lex_tuple st)) /\
  h !! flags = Some (OFlagList (stmt_added_since_prev_block_at_tier st)) /\
  exists b a,
    h !! self = Some (OPairwiseScheduleBuilder b a) /\
    repr h lex_tuple b (self_before st) /\
    repr h lex_tuple a (self_after st).

(** A store after the module is loaded and Scenario A is made. *)
Definition scenario_A_store : Store :=
  [OSet ∅; OItemList scenario_A].

End PyHeap.
(** * Properties *)

(** ** The list primitives *)

Lemma py_pop_snoc {A} (l : list A) (x : A) : py_pop (l ++ [x]) = Ok (l, x).
Proof.
  induction l as [|y l IH]; [reflexivity|].
  change ((y :: l) ++ [x]) with (y :: (l ++ [x])).
  cbn [py_pop]. rewrite IH.
  destruct (l ++ [x]) eqn:E; [by destruct l|reflexivity].
Qed.

Lemma py_pop_nil {A} : py_pop (@nil A) = Raise IndexError_pop_from_empty_list.
Proof. reflexivity. Qed.

Lemma py_last_snoc {A} (l : list A) (x : A) : py_last (l ++ [x]) = Ok x.
Proof. unfold py_last. by rewrite py_pop_snoc. Qed.

Lemma py_set_last_snoc {A} (l : list A) (x v : A) :
  py_set_last (l ++ [x]) v = Ok (l ++ [v]).
Proof. unfold py_set_last. by rewrite py_pop_snoc. Qed.

Lemma snoc_of_length {A} (l : list A) (n : nat) :
  length l = S n -> exists l' x, l = l' ++ [x] /\ length l' = n.
Proof.
  intros Hl. destruct (decide (l = [])) as [->|Hne]; [done|].
  destruct (exists_last Hne) as (l' & x & ->).
  exists l', x. split; [done|]. rewrite length_app in Hl. simpl in Hl. lia.
Qed.

Lemma tuple_of_last (c0 : Z) (frames : list (string * Z)) :
  exists body c, tuple_of c0 frames = body ++ [LexInt c] /\
    tuple_of (bump c0 frames).1 (bump c0 frames).2 = body ++ [LexInt (c + 1)].
Proof.
  destruct frames as [|[s c] outer]; simpl.
  - by exists [], c0.
  - exists (tuple_of c0 outer ++ [LexIname s]), c.
    by rewrite <- !(assoc_L (++)).
Qed.

Lemma py_incr_last_tuple_of (c0 : Z) (frames : list (string * Z)) :
  py_incr_last (tuple_of c0 frames) =
  Ok (tuple_of (bump c0 frames).1 (bump c0 frames).2).
Proof.
  destruct (tuple_of_last c0 frames) as (body & c & -> & ->).
  unfold py_incr_last. rewrite py_last_snoc. simpl.
  by rewrite py_set_last_snoc.
Qed.

Lemma length_tuple_of (c0 : Z) (frames : list (string * Z)) :
  length (tuple_of c0 frames) = S (2 * length frames).
Proof.
  induction frames as [|[s c] outer IH]; simpl; [done|].
  rewrite length_app, IH. simpl. lia.
Qed.

Lemma bump_fst (c0 : Z) (frames : list (string * Z)) :
  (bump c0 frames).2.*1 = frames.*1.
Proof. by destruct frames as [|[??]?]. Qed.

Lemma bump_nonneg (c0 : Z) (frames : list (string * Z)) :
  0 <= c0 -> Forall (fun f => 0 <= f.2) frames ->
  0 <= (bump c0 frames).1 /\ Forall (fun f => 0 <= f.2) (bump c0 frames).2.
Proof.
  intros H0 HF. destruct frames as [|[s c] outer]; simpl.
  - split; [lia|done].
  - inversion HF; subst. split; [done|]. constructor; simpl in *; [lia|done].
Qed.

(** ** The shape of the walk state is invariant *)

Section WalkFacts.

Variable before_insn_id after_insn_id : string.
Variable loops_to_ignore : gset string.

Local Abbreviation body := (loop_body before_insn_id after_insn_id loops_to_ignore).
Local Abbreviation loop := (for_loop before_insn_id after_insn_id loops_to_ignore).
Local Abbreviation trace := (for_loop_trace before_insn_id after_insn_id loops_to_ignore).

Lemma bump_if_stmt_added_tuple_of c0 frames flags n :
  0 <= c0 -> Forall (fun f => 0 <= f.2) frames ->
  length flags = S n ->
  exists c0' frames' flags',
    bump_if_stmt_added (tuple_of c0 frames) flags =
      Ok (tuple_of c0' frames', flags') /\
    frames'.*1 = frames.*1 /\ 0 <= c0' /\
    Forall (fun f => 0 <= f.2) frames' /\ length flags' = S n.
Proof.
  intros H0 HF Hlen.
  destruct (snoc_of_length _ _ Hlen) as (fl & f & -> & Hfl).
  unfold bump_if_stmt_added. rewrite py_last_snoc. simpl.
  destruct f.
  - rewrite py_incr_last_tuple_of. simpl. rewrite py_set_last_snoc. simpl.
    destruct (bump_nonneg c0 frames H0 HF) as [? ?].
    eexists _, _, _. split; [reflexivity|].
    rewrite bump_fst, length_app. simpl. repeat split; try done. lia.
  - eexists _, _, _. split; [reflexivity|].
    rewrite length_app. simpl. repeat split; try done. lia.
Qed.

Lemma loop_body_shaped item stack st :
  shaped stack st ->
  match body item st with
  | Ok (st', _) =>
      shaped (open_loops loops_to_ignore [item] stack) st' /\
      keeps_initial_frame loops_to_ignore [item] (length stack) = true
  | Raise e =>
      e = IndexError_pop_from_empty_list /\
      keeps_initial_frame loops_to_ignore [item] (length stack) = false
  end.
Proof.
  intros (c0 & frames & Htup & Hst & H0 & HF & Hfl).
  destruct item as [iname|iname|id_|c sk mk [id_|]|k|k]; simpl.
  - (* EnterLoop *)
    case_bool_decide; [split; [by exists c0, frames|done]|].
    rewrite Htup.
    destruct (bump_if_stmt_added_tuple_of c0 frames _ _ H0 HF Hfl)
      as (c0' & frames' & flags' & -> & Hn & H0' & HF' & Hfl').
    simpl. split; [|done].
    exists c0', ((iname, 0) :: frames'). simpl.
    repeat split; try done.
    + f_equal. by etrans.
    + by constructor.
    + rewrite length_app. simpl. lia.
  - (* LeaveLoop *)
    case_bool_decide; [split; [by exists c0, frames|done]|].
    rewrite Htup.
    destruct frames as [|[s c] outer]; simpl in *; subst stack; simpl.
    { done. }
    rewrite (assoc_L (++) _ [LexIname s] [LexInt c]), py_pop_snoc. simpl.
    rewrite py_pop_snoc. simpl.
    destruct (snoc_of_length _ _ Hfl) as (fl & f & -> & Hfl1).
    rewrite py_pop_snoc. simpl.
    inversion HF as [|? ? Hc HF']; subst.
    destruct (bump_if_stmt_added_tuple_of c0 outer _ _ H0 HF' Hfl1)
      as (c0' & frames' & flags' & -> & Hn & H0' & HF'' & Hfl').
    simpl. split; [|done]. by exists c0', frames'.
  - (* RunInstruction *)
    rewrite Htup.
    destruct (bool_decide (id_ = before_insn_id) ||
              bool_decide (id_ = after_insn_id)) eqn:E.
    + rewrite py_incr_last_tuple_of. simpl. split; [|done].
      destruct (bump_nonneg c0 frames H0 HF) as [? ?].
      eexists _, _. simpl. split; [reflexivity|].
      rewrite bump_fst, length_replicate. done.
    + split; [|done]. by exists c0, frames.
  - (* Barrier with an id *)
    rewrite Htup.
    destruct (bool_decide (id_ = before_insn_id) ||
              bool_decide (id_ = after_insn_id)) eqn:E.
    + rewrite py_incr_last_tuple_of. simpl. split; [|done].
      destruct (bump_nonneg c0 frames H0 HF) as [? ?].
      eexists _, _. simpl. split; [reflexivity|].
      rewrite bump_fst, length_replicate. done.
    + split; [|done]. by exists c0, frames.
  - split; [by exists c0, frames|done].
  - split; [by exists c0, frames|done].
  - split; [by exists c0, frames|done].
Qed.

(** What one iteration does to the two captured sets. *)
Lemma loop_body_sets item st st' flow :
  body item st = Ok (st', flow) ->
  self_before st' =
    (if bool_decide (get_insn_id_from_linearization_item item =
                     Some before_insn_id)
     then Some (mkSIS before_insn_id (next_insn_lex_tuple st))
     else self_before st) /\
  self_after st' =
    (if bool_decide (get_insn_id_from_linearization_item item =
                     Some after_insn_id)
     then Some (mkSIS after_insn_id (next_insn_lex_tuple st))
     else self_after st) /\
  (flow = Continued -> st' = st).
Proof.
  intros Hb.
  destruct item as [iname|iname|id_|c sk mk [id_|]|k|k]; simpl in *.
  - case_bool_decide; [by simplify_eq|].
    destruct (bump_if_stmt_added _ _) as [[tup flags]|e]; by simplify_eq/=.
  - case_bool_decide; [by simplify_eq|].
    destruct (py_pop (next_insn_lex_tuple st)) as [[t1 ?]|?]; simplify_eq/=.
    destruct (py_pop t1) as [[t2 ?]|?]; simplify_eq/=.
    destruct (py_pop (stmt_added_since_prev_block_at_tier st))
      as [[f1 ?]|?]; simplify_eq/=.
    destruct (bump_if_stmt_added _ _) as [[tup flags]|e]; by simplify_eq/=.
  - destruct (py_incr_last _) as [tup|e];
      repeat case_bool_decide; by simplify_eq/=.
  - destruct (py_incr_last _) as [tup|e];
      repeat case_bool_decide; by simplify_eq/=.
  - by simplify_eq.
  - by simplify_eq.
  - by simplify_eq.
Qed.

Lemma open_loops_cons item rest stack :
  open_loops loops_to_ignore (item :: rest) stack =
  open_loops loops_to_ignore rest (open_loops loops_to_ignore [item] stack).
Proof. destruct item; simpl; try case_bool_decide; done. Qed.

Lemma open_loops_app pre post stack :
  open_loops loops_to_ignore (pre ++ post) stack =
  open_loops loops_to_ignore post (open_loops loops_to_ignore pre stack).
Proof.
  revert stack. induction pre as [|item pre IH]; intros stack; [done|].
  change ((item :: pre) ++ post) with (item :: (pre ++ post)).
  by rewrite open_loops_cons, IH, (open_loops_cons item pre).
Qed.

Lemma keeps_initial_frame_cons item rest stack :
  keeps_initial_frame loops_to_ignore (item :: rest) (length stack) =
  keeps_initial_frame loops_to_ignore [item] (length stack) &&
  keeps_initial_frame loops_to_ignore rest
    (length (open_loops loops_to_ignore [item] stack)).
Proof.
  destruct item; simpl; try case_bool_decide; simpl; try done.
  by destruct stack.
Qed.

Lemma well_nested_keeps_initial_frame items stack :
  well_nested loops_to_ignore items stack = true ->
  keeps_initial_frame loops_to_ignore items (length stack) = true.
Proof.
  revert stack. induction items as [|item rest IH]; intros stack; [done|].
  destruct item as [iname|iname| | | |]; simpl;
    try case_bool_decide; try apply IH.
  destruct stack as [|top stack]; [done|]. simpl.
  intros [_ Hw]%andb_true_iff. by apply IH.
Qed.

(** The walk raises nothing when the initial frame is never popped. *)
Lemma for_loop_total items stack st :
  shaped stack st ->
  keeps_initial_frame loops_to_ignore items (length stack) = true ->
  exists st', loop items st = Ok st'.
Proof.
  revert stack st. induction items as [|item rest IH]; intros stack st Hsh Hk.
  { by exists st. }
  rewrite keeps_initial_frame_cons in Hk.
  apply andb_true_iff in Hk as [Hk1 Hk2].
  pose proof (loop_body_shaped item stack st Hsh) as Hb.
  simpl. destruct (body item st) as [[st' flow]|e]; simpl.
  - destruct Hb as [Hsh' _].
    destruct flow; [destruct (both_created st'); [by eexists|]|]; by eapply IH.
  - destruct Hb as [_ Hb]. congruence.
Qed.

(** The only exception of the walk is the pop of the initial frame. *)
Lemma for_loop_raises items stack st e :
  shaped stack st ->
  loop items st = Raise e -> e = IndexError_pop_from_empty_list.
Proof.
  revert stack st. induction items as [|item rest IH]; intros stack st Hsh; [done|].
  pose proof (loop_body_shaped item stack st Hsh) as Hb.
  simpl. destruct (body item st) as [[st' flow]|e']; simpl.
  - destruct Hb as [Hsh' _].
    destruct flow; [destruct (both_created st'); [done|]|]; by eapply IH.
  - destruct Hb as [-> _]. congruence.
Qed.

Lemma for_loop_trace_shaped items stack st :
  shaped stack st ->
  Forall (fun s => exists stk, shaped stk s) (trace items st).
Proof.
  revert stack st. induction items as [|item rest IH]; intros stack st Hsh.
  { constructor. }
  pose proof (loop_body_shaped item stack st Hsh) as Hb.
  simpl. destruct (body item st) as [[st' flow]|e]; [|constructor].
  destruct Hb as [Hsh' _].
  destruct flow; constructor; try by eexists.
  - destruct (both_created st'); [constructor|by eapply IH].
  - by eapply IH.
Qed.

(** The trace ends with the state the loop returns. *)
Lemma for_loop_trace_last items st st' :
  loop items st = Ok st' -> last (st :: trace items st) = Some st'.
Proof.
  revert st. induction items as [|item rest IH]; intros st; simpl.
  { by intros [= ->]. }
  destruct (body item st) as [[st1 flow]|e]; simpl; [|done].
  destruct flow.
  - destruct (both_created st1); [by intros [= ->]|].
    intros H. by apply IH in H.
  - intros H. by apply IH in H.
Qed.

Lemma capture_step target item rest stack st (o o1 : option StatementInstanceSet) s :
  shaped stack st ->
  o1 = (if bool_decide (get_insn_id_from_linearization_item item = Some target)
        then Some (mkSIS target (next_insn_lex_tuple st)) else o) ->
  o1 = Some s \/
    captured_at loops_to_ignore rest
      (open_loops loops_to_ignore [item] stack) target s ->
  o = Some s \/ captured_at loops_to_ignore (item :: rest) stack target s.
Proof.
  intros (c0 & frames & Htup & Hst & H0 & HF & _) -> [H|H].
  - case_bool_decide as Hid; [|by left].
    right. injection H as <-.
    exists [], item, rest, c0, frames. by repeat split.
  - right. destruct H as (pre & it & post & c & fr & -> & ? & ? & ? & Hfr & ? & ?).
    exists (item :: pre), it, post, c, fr. repeat split; try done.
    by rewrite Hfr, (open_loops_cons item pre).
Qed.

(** A set the loop returns was captured at an item carrying its id. *)
Lemma for_loop_captured items stack st st' :
  shaped stack st -> loop items st = Ok st' ->
  (forall s, self_before st' = Some s ->
     self_before st = Some s \/
     captured_at loops_to_ignore items stack before_insn_id s) /\
  (forall s, self_after st' = Some s ->
     self_after st = Some s \/
     captured_at loops_to_ignore items stack after_insn_id s).
Proof.
  revert stack st. induction items as [|item rest IH]; intros stack st Hsh.
  { intros [= ->]. split; intros s Hs; by left. }
  pose proof (loop_body_shaped item stack st Hsh) as Hb.
  simpl. destruct (body item st) as [[st1 flow]|e] eqn:Ebody; simpl; [|done].
  destruct Hb as [Hsh1 _].
  destruct (loop_body_sets _ _ _ _ Ebody) as (Hbef & Haft & _).
  intros Hloop.
  assert ((forall s, self_before st' = Some s ->
             self_before st1 = Some s \/
             captured_at loops_to_ignore rest
               (open_loops loops_to_ignore [item] stack) before_insn_id s) /\
          (forall s, self_after st' = Some s ->
             self_after st1 = Some s \/
             captured_at loops_to_ignore rest
               (open_loops loops_to_ignore [item] stack) after_insn_id s))
    as [Hb1 Ha1].
  { destruct flow; [destruct (both_created st1)|].
    - simplify_eq. split; intros; by left.
    - by eapply IH.
    - by eapply IH. }
  split; intros s Hs; eapply capture_step; eauto.
Qed.

(** So was every set held at the end of an iteration. *)
Lemma for_loop_trace_captured items stack st :
  shaped stack st ->
  Forall (fun st' =>
            (forall s, self_before st' = Some s ->
               self_before st = Some s \/
               captured_at loops_to_ignore items stack before_insn_id s) /\
            (forall s, self_after st' = Some s ->
               self_after st = Some s \/
               captured_at loops_to_ignore items stack after_insn_id s))
         (trace items st).
Proof.
  revert stack st. induction items as [|item rest IH]; intros stack st Hsh.
  { constructor. }
  pose proof (loop_body_shaped item stack st Hsh) as Hb.
  simpl. destruct (body item st) as [[st1 flow]|e] eqn:Ebody; [|constructor].
  destruct Hb as [Hsh1 _].
  destruct (loop_body_sets _ _ _ _ Ebody) as (Hbef & Haft & _).
  assert (Forall (fun st' =>
            (forall s, self_before st' = Some s ->
               self_before st = Some s \/
               captured_at loops_to_ignore (item :: rest) stack
                 before_insn_id s) /\
            (forall s, self_after st' = Some s ->
               self_after st = Some s \/
               captured_at loops_to_ignore (item :: rest) stack
                 after_insn_id s))
          (trace rest st1)) as Htail.
  { eapply Forall_impl; [by apply (IH _ _ Hsh1)|].
    intros st' [Hb' Ha']. split; intros s Hs; eapply capture_step; eauto. }
  assert ((forall s, self_before st1 = Some s ->
             self_before st = Some s \/
             captured_at loops_to_ignore (item :: rest) stack before_insn_id s) /\
          (forall s, self_after st1 = Some s ->
             self_after st = Some s \/
             captured_at loops_to_ignore (item :: rest) stack after_insn_id s))
    as Hhead.
  { split; intros s Hs; eapply capture_step; eauto. }
  destruct flow; [destruct (both_created st1)|];
    (constructor; [exact Hhead | first [exact Htail | constructor]]).
Qed.

(** A statement that occurs is captured, if the loop returns. *)
Lemma for_loop_captures items st st' :
  loop items st = Ok st' ->
  (occurs_in before_insn_id items = true \/ is_Some (self_before st) ->
     is_Some (self_before st')) /\
  (occurs_in after_insn_id items = true \/ is_Some (self_after st) ->
     is_Some (self_after st')).
Proof.
  revert st. induction items as [|item rest IH]; intros st.
  { intros [= ->]. split; intros [?|?]; done. }
  simpl. destruct (body item st) as [[st1 flow]|e] eqn:Ebody; simpl; [|done].
  destruct (loop_body_sets _ _ _ _ Ebody) as (Hbef & Haft & _).
  intros Hloop.
  assert (is_Some (self_before st1) -> is_Some (self_before st')) as Hb1.
  { destruct flow; [destruct (both_created st1) eqn:E|].
    - by simplify_eq.
    - intros ?. apply (IH _ Hloop). by right.
    - intros ?. apply (IH _ Hloop). by right. }
  assert (is_Some (self_after st1) -> is_Some (self_after st')) as Ha1.
  { destruct flow; [destruct (both_created st1) eqn:E|].
    - by simplify_eq.
    - intros ?. apply (IH _ Hloop). by right.
    - intros ?. apply (IH _ Hloop). by right. }
  assert (both_created st1 = true -> is_Some (self_before st1) /\
                                     is_Some (self_after st1)) as Hboth.
  { unfold both_created. destruct (self_before st1), (self_after st1); done. }
  split; intros [Hocc|Hsome].
  - apply orb_true_iff in Hocc as [Hocc|Hocc].
    + apply Hb1. rewrite Hbef, Hocc. done.
    + destruct flow; [destruct (both_created st1) eqn:E|].
      * simplify_eq. by apply Hboth.
      * apply (IH _ Hloop). by left.
      * apply (IH _ Hloop). by left.
  - apply Hb1. rewrite Hbef.
    by destruct (bool_decide (_ = Some before_insn_id)).
  - apply orb_true_iff in Hocc as [Hocc|Hocc].
    + apply Ha1. rewrite Haft, Hocc. done.
    + destruct flow; [destruct (both_created st1) eqn:E|].
      * simplify_eq. by apply Hboth.
      * apply (IH _ Hloop). by left.
      * apply (IH _ Hloop). by left.
  - apply Ha1. rewrite Haft.
    by destruct (bool_decide (_ = Some after_insn_id)).
Qed.

(** Items after the one that completes the pair are not looked at. *)
Lemma for_loop_early_exit items suffix st st' :
  both_created st = false ->
  loop items st = Ok st' -> both_created st' = true ->
  loop (items ++ suffix) st = Ok st'.
Proof.
  revert st. induction items as [|item rest IH]; intros st Hst; simpl.
  { intros [= ->]. congruence. }
  destruct (body item st) as [[st1 flow]|e] eqn:Ebody; simpl; [|done].
  destruct (loop_body_sets _ _ _ _ Ebody) as (_ & _ & Hcont).
  destruct flow.
  - destruct (both_created st1) eqn:E; [done|]. by apply IH.
  - rewrite (Hcont eq_refl). by apply IH.
Qed.

End WalkFacts.

Lemma initial_state_shaped : shaped [] initial_state.
Proof. exists 0, []. by repeat split. Qed.

(** Reading a tuple written frame by frame, index by index. *)
Lemma tuple_of_lookup (c0 : Z) (frames : list (string * Z)) :
  0 <= c0 -> Forall (fun f => 0 <= f.2) frames ->
  (forall k : nat, (k <= length frames)%nat ->
     exists c, tuple_of c0 frames !! (2 * k)%nat = Some (LexInt c) /\ 0 <= c) /\
  (forall k : nat, (k < length frames)%nat ->
     tuple_of c0 frames !! (2 * k + 1)%nat =
     LexIname <$> rev (frames.*1) !! k).
Proof.
  intros H0. induction 1 as [|[s c] outer Hc HF IH].
  - split; [|simpl; lia]. intros k Hk. assert (k = 0%nat) as -> by (simpl in Hk; lia).
    by exists c0.
  - destruct IH as [IHe IHo].
    pose proof (length_tuple_of c0 outer) as Hlen.
    assert (length (rev outer.*1) = length outer) as Hrev
      by by rewrite length_rev, length_fmap.
    rewrite fmap_cons. cbn [tuple_of length rev fst].
    split; intros k Hk.
    + destruct (decide (k <= length outer)%nat) as [Hle|Hgt].
      * rewrite lookup_app_l by lia. by apply IHe.
      * assert (k = S (length outer)) as -> by lia.
        rewrite lookup_app_r by lia.
        replace (2 * S (length outer) - length (tuple_of c0 outer))%nat
          with 1%nat by lia.
        by exists c.
    + destruct (decide (k < length outer)%nat) as [Hlt|Hge].
      * rewrite lookup_app_l by lia.
        rewrite (lookup_app_l (rev outer.*1)) by lia. by apply IHo.
      * assert (k = length outer) as -> by lia.
        rewrite lookup_app_r by lia.
        replace (2 * length outer + 1 - length (tuple_of c0 outer))%nat
          with 0%nat by lia.
        rewrite lookup_app_r by lia.
        by replace (length outer - length (rev outer.*1))%nat with 0%nat by lia.
Qed.

Lemma captured_at_occurs ign items stack target s :
  captured_at ign items stack target s -> occurs_in target items = true.
Proof.
  intros (pre & item & post & _ & _ & -> & Hid & _).
  unfold occurs_in. apply existsb_exists. exists item. split.
  - apply in_or_app. right. by left.
  - by apply bool_decide_eq_true.
Qed.

Lemma captured_at_insn_id ign items stack target s :
  captured_at ign items stack target s -> insn_id s = target.
Proof. by intros (? & ? & ? & ? & ? & _ & _ & ? & _). Qed.

Lemma captured_at_shape ign items target s :
  captured_at ign items [] target s -> captured_shape ign items target s.
Proof.
  intros (pre & item & post & c0 & frames & -> & Hid & _ & Hlex & Hfr & H0 & HF).
  exists pre, item, post. split; [done|]. split; [done|].
  cbv zeta. rewrite <- Hfr, Hlex, length_rev, length_fmap.
  destruct (tuple_of_lookup c0 frames H0 HF) as [He Ho].
  split; [|done]. rewrite length_tuple_of. lia.
Qed.

(** ** The constructor *)

(** What the constructor returns, in terms of the state after the loop. *)
Lemma PairwiseScheduleBuilder_init_Ok lin b a ign st sb sa :
  for_loop b a ign lin initial_state = Ok st ->
  self_before st = Some sb -> self_after st = Some sa ->
  PairwiseScheduleBuilder_init lin b a ign =
  Ok (mkBuilder
        (_pad_lex_tuple_with_zeros sb
           (Z.max (Z.of_nat (length (lex_points sb)))
                  (Z.of_nat (length (lex_points sa)))))
        (_pad_lex_tuple_with_zeros sa
           (Z.max (Z.of_nat (length (lex_points sb)))
                  (Z.of_nat (length (lex_points sa)))))).
Proof.
  intros Hloop Hb Ha. unfold PairwiseScheduleBuilder_init.
  rewrite Hloop. simpl. by rewrite Hb, Ha.
Qed.

(** A constructed builder comes from a loop that captured both sets. *)
Lemma PairwiseScheduleBuilder_init_inv lin b a ign self :
  PairwiseScheduleBuilder_init lin b a ign = Ok self ->
  exists st sb sa,
    for_loop b a ign lin initial_state = Ok st /\
    self_before st = Some sb /\ self_after st = Some sa /\
    insn_id (stmt_instance_set_before self) = insn_id sb /\
    insn_id (stmt_instance_set_after self) = insn_id sa.
Proof.
  unfold PairwiseScheduleBuilder_init.
  destruct (for_loop b a ign lin initial_state) as [st|e]; simpl; [|done].
  destruct (self_before st) as [sb|] eqn:Hb, (self_after st) as [sa|] eqn:Ha;
    simpl; try done.
  intros [= <-]. exists st, sb, sa. by repeat split.
Qed.

(** The constructor returns when both ids occur and the walk never pops
    its initial frame. *)
Lemma PairwiseScheduleBuilder_init_total lin b a ign :
  occurs_in b lin = true -> occurs_in a lin = true ->
  keeps_initial_frame ign lin 0 = true ->
  exists self, PairwiseScheduleBuilder_init lin b a ign = Ok self.
Proof.
  intros Hb Ha Hk.
  destruct (for_loop_total b a ign lin [] initial_state
              initial_state_shaped Hk) as [st Hloop].
  destruct (for_loop_captures b a ign lin _ _ Hloop) as [Hcb Hca].
  destruct (Hcb (or_introl Hb)) as [raw_b Hrb].
  destruct (Hca (or_introl Ha)) as [raw_a Hra].
  eexists. by apply (PairwiseScheduleBuilder_init_Ok _ _ _ _ _ _ _ Hloop Hrb Hra).
Qed.

(** C2. When both statement ids occur in the linearization, the
    constructor returns (provided the walk never pops its initial frame),
    and whenever it returns, the lex tuples of its two sets have the same
    length: each is the tuple the walk captured, followed by integer zeros
    up to the length of the longer one, so the longer is unchanged and the
    shorter is a prefix of its padded form. *)
Theorem padding_law lin b a ign :
  occurs_in b lin = true -> occurs_in a lin = true ->
  (keeps_initial_frame ign lin 0 = true ->
   exists self, PairwiseScheduleBuilder_init lin b a ign = Ok self) /\
  (forall self,
     PairwiseScheduleBuilder_init lin b a ign = Ok self ->
     exists st raw_b raw_a,
       for_loop b a ign lin initial_state = Ok st /\
       self_before st = Some raw_b /\ self_after st = Some raw_a /\
       length (lex_points (stmt_instance_set_before self)) =
         length (lex_points (stmt_instance_set_after self)) /\
       length (lex_points (stmt_instance_set_before self)) =
         Nat.max (length (lex_points raw_b)) (length (lex_points raw_a)) /\
       lex_points (stmt_instance_set_before self) =
         lex_points raw_b ++
         replicate (length (lex_points raw_a) - length (lex_points raw_b))
                   (LexInt 0) /\
       lex_points (stmt_instance_set_after self) =
         lex_points raw_a ++
         replicate (length (lex_points raw_b) - length (lex_points raw_a))
                   (LexInt 0) /\
       insn_id (stmt_instance_set_before self) = insn_id raw_b /\
       insn_id (stmt_instance_set_after self) = insn_id raw_a).
Proof.
  intros Hb Ha. split; [by apply PairwiseScheduleBuilder_init_total|].
  intros self Hinit.
  destruct (PairwiseScheduleBuilder_init_inv _ _ _ _ _ Hinit)
    as (st & raw_b & raw_a & Hloop & Hrb & Hra & _).
  rewrite (PairwiseScheduleBuilder_init_Ok _ _ _ _ _ _ _ Hloop Hrb Hra) in Hinit.
  injection Hinit as <-.
  exists st, raw_b, raw_a. repeat split; try done; simpl.
  - rewrite !length_app, !length_replicate. lia.
  - rewrite length_app, length_replicate. lia.
  - do 2 f_equal. lia.
  - do 2 f_equal. lia.
Qed.

Lemma padding_law_witness :
  occurs_in "Sa" scenario_A = true /\ occurs_in "Sd" scenario_A = true /\
  (keeps_initial_frame ∅ scenario_A 0 = true ->
   exists self, PairwiseScheduleBuilder_init scenario_A "Sa" "Sd" ∅ = Ok self) /\
  (forall self,
     PairwiseScheduleBuilder_init scenario_A "Sa" "Sd" ∅ = Ok self ->
     exists st raw_b raw_a,
       for_loop "Sa" "Sd" ∅ scenario_A initial_state = Ok st /\
       self_before st = Some raw_b /\ self_after st = Some raw_a /\
       length (lex_points (stmt_instance_set_before self)) =
         length (lex_points (stmt_instance_set_after self)) /\
       length (lex_points (stmt_instance_set_before self)) =
         Nat.max (length (lex_points raw_b)) (length (lex_points raw_a)) /\
       lex_points (stmt_instance_set_before self) =
         lex_points raw_b ++
         replicate (length (lex_points raw_a) - length (lex_points raw_b))
                   (LexInt 0) /\
       lex_points (stmt_instance_set_after self) =
         lex_points raw_a ++
         replicate (length (lex_points raw_b) - length (lex_points raw_a))
                   (LexInt 0) /\
       insn_id (stmt_instance_set_before self) = insn_id raw_b /\
       insn_id (stmt_instance_set_after self) = insn_id raw_a).
Proof.
  split; [vm_compute; reflexivity|].
  split; [vm_compute; reflexivity|].
  apply (padding_law scenario_A "Sa" "Sd" ∅); vm_compute; reflexivity.
Defined.

(** The ids of a constructed builder are the two requested ids. *)
Lemma PairwiseScheduleBuilder_init_ids lin b a ign self :
  PairwiseScheduleBuilder_init lin b a ign = Ok self ->
  insn_id (stmt_instance_set_before self) = b /\
  insn_id (stmt_instance_set_after self) = a.
Proof.
  intros (st & sb & sa & Hloop & Hb & Ha & -> & ->)%PairwiseScheduleBuilder_init_inv.
  destruct (for_loop_captured b a ign lin [] _ _ initial_state_shaped Hloop)
    as [Hcb Hca].
  destruct (Hcb _ Hb) as [?|Hb']; [done|].
  destruct (Hca _ Ha) as [?|Ha']; [done|].
  split; by eapply captured_at_insn_id.
Qed.

(** C3. In the pair of maps built for a constructed pair, the
    which-statement coordinate is 0 for the before statement and 1 for the
    after statement, and 0 for both when the two requested ids are
    equal. *)
Theorem self_pair_law lin b a ign self knl :
  PairwiseScheduleBuilder_init lin b a ign = Ok self ->
  int_sids self = (0, if bool_decide (b = a) then 0 else 1) /\
  map_int_sid (build_maps self knl).1 = 0 /\
  map_int_sid (build_maps self knl).2 = (if bool_decide (b = a) then 0 else 1).
Proof.
  intros [Hb Ha]%PairwiseScheduleBuilder_init_ids.
  unfold build_maps, int_sids. rewrite Hb, Ha. done.
Qed.

Lemma self_pair_law_witness :
  let self := mkBuilder (mkSIS "Sb" [LexInt 0; LexIname "i"; LexInt 0;
                                     LexIname "j"; LexInt 0])
                        (mkSIS "Sb" [LexInt 0; LexIname "i"; LexInt 0;
                                     LexIname "j"; LexInt 0]) in
  let knl := scenario_A_kernel 4 4 4 4 in
  PairwiseScheduleBuilder_init scenario_A "Sb" "Sb" ∅ = Ok self /\
  int_sids self = (0, if bool_decide ("Sb" = "Sb") then 0 else 1) /\
  map_int_sid (build_maps self knl).1 = 0 /\
  map_int_sid (build_maps self knl).2 =
    (if bool_decide ("Sb" = "Sb") then 0 else 1).
Proof.
  split; [vm_compute; reflexivity|].
  apply (self_pair_law scenario_A "Sb" "Sb" ∅). vm_compute. reflexivity.
Defined.

(** C5 (as amended). When the before id or the after id is the usable id
    of no item of the linearization, the constructor returns nothing: it
    raises. The exception is the [AttributeError] of reading [lex_points]
    of a set that is still [None] (or, when the walk pops its initial
    frame first, the [IndexError] of that pop). *)
Theorem missing_statement_raises lin b a ign :
  occurs_in b lin = false \/ occurs_in a lin = false ->
  exists e,
    PairwiseScheduleBuilder_init lin b a ign = Raise e /\
    (e = AttributeError_NoneType "lex_points" \/
     e = IndexError_pop_from_empty_list) /\
    (keeps_initial_frame ign lin 0 = true ->
     e = AttributeError_NoneType "lex_points").
Proof.
  intros Hmiss. unfold PairwiseScheduleBuilder_init.
  destruct (for_loop b a ign lin initial_state) as [st|e] eqn:Hloop; simpl.
  - destruct (for_loop_captured b a ign lin [] _ _ initial_state_shaped Hloop)
      as [Hcb Hca].
    exists (AttributeError_NoneType "lex_points").
    destruct (self_before st) as [sb|] eqn:Hb; simpl.
    + destruct (Hcb _ eq_refl) as [?|Hb']; [done|].
      apply captured_at_occurs in Hb'.
      destruct (self_after st) as [sa|] eqn:Ha; simpl.
      * destruct (Hca _ eq_refl) as [?|Ha']; [done|].
        apply captured_at_occurs in Ha'.
        destruct Hmiss; congruence.
      * split; [done|]. split; [by left|done].
    + split; [done|]. split; [by left|done].
  - exists e. split; [done|].
    pose proof (for_loop_raises b a ign lin [] _ _ initial_state_shaped Hloop)
      as ->.
    split; [by right|]. intros Hk.
    destruct (for_loop_total b a ign lin [] _ initial_state_shaped Hk) as [st Hst].
    congruence.
Qed.

Lemma missing_statement_raises_witness :
  (occurs_in "Sa" scenario_A = false \/ occurs_in "Sz" scenario_A = false) /\
  exists e,
    PairwiseScheduleBuilder_init scenario_A "Sa" "Sz" ∅ = Raise e /\
    (e = AttributeError_NoneType "lex_points" \/
     e = IndexError_pop_from_empty_list) /\
    (keeps_initial_frame ∅ scenario_A 0 = true ->
     e = AttributeError_NoneType "lex_points").
Proof.
  split; [right; vm_compute; reflexivity|].
  apply (missing_statement_raises scenario_A "Sa" "Sz" ∅).
  right. vm_compute. reflexivity.
Defined.

(** C5 as stated fails: for Scenario A and the pair (Sa, Sz), where Sz
    occurs nowhere, the exception raised does not name the missing id. *)
Lemma missing_statement_message_not_identifying :
  occurs_in "Sz" scenario_A = false /\
  ~ (exists e, PairwiseScheduleBuilder_init scenario_A "Sa" "Sz" ∅ = Raise e /\
               identifies e "Sz" = true).
Proof.
  split; [vm_compute; reflexivity|].
  intros (e & He & Hid). vm_compute in He. injection He as <-.
  vm_compute in Hid. discriminate.
Qed.

(** C6. Once both statements are captured, at the end of a prefix [P] of
    the linearization, nothing after [P] is looked at: the loop and the
    constructor give on [P ++ S] what they give on [P]. *)
Theorem early_exit P S b a ign st :
  for_loop b a ign P initial_state = Ok st ->
  both_created st = true ->
  for_loop b a ign (P ++ S) initial_state = Ok st /\
  PairwiseScheduleBuilder_init (P ++ S) b a ign =
  PairwiseScheduleBuilder_init P b a ign.
Proof.
  intros Hloop Hboth.
  assert (for_loop b a ign (P ++ S) initial_state = Ok st) as Hloop'
    by by apply for_loop_early_exit.
  split; [done|]. unfold PairwiseScheduleBuilder_init. by rewrite Hloop, Hloop'.
Qed.

Lemma early_exit_witness :
  let P := take 7 scenario_A in
  let S := drop 7 scenario_A in
  let st := mkWalk [LexInt 0; LexIname "i"; LexInt 0; LexIname "j"; LexInt 2]
              [true; true; true]
              (Some (mkSIS "Sb" [LexInt 0; LexIname "i"; LexInt 0;
                                 LexIname "j"; LexInt 0]))
              (Some (mkSIS "Sc" [LexInt 0; LexIname "i"; LexInt 0;
                                 LexIname "j"; LexInt 1])) in
  for_loop "Sb" "Sc" ∅ P initial_state = Ok st /\
  both_created st = true /\
  for_loop "Sb" "Sc" ∅ (P ++ S) initial_state = Ok st /\
  PairwiseScheduleBuilder_init (P ++ S) "Sb" "Sc" ∅ =
  PairwiseScheduleBuilder_init P "Sb" "Sc" ∅.
Proof.
  split; [vm_compute; reflexivity|].
  split; [vm_compute; reflexivity|].
  apply (early_exit (take 7 scenario_A) (drop 7 scenario_A) "Sb" "Sc" ∅);
    vm_compute; reflexivity.
Defined.

(** C7. A barrier with no originating statement id is skipped: the
    iteration leaves the whole state as it is (lex tuple, flags and both
    captured sets) and goes on to the next item, so that at any position
    of a linearization the walk is the same with the barrier as without. *)
Theorem barrier_without_id_skipped b a ign comment sync_kind mem_kind :
  (forall st,
     loop_body b a ign (Barrier comment sync_kind mem_kind None) st =
     Ok (st, Continued)) /\
  (forall pre post st,
     for_loop b a ign (pre ++ Barrier comment sync_kind mem_kind None :: post) st =
     for_loop b a ign (pre ++ post) st).
Proof.
  split; [done|].
  intros pre post. induction pre as [|item pre IH]; intros st; [done|].
  simpl. destruct (loop_body b a ign item st) as [[st' flow]|e]; simpl; [|done].
  destruct flow; [destruct (both_created st'); [done|]|]; apply IH.
Qed.

(** C8. On a well-nested linearization the loop returns, and at the end
    of every iteration (so also in the state it returns) a captured set
    was taken at an item carrying its id, with a lex tuple of odd length
    [2 d + 1] for the [d] loops open there: its even entries are integer
    counters that are not negative, its odd entries the symbols of these
    loops, outermost first; and the list of flags has length
    [(len(next_insn_lex_tuple) + 1) / 2]. *)
Theorem lex_tuple_shape lin b a ign :
  well_nested ign lin [] = true ->
  exists st,
    for_loop b a ign lin initial_state = Ok st /\
    last (initial_state :: for_loop_trace b a ign lin initial_state) = Some st /\
    Forall (fun st' =>
              (forall s, self_before st' = Some s -> captured_shape ign lin b s) /\
              (forall s, self_after st' = Some s -> captured_shape ign lin a s) /\
              length (stmt_added_since_prev_block_at_tier st') =
              ((length (next_insn_lex_tuple st') + 1) / 2)%nat)
           (initial_state :: for_loop_trace b a ign lin initial_state).
Proof.
  intros Hwn.
  pose proof (well_nested_keeps_initial_frame ign lin [] Hwn) as Hk.
  destruct (for_loop_total b a ign lin [] initial_state
              initial_state_shaped Hk) as [st Hloop].
  exists st. split; [done|]. split; [by apply for_loop_trace_last|].
  constructor; [by repeat split|].
  pose proof (for_loop_trace_shaped b a ign lin [] _ initial_state_shaped) as Hsh.
  pose proof (for_loop_trace_captured b a ign lin [] _ initial_state_shaped)
    as Hcap.
  eapply Forall_impl; [apply Forall_and; split; [exact Hsh|exact Hcap]|].
  intros st' [(stk & c0 & frames & Htup & <- & _ & _ & Hfl) [Hcb Hca]].
  split; [|split].
  - intros s Hs. destruct (Hcb s Hs) as [?|?]; [done|by apply captured_at_shape].
  - intros s Hs. destruct (Hca s Hs) as [?|?]; [done|by apply captured_at_shape].
  - rewrite Hfl, Htup, length_tuple_of, length_fmap.
    replace (S (2 * length frames) + 1)%nat with (S (length frames) * 2)%nat by lia.
    by rewrite Nat.div_mul.
Qed.

Lemma lex_tuple_shape_witness :
  well_nested ∅ scenario_A [] = true /\
  exists st,
    for_loop "Sb" "Sc" ∅ scenario_A initial_state = Ok st /\
    last (initial_state :: for_loop_trace "Sb" "Sc" ∅ scenario_A initial_state)
      = Some st /\
    Forall (fun st' =>
              (forall s, self_before st' = Some s ->
                 captured_shape ∅ scenario_A "Sb" s) /\
              (forall s, self_after st' = Some s ->
                 captured_shape ∅ scenario_A "Sc" s) /\
              length (stmt_added_since_prev_block_at_tier st') =
              ((length (next_insn_lex_tuple st') + 1) / 2)%nat)
           (initial_state :: for_loop_trace "Sb" "Sc" ∅ scenario_A initial_state).
Proof.
  split; [vm_compute; reflexivity|].
  apply (lex_tuple_shape scenario_A "Sb" "Sc" ∅). vm_compute. reflexivity.
Defined.

(** ** The lexicographic order map *)

Lemma holds_CoordEq A B i :
  holds A B (CoordEq i) = true <->
  exists x, A !! i = Some x /\ B !! i = Some x.
Proof.
  simpl. destruct (A !! i) as [x|], (B !! i) as [y|]; split;
    try (by intros (? & ? & ?)); try done.
  - intros ->%bool_decide_eq_true. by exists y.
  - intros (z & [= ->] & [= ->]). by apply bool_decide_eq_true.
Qed.

Lemma holds_CoordLt A B i :
  holds A B (CoordLt i) = true <->
  exists x y, A !! i = Some x /\ B !! i = Some y /\ x < y.
Proof.
  simpl. destruct (A !! i) as [x|], (B !! i) as [y|]; split;
    try (by intros (? & ? & ? & ? & ?)); try done.
  - intros ?%bool_decide_eq_true. by exists x, y.
  - intros (x' & y' & [= ->] & [= ->] & ?). by apply bool_decide_eq_true.
Qed.

Lemma lex_order_disjunct_holds A B k :
  forallb (holds A B) (lex_order_disjunct k) = true <->
  (forall i : nat, (i < k)%nat -> exists x, A !! i = Some x /\ B !! i = Some x) /\
  (exists x y, A !! k = Some x /\ B !! k = Some y /\ x < y).
Proof.
  unfold lex_order_disjunct. rewrite forallb_app, andb_true_iff.
  cbn [forallb]. rewrite andb_true_r, holds_CoordLt, forallb_forall.
  split; intros [Heq Hlt]; (split; [|done]).
  - intros i Hi. apply holds_CoordEq, Heq, in_map, in_seq. lia.
  - intros c (i & <- & [_ Hi]%in_seq)%in_map_iff. apply holds_CoordEq, Heq. lia.
Qed.

(** Membership in the map, disjunct by disjunct. *)
Lemma in_lex_order_map_iff n A B :
  in_lex_order_map n A B = true <->
  length A = n /\ length B = n /\
  exists k : nat, (k < n)%nat /\
    (forall i : nat, (i < k)%nat -> A !! i = B !! i) /\
    (exists x y, A !! k = Some x /\ B !! k = Some y /\ x < y).
Proof.
  unfold in_lex_order_map, create_lex_order_map.
  rewrite !andb_true_iff, !bool_decide_eq_true, existsb_exists.
  split.
  - intros [[HA HB] (d & (k & <- & [_ Hk]%in_seq)%in_map_iff & Hd)].
    apply lex_order_disjunct_holds in Hd as [Heq Hlt].
    repeat split; try done. exists k. split; [lia|]. split; [|done].
    intros i Hi. destruct (Heq i Hi) as (x & -> & ->). done.
  - intros (HA & HB & k & Hk & Heq & Hlt). split; [done|].
    exists (lex_order_disjunct k). split.
    + apply in_map, in_seq. lia.
    + apply lex_order_disjunct_holds. split; [|done].
      intros i Hi. destruct (lookup_lt_is_Some_2 A i) as [x Hx]; [lia|].
      exists x. split; [done|]. by rewrite <- Heq.
Qed.

(** The map is the dictionary order on tuples of its arity. *)
Lemma in_lex_order_map_lex_lt A B :
  length A = length B ->
  in_lex_order_map (length A) A B = true <-> lex_lt A B.
Proof.
  rewrite in_lex_order_map_iff. revert B.
  induction A as [|x A IH]; intros [|y B] Hlen; simpl in *; try done.
  { split; [intros (_ & _ & k & ? & _)|done]. lia. }
  injection Hlen as Hlen. specialize (IH B Hlen). split.
  - intros (_ & _ & k & Hk & Heq & x' & y' & Hx & Hy & Hlt).
    destruct k as [|k]; simpl in *; [left; congruence|].
    right. split.
    + specialize (Heq 0%nat ltac:(lia)). simpl in Heq. congruence.
    + apply IH. repeat split; try done. exists k. split; [lia|].
      split; [|by exists x', y'].
      intros i Hi. apply (Heq (S i)). lia.
  - intros [Hlt|[-> Hrec]].
    + repeat split; try congruence. exists 0%nat.
      split; [lia|]. split; [intros; lia|]. by exists x, y.
    + apply IH in Hrec as (_ & _ & k & Hk & Heq & Hlt).
      repeat split; try congruence. exists (S k).
      split; [lia|]. split; [|done].
      intros [|i] Hi; simpl; [done|]. apply Heq. lia.
Qed.

(** C4. For an arity [n >= 1] the lex order map relates [A] to [B] iff
    for some prefix length [k < n] they agree on the coordinates before
    [k] and [A[k] < B[k]]; it is the union of exactly [n] disjuncts, the
    [k]-th made of [k] equalities and one strict inequality; and for
    [n = 1] it is the order of the integers. *)
Theorem lex_relation_law (n : nat) :
  (1 <= n)%nat ->
  (forall A B : list Z, length A = n -> length B = n ->
     in_lex_order_map n A B = true <->
     exists k : nat, (k < n)%nat /\
       (forall i : nat, (i < k)%nat -> A !! i = B !! i) /\
       (exists x y, A !! k = Some x /\ B !! k = Some y /\ x < y)) /\
  length (create_lex_order_map n) = n /\
  (forall k : nat, (k < n)%nat ->
     create_lex_order_map n !! k =
     Some ((CoordEq <$> seq 0 k) ++ [CoordLt k])) /\
  (forall x y : Z, in_lex_order_map 1 [x] [y] = true <-> x < y).
Proof.
  intros Hn. split; [|split; [|split]].
  - intros A B HA HB. rewrite in_lex_order_map_iff. tauto.
  - unfold create_lex_order_map. by rewrite length_fmap, length_seq.
  - intros k Hk. unfold create_lex_order_map.
    rewrite list_lookup_fmap, lookup_seq_lt by done. done.
  - intros x y. rewrite (in_lex_order_map_lex_lt [x] [y] eq_refl).
    simpl. tauto.
Qed.

Lemma lex_relation_law_witness :
  (1 <= 5)%nat /\
  (forall A B : list Z, length A = 5%nat -> length B = 5%nat ->
     in_lex_order_map 5 A B = true <->
     exists k : nat, (k < 5)%nat /\
       (forall i : nat, (i < k)%nat -> A !! i = B !! i) /\
       (exists x y, A !! k = Some x /\ B !! k = Some y /\ x < y)) /\
  length (create_lex_order_map 5) = 5%nat /\
  (forall k : nat, (k < 5)%nat ->
     create_lex_order_map 5 !! k =
     Some ((CoordEq <$> seq 0 k) ++ [CoordLt k])) /\
  (forall x y : Z, in_lex_order_map 1 [x] [y] = true <-> x < y).
Proof.
  split; [lia|]. apply (lex_relation_law 5). lia.
Defined.

(** ** Scenario A *)

Example scenario_A_Sb_Sc :
  PairwiseScheduleBuilder_init scenario_A "Sb" "Sc" ∅ =
  Ok (mkBuilder
        (mkSIS "Sb" [LexInt 0; LexIname "i"; LexInt 0; LexIname "j"; LexInt 0])
        (mkSIS "Sc" [LexInt 0; LexIname "i"; LexInt 0; LexIname "j"; LexInt 1])).
Proof. vm_compute. reflexivity. Qed.

Example scenario_A_Sa_Sd :
  PairwiseScheduleBuilder_init scenario_A "Sa" "Sd" ∅ =
  Ok (mkBuilder
        (mkSIS "Sa" [LexInt 0; LexIname "i"; LexInt 0; LexIname "k"; LexInt 0])
        (mkSIS "Sd" [LexInt 1; LexIname "t"; LexInt 0; LexInt 0; LexInt 0])).
Proof. vm_compute. reflexivity. Qed.

(** The instances of a statement in [i, j] that a map sends somewhere. *)
Lemma sched_map_image_ij sid pi pj lex inst p :
  sched_map_image (mkSchedMap sid (mkDomain ["i"; "j"] (box [pi; pj])) lex)
    inst = Some p <->
  exists i j, inst = [sid; i; j] /\ 0 <= i < pi /\ 0 <= j < pj /\
    mapM (lex_val_at ["i"; "j"] [i; j]) lex = Some p.
Proof.
  unfold sched_map_image. simpl. split.
  - destruct inst as [|s vals]; [done|].
    case_bool_decide as Hs; simpl; [|done]. subst s.
    case_bool_decide as Hl; simpl; [|done].
    destruct vals as [|i [|j [|? ?]]]; try done.
    unfold box. simpl. repeat case_bool_decide; simpl; try done.
    intros Hp. by exists i, j.
  - intros (i & j & -> & Hi & Hj & Hp). unfold box. simpl.
    by rewrite !bool_decide_true by done.
Qed.

(** C1. For Scenario A, with no loop ignored and the domains
    [0 <= i < pi], [0 <= j < pj], the sequential statement instance
    ordering of the pair (Sb, Sc) relates [(i', j')] to [(i, j)], both in
    the domain, exactly when [i > i'], or [i = i'] and [j >= j']. *)
Theorem scenario_A_sio_Sb_Sc :
  exists self,
    PairwiseScheduleBuilder_init scenario_A "Sb" "Sc" ∅ = Ok self /\
    forall (pi pk pj pt : Z) (inst_before inst_after : list Z),
      statement_instance_ordering self (scenario_A_kernel pi pk pj pt)
        inst_before inst_after <->
      exists i' j' i j,
        inst_before = [0; i'; j'] /\ inst_after = [1; i; j] /\
        0 <= i' < pi /\ 0 <= j' < pj /\ 0 <= i < pi /\ 0 <= j < pj /\
        (i > i' \/ (i = i' /\ j >= j')).
Proof.
  eexists. split; [apply scenario_A_Sb_Sc|].
  intros pi pk pj pt inst_before inst_after.
  unfold statement_instance_ordering, build_maps, int_sids, max_lex_dims.
  cbn [stmt_instance_set_before stmt_instance_set_after insn_id lex_points
       scenario_A_kernel get_inames_domain].
  rewrite !bool_decide_false by done.
  change (Z.to_nat _) with 5%nat.
  split.
  - intros (p & q & Hp & Hq & Hlex).
    apply sched_map_image_ij in Hp as (i' & j' & -> & Hi' & Hj' & Hp).
    apply sched_map_image_ij in Hq as (i & j & -> & Hi & Hj & Hq).
    injection Hp as <-. injection Hq as <-.
    apply (in_lex_order_map_lex_lt [0; i'; 0; j'; 0] [0; i; 0; j; 1] eq_refl)
      in Hlex.
    simpl in Hlex. exists i', j', i, j. repeat split; try lia.
  - intros (i' & j' & i & j & -> & -> & Hi' & Hj' & Hi & Hj & Hord).
    exists [0; i'; 0; j'; 0], [0; i; 0; j; 1].
    split; [apply sched_map_image_ij; by exists i', j'|].
    split; [apply sched_map_image_ij; by exists i, j|].
    apply (in_lex_order_map_lex_lt [0; i'; 0; j'; 0] [0; i; 0; j; 1] eq_refl).
    simpl. lia.
Qed.

(** ** The instruction-block homogenizer *)

Section HomogenizerFacts.

Context {Expression : Type} `{Countable Expression}.
Variable kernel : Tree.LoopKernel Expression.

Local Abbreviation known r :=
  (is_Some (Tree.id_to_insn kernel !! Tree.insn_id r)).

(** What the homogenizer compares: the inames and the predicates. *)
Local Abbreviation key r :=
  ((fun insn => (Tree.within_inames insn, Tree.predicates insn)) <$>
   Tree.id_to_insn kernel !! Tree.insn_id r).

Lemma homogeneous_key block :
  Tree.homogeneous kernel block <->
  forall r1 r2, r1 ∈ block -> r2 ∈ block -> known r1 /\ key r1 = key r2.
Proof.
  unfold Tree.homogeneous. split; intros Hh r1 r2 H1 H2.
  - destruct (Hh r1 r2 H1 H2) as (i1 & i2 & -> & -> & Hw & Hp).
    split; [done|]. simpl. by rewrite Hw, Hp.
  - destruct (Hh r1 r2 H1 H2) as [[i1 E1] Hk].
    destruct (Hh r2 r1 H2 H1) as [[i2 E2] _].
    rewrite E1, E2 in Hk. simpl in Hk.
    exists i1, i2. repeat split; congruence.
Qed.

Lemma _are_insns_similar_spec r1 r2 :
  known r1 -> known r2 ->
  Tree._are_insns_similar kernel (Tree.insn_id r1) (Tree.insn_id r2) =
  Ok (bool_decide (key r1 = key r2)).
Proof.
  intros [i1 E1] [i2 E2].
  unfold Tree._are_insns_similar, Tree.lookup_insn. rewrite E1, E2. simpl.
  f_equal. repeat case_bool_decide; simplify_eq/=; try done; congruence.
Qed.

Lemma block_loop_body_snoc run_insn insn_blocks l x :
  Tree.block_loop_body kernel run_insn (insn_blocks, l ++ [x]) =
  similar ← Tree._are_insns_similar kernel (Tree.insn_id x)
              (Tree.insn_id run_insn);
  if (similar : bool)
  then Ok (insn_blocks, (l ++ [x]) ++ [run_insn])
  else Ok (insn_blocks ++ [l ++ [x]], [run_insn]).
Proof.
  unfold Tree.block_loop_body.
  destruct (l ++ [x]) as [|y l'] eqn:E; [by destruct l|].
  rewrite <- E, py_last_snoc. done.
Qed.

Lemma homogeneous_nil : Tree.homogeneous kernel [].
Proof. intros r1 r2 H1. by apply elem_of_nil in H1. Qed.

Lemma homogeneous_singleton r : known r -> Tree.homogeneous kernel [r].
Proof.
  intros Hr. apply homogeneous_key.
  by intros r1 r2 ->%list_elem_of_singleton ->%list_elem_of_singleton.
Qed.

Lemma homogeneous_snoc l x r :
  Tree.homogeneous kernel (l ++ [x]) -> known r -> key x = key r ->
  Tree.homogeneous kernel ((l ++ [x]) ++ [r]).
Proof.
  rewrite !homogeneous_key. intros Hh Hr Hxr.
  assert (x ∈ l ++ [x]) as Hx by (apply elem_of_app; right; by left).
  assert (forall r', r' ∈ (l ++ [x]) ++ [r] -> known r' /\ key r' = key x)
    as Hall.
  { intros r' [Hin| ->%list_elem_of_singleton]%elem_of_app.
    - by apply Hh.
    - done. }
  intros r1 r2 H1 H2.
  destruct (Hall r1 H1) as [? E1], (Hall r2 H2) as [? E2].
  split; [done|]. congruence.
Qed.

(** The loop of [map_instruction_block] keeps the instructions in order
    and closes only homogeneous blocks. *)
Lemma block_loop_spec children insn_blocks similar_run_insns :
  (forall r, r ∈ children -> known r) ->
  Forall (Tree.homogeneous kernel) insn_blocks ->
  Tree.homogeneous kernel similar_run_insns ->
  exists insn_blocks' similar_run_insns',
    Tree.block_loop kernel children (insn_blocks, similar_run_insns) =
      Ok (insn_blocks', similar_run_insns') /\
    concat insn_blocks' ++ similar_run_insns' =
      concat insn_blocks ++ similar_run_insns ++ children /\
    Forall (Tree.homogeneous kernel) insn_blocks' /\
    Tree.homogeneous kernel similar_run_insns'.
Proof.
  revert insn_blocks similar_run_insns.
  induction children as [|run_insn rest IH];
    intros insn_blocks similar Hknown Hblocks Hsim.
  { exists insn_blocks, similar. by rewrite app_nil_r. }
  assert (known run_insn) as Hrun by (apply Hknown; by left).
  assert (forall r, r ∈ rest -> known r) as Hrest
    by (intros r Hr; apply Hknown; by right).
  cbn [Tree.block_loop].
  destruct (decide (similar = [])) as [->|Hne].
  - simpl.
    destruct (IH insn_blocks [run_insn] Hrest Hblocks
                (homogeneous_singleton _ Hrun))
      as (b' & s' & -> & Hcat & Hb' & Hs').
    exists b', s'. by repeat split.
  - destruct (exists_last Hne) as (l & x & ->).
    rewrite block_loop_body_snoc.
    assert (known x) as Hx.
    { pose proof (proj1 (homogeneous_key _) Hsim) as Hsim'.
      apply (Hsim' x x); apply elem_of_app; right; by left. }
    rewrite (_are_insns_similar_spec x run_insn Hx Hrun). simpl.
    case_bool_decide as Hkey; cbn [mbind result_bind].
    + destruct (IH insn_blocks ((l ++ [x]) ++ [run_insn]) Hrest Hblocks
                  (homogeneous_snoc _ _ _ Hsim Hrun Hkey))
        as (b' & s' & -> & Hcat & Hb' & Hs').
      exists b', s'. repeat split; try done.
      rewrite Hcat. by rewrite <- !(assoc_L (++)).
    + destruct (IH (insn_blocks ++ [l ++ [x]]) [run_insn] Hrest
                  ltac:(apply Forall_app; split; [done|by constructor])
                  (homogeneous_singleton _ Hrun))
        as (b' & s' & -> & Hcat & Hb' & Hs').
      exists b', s'. repeat split; try done.
      rewrite Hcat, concat_app. simpl.
      by rewrite app_nil_r, <- !(assoc_L (++)).
Qed.

(** [map_instruction_block] returns blocks that concatenate to the children
    and are homogeneous. *)
Lemma map_instruction_block_spec children :
  (forall r, r ∈ children -> known r) ->
  exists blocks,
    Tree.map_instruction_block kernel children = Ok blocks /\
    concat blocks = children /\
    Forall (Tree.homogeneous kernel) blocks.
Proof.
  intros Hknown.
  destruct (block_loop_spec children [] [] Hknown (Forall_nil_2 _)
              homogeneous_nil)
    as (b' & s' & Hloop & Hcat & Hb' & Hs').
  exists (b' ++ [s']). split; [|split].
  - unfold Tree.map_instruction_block. by rewrite Hloop.
  - rewrite concat_app. simpl. by rewrite app_nil_r, Hcat.
  - apply Forall_app. split; [done|by constructor].
Qed.

(** C10. Of an instruction block whose instructions the kernel knows,
    the homogenizer makes a sequence of instruction blocks, spliced in
    its place, whose children concatenated in order are the children of
    the block, and in each of which any two instructions have the same
    [within_inames] and the same [predicates]. *)
Theorem homogenize_block children :
  (forall r, r ∈ children -> known r) ->
  exists blocks,
    Tree.map_instruction_block kernel children = Ok blocks /\
    Tree.homogenize_instruction_blocks kernel
      (Tree.InstructionBlock children) =
      Ok (Tree.GroupedChildren (Tree.InstructionBlock <$> blocks)) /\
    concat blocks = children /\
    Forall (Tree.homogeneous kernel) blocks.
Proof.
  intros Hknown.
  destruct (map_instruction_block_spec children Hknown)
    as (blocks & Hmap & Hcat & Hhom).
  exists blocks. split; [done|]. split; [|done].
  unfold Tree.homogenize_instruction_blocks. simpl. by rewrite Hmap.
Qed.

End HomogenizerFacts.

Example homogenize_three :
  Tree.map_instruction_block three_insn_kernel three_insn_block =
  Ok [[Tree.mkRunInstruction "a"; Tree.mkRunInstruction "b"];
      [Tree.mkRunInstruction "c"]].
Proof. vm_compute. reflexivity. Qed.

Lemma homogenize_block_witness :
  (forall r, r ∈ three_insn_block ->
     is_Some (Tree.id_to_insn three_insn_kernel !! Tree.insn_id r)) /\
  exists blocks,
    Tree.map_instruction_block three_insn_kernel three_insn_block = Ok blocks /\
    Tree.homogenize_instruction_blocks three_insn_kernel
      (Tree.InstructionBlock three_insn_block) =
      Ok (Tree.GroupedChildren (Tree.InstructionBlock <$> blocks)) /\
    concat blocks = three_insn_block /\
    Forall (Tree.homogeneous three_insn_kernel) blocks.
Proof.
  assert (forall r, r ∈ three_insn_block ->
            is_Some (Tree.id_to_insn three_insn_kernel !! Tree.insn_id r)) as Hk.
  { intros r Hr. unfold three_insn_block in Hr.
    repeat (apply elem_of_cons in Hr as [->|Hr]); [| | |by apply elem_of_nil in Hr];
      vm_compute; eauto. }
  split; [exact Hk|].
  apply (homogenize_block three_insn_kernel three_insn_block Hk).
Defined.

(** ** The homogenizer on a whole schedule tree *)

(** Induction on schedule trees, with the hypothesis for every child. *)
Lemma ScheduleNode_Forall_ind (P : Tree.ScheduleNode -> Prop) :
  (forall r, P (Tree.Run r)) ->
  (forall c sk mk oid, P (Tree.Barrier c sk mk oid)) ->
  (forall children, P (Tree.InstructionBlock children)) ->
  (forall iname children, Forall P children -> P (Tree.Loop iname children)) ->
  (forall name ea ei children, Forall P children ->
     P (Tree.Function name ea ei children)) ->
  (forall children, Forall P children -> P (Tree.Schedule children)) ->
  forall expr, P expr.
Proof.
  intros HR HB HI HL HF HS.
  fix IH 1. intros [r|c sk mk oid|children|iname children|name ea ei children|children].
  - apply HR.
  - apply HB.
  - apply HI.
  - apply HL. induction children as [|c children IHc]; constructor; [apply IH|done].
  - apply HF. induction children as [|c children IHc]; constructor; [apply IH|done].
  - apply HS. induction children as [|c children IHc]; constructor; [apply IH|done].
Qed.

Lemma elem_of_concat_2 {A} (x : A) (l : list A) (ls : list (list A)) :
  l ∈ ls -> x ∈ l -> x ∈ concat ls.
Proof.
  intros Hl Hx. induction ls as [|l' ls IH]; [by apply elem_of_nil in Hl|].
  simpl. apply elem_of_app.
  apply elem_of_cons in Hl as [->|Hl]; [by left|right; by apply IH].
Qed.

Lemma combine_nodes_of (values : list Tree.Mapped) :
  Tree.combine values = concat (Tree.nodes_of <$> values).
Proof.
  unfold Tree.combine.
  assert (forall acc,
            foldl (fun result val =>
                     match val with
                     | Tree.GroupedChildren contents => result ++ contents
                     | Tree.Node n => result ++ [n]
                     end) acc values =
            acc ++ concat (Tree.nodes_of <$> values)) as Hgen.
  { induction values as [|v values IH]; intros acc; simpl.
    - by rewrite app_nil_r.
    - rewrite IH. destruct v; simpl; by rewrite <- (assoc_L (++)). }
  apply Hgen.
Qed.

Section ScheduleFacts.

Context {Expression : Type} `{Countable Expression}.
Variable kernel : Tree.LoopKernel Expression.

(** The kernel knows every instruction of the tree. *)
Local Abbreviation known_tree expr :=
  (forall block r, block ∈ Tree.blocks_of expr -> r ∈ block ->
     is_Some (Tree.id_to_insn kernel !! Tree.insn_id r)).

(** The instruction blocks a mapper result stands for. *)
Local Abbreviation blocks_of_val val :=
  (concat (Tree.blocks_of <$> Tree.nodes_of val)).

(** What the homogenizer does to a tree: the blocks of the result hold the
    instructions of the tree in order, and each is homogeneous. *)
Local Abbreviation homogenized expr :=
  (known_tree expr ->
   exists val,
     Tree.rec kernel expr = Ok val /\
     concat (blocks_of_val val) = concat (Tree.blocks_of expr) /\
     Forall (Tree.homogeneous kernel) (blocks_of_val val)).

Lemma blocks_of_combine (values : list Tree.Mapped) :
  concat (Tree.blocks_of <$> Tree.combine values) =
  concat ((fun val => blocks_of_val val) <$> values).
Proof.
  rewrite combine_nodes_of.
  induction values as [|v values IH]; [done|].
  rewrite !fmap_cons. cbn [concat]. by rewrite fmap_app, concat_app, IH.
Qed.

Lemma mapM_rec_homogenized (children : list Tree.ScheduleNode) :
  Forall (fun c => homogenized c) children ->
  (forall c, c ∈ children -> known_tree c) ->
  exists values,
    mapM (Tree.rec kernel) children = Ok values /\
    concat (concat (Tree.blocks_of <$> Tree.combine values)) =
      concat (concat (Tree.blocks_of <$> children)) /\
    Forall (Tree.homogeneous kernel)
           (concat (Tree.blocks_of <$> Tree.combine values)).
Proof.
  induction 1 as [|c children Hc _ IH]; intros Hknown.
  { by exists []. }
  destruct (Hc (Hknown c ltac:(by left))) as (v & Hv & Hcat & Hhom).
  destruct (IH (fun c' Hc' => Hknown c' ltac:(by right)))
    as (vs & Hvs & Hcats & Hhoms).
  exists (v :: vs). split.
  - cbn [mapM]. rewrite Hv. cbn [mbind result_bind]. rewrite Hvs. done.
  - rewrite blocks_of_combine in *. rewrite fmap_cons. cbn [concat].
    rewrite concat_app, Hcat, Hcats. split.
    + rewrite fmap_cons. cbn [concat]. by rewrite concat_app.
    + by apply Forall_app.
Qed.

(** The homogenizer keeps the instructions of a schedule tree in their
    order and leaves only homogeneous instruction blocks. *)
Lemma homogenize_schedule expr : homogenized expr.
Proof.
  induction expr as [r|c sk mk oid|children|iname children IH
                     |name ea ei children IH|children IH]
    using ScheduleNode_Forall_ind; intros Hknown.
  - exists (Tree.Node (Tree.Run r)). by destruct r.
  - by eexists.
  - destruct (map_instruction_block_spec kernel children) as (blocks & Hmap & Hcat & Hhom).
    { intros r Hr. apply (Hknown children); [by left|done]. }
    exists (Tree.GroupedChildren (Tree.InstructionBlock <$> blocks)).
    split; [simpl; by rewrite Hmap|].
    assert (concat (Tree.blocks_of <$> (Tree.InstructionBlock <$> blocks)) = blocks)
      as Hb.
    { clear. induction blocks as [|b blocks IHb]; [done|].
      rewrite !fmap_cons. cbn [concat Tree.blocks_of]. by rewrite IHb. }
    cbn [Tree.nodes_of Tree.blocks_of]. rewrite Hb, Hcat. simpl.
    by rewrite app_nil_r.
  - destruct (mapM_rec_homogenized children IH) as (vs & Hvs & Hcat & Hhom).
    { intros c Hc block r Hb Hr. apply (Hknown block); [|done].
      cbn [Tree.blocks_of].
      apply (elem_of_concat_2 _ (Tree.blocks_of c)); [|done].
      by apply list_elem_of_fmap_2. }
    eexists. split; [simpl; rewrite Hvs; reflexivity|].
    cbn [Tree.nodes_of]. simpl. rewrite !app_nil_r. done.
  - destruct (mapM_rec_homogenized children IH) as (vs & Hvs & Hcat & Hhom).
    { intros c Hc block r Hb Hr. apply (Hknown block); [|done].
      cbn [Tree.blocks_of].
      apply (elem_of_concat_2 _ (Tree.blocks_of c)); [|done].
      by apply list_elem_of_fmap_2. }
    eexists. split; [simpl; rewrite Hvs; reflexivity|].
    cbn [Tree.nodes_of]. simpl. rewrite !app_nil_r. done.
  - destruct (mapM_rec_homogenized children IH) as (vs & Hvs & Hcat & Hhom).
    { intros c Hc block r Hb Hr. apply (Hknown block); [|done].
      cbn [Tree.blocks_of].
      apply (elem_of_concat_2 _ (Tree.blocks_of c)); [|done].
      by apply list_elem_of_fmap_2. }
    eexists. split; [simpl; rewrite Hvs; reflexivity|].
    cbn [Tree.nodes_of]. simpl. rewrite !app_nil_r. done.
Qed.

End ScheduleFacts.

(** * Further properties of the walk *)

Section WalkTransparency.

Variable before_insn_id after_insn_id : string.
Variable loops_to_ignore : gset string.

Local Abbreviation body := (loop_body before_insn_id after_insn_id loops_to_ignore).
Local Abbreviation loop := (for_loop before_insn_id after_insn_id loops_to_ignore).
Local Abbreviation relevant :=
  (relevant_item before_insn_id after_insn_id loops_to_ignore).

(** An item that is not relevant leaves the state as it is. *)
Lemma loop_body_irrelevant item st :
  relevant item = false ->
  exists flow, body item st = Ok (st, flow).
Proof.
  destruct st as [tup flags sb sa].
  destruct item as [iname|iname|id_|c sk mk [id_|]|k|k]; simpl.
  - intros ->%negb_false_iff. by eexists.
  - intros ->%negb_false_iff. by eexists.
  - intros [-> ->]%orb_false_iff. by eexists.
  - intros [-> ->]%orb_false_iff. by eexists.
  - by eexists.
  - by eexists.
  - by eexists.
Qed.

Lemma for_loop_filter_relevant items st :
  both_created st = false ->
  loop (filter (fun item => relevant item = true) items) st = loop items st.
Proof.
  revert st. induction items as [|item rest IH]; intros st Hst; [done|].
  destruct (relevant item) eqn:Hrel.
  - rewrite filter_cons_True by done. simpl.
    destruct (body item st) as [[st' flow]|e] eqn:Ebody; simpl; [|done].
    destruct (loop_body_sets _ _ _ _ _ _ _ Ebody) as (_ & _ & Hcont).
    destruct flow.
    + destruct (both_created st') eqn:E; [done|]. by apply IH.
    + rewrite (Hcont eq_refl). by apply IH.
  - rewrite filter_cons_False by (by rewrite Hrel).
    destruct (loop_body_irrelevant item st Hrel) as [flow Hb].
    simpl. rewrite Hb. simpl. rewrite IH by done.
    destruct flow; [by rewrite Hst|done].
Qed.

End WalkTransparency.

(** Only the loops that are not ignored and the items carrying one of
    the two ids matter to the constructor: deleting every other item
    from the linearization (other statements, barriers, ignored loops,
    kernel calls and returns) changes nothing. *)
Theorem irrelevant_items_are_transparent lin b a ign :
  PairwiseScheduleBuilder_init
    (filter (fun item => relevant_item b a ign item = true) lin) b a ign =
  PairwiseScheduleBuilder_init lin b a ign.
Proof.
  unfold PairwiseScheduleBuilder_init.
  by rewrite for_loop_filter_relevant.
Qed.

Lemma loop_body_not_ignored b a ign item st :
  not_ignored_loop ign item = true ->
  loop_body b a ign item st = loop_body b a ∅ item st.
Proof.
  destruct item as [iname|iname|id_|c sk mk oid|k|k]; simpl; try done.
  - intros ->%negb_true_iff. by rewrite bool_decide_false by set_solver.
  - intros ->%negb_true_iff. by rewrite bool_decide_false by set_solver.
Qed.

Lemma for_loop_filter_ignored b a ign items st :
  for_loop b a ∅ (filter (fun item => not_ignored_loop ign item = true) items) st =
  for_loop b a ign items st.
Proof.
  revert st. induction items as [|item rest IH]; intros st; [done|].
  destruct (not_ignored_loop ign item) eqn:Hni.
  - rewrite filter_cons_True by done. simpl.
    rewrite <- (loop_body_not_ignored b a ign item st Hni).
    destruct (loop_body b a ign item st) as [[st' flow]|e]; simpl; [|done].
    destruct flow; [destruct (both_created st'); [done|]|]; apply IH.
  - rewrite filter_cons_False by (by rewrite Hni). rewrite IH.
    destruct item as [iname|iname| | | |]; simpl in *; try done;
      apply negb_false_iff in Hni; by rewrite Hni.
Qed.

(** Ignoring a set of loops is deleting their [EnterLoop] and [LeaveLoop]
    items: the constructor gives with the ignore-set what it gives with
    no loop ignored on the linearization without these items. *)
Theorem ignoring_loops_is_deleting_them lin b a ign :
  PairwiseScheduleBuilder_init lin b a ign =
  PairwiseScheduleBuilder_init
    (filter (fun item => not_ignored_loop ign item = true) lin) b a ∅.
Proof.
  unfold PairwiseScheduleBuilder_init.
  by rewrite for_loop_filter_ignored.
Qed.

(** ** Exchanging the two statements *)

Lemma loop_body_swap b a ign item st :
  loop_body a b ign item (swap_state st) =
  result_map (fun '(st', flow) => (swap_state st', flow))
             (loop_body b a ign item st).
Proof.
  destruct st as [tup flags sb sa]. unfold swap_state.
  destruct item as [iname|iname|id_|c sk mk [id_|]|k|k]; simpl; try done.
  - case_bool_decide; [done|].
    by destruct (bump_if_stmt_added tup flags) as [[??]|?].
  - case_bool_decide; [done|].
    destruct (py_pop tup) as [[t1 ?]|?]; simpl; [|done].
    destruct (py_pop t1) as [[t2 ?]|?]; simpl; [|done].
    destruct (py_pop flags) as [[f1 ?]|?]; simpl; [|done].
    by destruct (bump_if_stmt_added t2 f1) as [[??]|?].
  - destruct (bool_decide (id_ = b)), (bool_decide (id_ = a)); simpl;
      try done; by destruct (py_incr_last tup).
  - destruct (bool_decide (id_ = b)), (bool_decide (id_ = a)); simpl;
      try done; by destruct (py_incr_last tup).
Qed.

Lemma both_created_swap st : both_created (swap_state st) = both_created st.
Proof. unfold both_created. simpl. by destruct (self_before st), (self_after st). Qed.

Lemma for_loop_swap b a ign items st :
  for_loop a b ign items (swap_state st) =
  result_map swap_state (for_loop b a ign items st).
Proof.
  revert st. induction items as [|item rest IH]; intros st; [done|].
  simpl. rewrite loop_body_swap.
  destruct (loop_body b a ign item st) as [[st' flow]|e]; simpl; [|done].
  rewrite both_created_swap.
  destruct flow; [destruct (both_created st'); [done|]|]; apply IH.
Qed.

(** Exchanging the two ids exchanges the two sets: the constructor for
    the pair (a, b) returns the sets it returns for (b, a), the other way
    round, and raises when that one raises. *)
Theorem swapping_the_pair lin b a ign :
  PairwiseScheduleBuilder_init lin a b ign =
  result_map swap_builder (PairwiseScheduleBuilder_init lin b a ign).
Proof.
  unfold PairwiseScheduleBuilder_init.
  change initial_state with (swap_state initial_state) at 1.
  rewrite for_loop_swap.
  destruct (for_loop b a ign lin initial_state) as [st|e]; simpl; [|done].
  destruct (self_before st) as [sb|], (self_after st) as [sa|]; simpl; try done.
  unfold swap_builder. simpl. by rewrite Z.max_comm.
Qed.

(** ** Before the first of the two statements *)

Lemma replicate_snoc {A} (n : nat) (x : A) :
  replicate (S n) x = replicate n x ++ [x].
Proof. induction n as [|n IH]; [done|]. simpl in *. by rewrite <- IH. Qed.

Lemma occurs_in_app id_ l1 l2 :
  occurs_in id_ (l1 ++ l2) = occurs_in id_ l1 || occurs_in id_ l2.
Proof. unfold occurs_in. apply existsb_app. Qed.

Section Pristine.

Variable before_insn_id after_insn_id : string.
Variable loops_to_ignore : gset string.

Local Abbreviation body := (loop_body before_insn_id after_insn_id loops_to_ignore).
Local Abbreviation loop := (for_loop before_insn_id after_insn_id loops_to_ignore).
Local Abbreviation captures item :=
  (bool_decide (get_insn_id_from_linearization_item item = Some before_insn_id) ||
   bool_decide (get_insn_id_from_linearization_item item = Some after_insn_id)).

(** An item that carries none of the two ids keeps the walk pristine,
    unless it pops the initial frame. *)
Lemma loop_body_pristine item stack st :
  pristine stack st -> captures item = false ->
  match body item st with
  | Ok (st', _) => pristine (open_loops loops_to_ignore [item] stack) st'
  | Raise _ => True
  end.
Proof.
  intros (Htup & Hfl & Hb & Ha) Hcap.
  apply orb_false_iff in Hcap as [Hcb Hca].
  apply bool_decide_eq_false in Hcb, Hca.
  destruct item as [iname|iname|id_|c sk mk [id_|]|k|k]; simpl.
  - case_bool_decide; [done|].
    unfold bump_if_stmt_added. rewrite Hfl, replicate_snoc, py_last_snoc. simpl.
    repeat split; simpl; try done.
    + by rewrite Htup.
    + by rewrite <- !replicate_snoc.
  - case_bool_decide; [done|].
    rewrite Htup, Hfl.
    destruct stack as [|s stack]; [done|].
    change (zero_frames (s :: stack)) with ((s, 0) :: zero_frames stack).
    cbn [tuple_of length].
    rewrite (assoc_L (++) _ [LexIname s] [LexInt 0]), py_pop_snoc.
    cbn [mbind result_bind]. rewrite py_pop_snoc. cbn [mbind result_bind].
    rewrite (replicate_snoc (S (length stack))), py_pop_snoc.
    cbn [mbind result_bind].
    unfold bump_if_stmt_added. rewrite replicate_snoc, py_last_snoc.
    cbn [mbind result_bind]. repeat split; try done.
    cbn [stmt_added_since_prev_block_at_tier tail]. by rewrite <- replicate_snoc.
  - simpl in *. rewrite !bool_decide_false by congruence. simpl.
    repeat split; simpl; done.
  - simpl in *. rewrite !bool_decide_false by congruence. simpl.
    repeat split; simpl; done.
  - done.
  - done.
  - done.
Qed.

(** A pristine walk ends pristine, or it meets a first item that carries
    one of the two ids, in a pristine state. *)
Lemma for_loop_pristine items stack st st' :
  pristine stack st -> loop items st = Ok st' ->
  pristine (open_loops loops_to_ignore items stack) st' \/
  exists pre item post st1 st2,
    items = pre ++ item :: post /\
    occurs_in before_insn_id pre = false /\
    occurs_in after_insn_id pre = false /\
    captures item = true /\
    pristine (open_loops loops_to_ignore pre stack) st1 /\
    body item st1 = Ok (st2, ReachedEnd) /\
    (if both_created st2 then st' = st2 else loop post st2 = Ok st').
Proof.
  revert stack st. induction items as [|item rest IH]; intros stack st Hpr.
  { intros [= ->]. by left. }
  destruct (captures item) eqn:Hcap.
  - intros Hloop. right. simpl in Hloop.
    destruct (body item st) as [[st2 flow]|e] eqn:Ebody; simpl in Hloop; [|done].
    assert (flow = ReachedEnd) as ->.
    { destruct flow; [done|].
      destruct (loop_body_sets _ _ _ _ _ _ _ Ebody) as (Hb & Ha & Hcont).
      rewrite (Hcont eq_refl) in Hb, Ha.
      destruct Hpr as (_ & _ & Hnb & Hna). rewrite Hnb in Hb. rewrite Hna in Ha.
      apply orb_true_iff in Hcap as [Hc|Hc];
        [rewrite Hc in Hb|rewrite Hc in Ha]; done. }
    exists [], item, rest, st, st2.
    do 4 (split; [done|]). split; [exact Hpr|]. split; [done|].
    destruct (both_created st2); [by injection Hloop as ->|done].
  - intros Hloop. simpl in Hloop.
    pose proof (loop_body_pristine item stack st Hpr Hcap) as Hstep.
    destruct (body item st) as [[st2 flow]|e] eqn:Ebody; simpl in Hloop; [|done].
    assert (loop rest st2 = Ok st') as Hrest.
    { destruct Hstep as (_ & _ & Hnb & Hna).
      destruct flow; [|done]. unfold both_created in Hloop.
      by rewrite Hnb in Hloop. }
    apply orb_false_iff in Hcap as [Hcb Hca].
    destruct (IH _ _ Hstep Hrest)
      as [Hp|(pre & it & post & st1 & st3 & -> & Hob & Hoa & Hc & Hp & Hb & Hl)].
    + left. by rewrite open_loops_cons.
    + right. exists (item :: pre), it, post, st1, st3.
      rewrite (open_loops_cons _ item pre). simpl.
      by rewrite Hcb, Hca, Hob, Hoa.
Qed.

End Pristine.

Lemma pristine_initial_state : pristine [] initial_state.
Proof. by repeat split. Qed.

Lemma _pad_lex_tuple_with_zeros_same s :
  _pad_lex_tuple_with_zeros s
    (Z.max (Z.of_nat (length (lex_points s))) (Z.of_nat (length (lex_points s))))
  = s.
Proof.
  unfold _pad_lex_tuple_with_zeros. rewrite Z.max_id, Z.sub_diag. simpl.
  rewrite app_nil_r. by destruct s.
Qed.

(** For a pair of a statement with itself, the two sets the constructor
    returns are one and the same snapshot, taken at the first item that
    carries the id: the symbols of the loops open there, between
    counters that are all zero, with no padding. *)
Theorem self_pair_sets lin b ign self :
  PairwiseScheduleBuilder_init lin b b ign = Ok self ->
  exists pre item post,
    lin = pre ++ item :: post /\
    occurs_in b pre = false /\
    get_insn_id_from_linearization_item item = Some b /\
    stmt_instance_set_before self =
      mkSIS b (tuple_of 0 (zero_frames (open_loops ign pre []))) /\
    stmt_instance_set_after self = stmt_instance_set_before self.
Proof.
  intros Hinit.
  destruct (PairwiseScheduleBuilder_init_inv _ _ _ _ _ Hinit)
    as (st & sb & sa & Hloop & Hsb & Hsa & _).
  rewrite (PairwiseScheduleBuilder_init_Ok _ _ _ _ _ _ _ Hloop Hsb Hsa) in Hinit.
  injection Hinit as <-.
  destruct (for_loop_pristine b b ign lin [] _ _ pristine_initial_state Hloop)
    as [(_ & _ & Hnb & _)|(pre & item & post & st1 & st2 & -> & Hob & _ & Hcap
                           & (Htup & _) & Hbody & Hend)]; [congruence|].
  rewrite orb_diag in Hcap. apply bool_decide_eq_true in Hcap.
  destruct (loop_body_sets _ _ _ _ _ _ _ Hbody) as (Hb2 & Ha2 & _).
  rewrite bool_decide_true in Hb2, Ha2 by done.
  assert (both_created st2 = true) as Hboth
    by (unfold both_created; by rewrite Hb2, Ha2).
  rewrite Hboth in Hend. subst st2.
  rewrite Hsb in Hb2. rewrite Hsa in Ha2.
  injection Hb2 as ->. injection Ha2 as ->.
  exists pre, item, post. do 3 (split; [done|]). simpl.
  rewrite _pad_lex_tuple_with_zeros_same. by rewrite Htup.
Qed.

Lemma self_pair_sets_witness :
  let self := mkBuilder (mkSIS "Sb" [LexInt 0; LexIname "i"; LexInt 0;
                                     LexIname "j"; LexInt 0])
                        (mkSIS "Sb" [LexInt 0; LexIname "i"; LexInt 0;
                                     LexIname "j"; LexInt 0]) in
  PairwiseScheduleBuilder_init scenario_A "Sb" "Sb" ∅ = Ok self /\
  exists pre item post,
    scenario_A = pre ++ item :: post /\
    occurs_in "Sb" pre = false /\
    get_insn_id_from_linearization_item item = Some "Sb" /\
    stmt_instance_set_before self =
      mkSIS "Sb" (tuple_of 0 (zero_frames (open_loops ∅ pre []))) /\
    stmt_instance_set_after self = stmt_instance_set_before self.
Proof.
  split; [vm_compute; reflexivity|].
  apply (self_pair_sets scenario_A "Sb" ∅). vm_compute. reflexivity.
Defined.

(** ** The outcomes of the constructor *)

(** Whatever the linearization, the constructor returns or raises one of
    two exceptions: the [IndexError] of a [LeaveLoop] that pops the
    initial frame, or the [AttributeError] of a set left at [None]; the
    increments of the walk never meet a string and its indexings never
    miss. It returns only if both ids occur, and does return then if no
    [LeaveLoop] pops the initial frame. *)
Theorem constructor_outcomes lin b a ign :
  ((exists self, PairwiseScheduleBuilder_init lin b a ign = Ok self) \/
   PairwiseScheduleBuilder_init lin b a ign =
     Raise IndexError_pop_from_empty_list \/
   PairwiseScheduleBuilder_init lin b a ign =
     Raise (AttributeError_NoneType "lex_points")) /\
  ((exists self, PairwiseScheduleBuilder_init lin b a ign = Ok self) ->
   occurs_in b lin = true /\ occurs_in a lin = true) /\
  (keeps_initial_frame ign lin 0 = true ->
   occurs_in b lin = true -> occurs_in a lin = true ->
   exists self, PairwiseScheduleBuilder_init lin b a ign = Ok self).
Proof.
  split; [|split].
  - unfold PairwiseScheduleBuilder_init.
    destruct (for_loop b a ign lin initial_state) as [st|e] eqn:Hloop; simpl.
    + destruct (self_before st) as [sb|]; simpl; [|by right; right].
      destruct (self_after st) as [sa|]; simpl; [|by right; right].
      left. by eexists.
    + right. left.
      by rewrite (for_loop_raises b a ign lin [] _ _ initial_state_shaped Hloop).
  - intros [self Hinit].
    destruct (PairwiseScheduleBuilder_init_inv _ _ _ _ _ Hinit)
      as (st & sb & sa & Hloop & Hsb & Hsa & _).
    destruct (for_loop_captured b a ign lin [] _ _ initial_state_shaped Hloop)
      as [Hcb Hca].
    destruct (Hcb _ Hsb) as [?|Hb]; [done|].
    destruct (Hca _ Hsa) as [?|Ha]; [done|].
    split; by eapply captured_at_occurs.
  - intros Hk Hb Ha. by apply PairwiseScheduleBuilder_init_total.
Qed.

Lemma constructor_outcomes_witness :
  keeps_initial_frame ∅ scenario_A 0 = true /\
  occurs_in "Sa" scenario_A = true /\ occurs_in "Sd" scenario_A = true /\
  exists self, PairwiseScheduleBuilder_init scenario_A "Sa" "Sd" ∅ = Ok self.
Proof.
  split; [vm_compute; reflexivity|].
  split; [vm_compute; reflexivity|].
  split; [vm_compute; reflexivity|].
  apply (proj2 (proj2 (constructor_outcomes scenario_A "Sa" "Sd" ∅)));
    vm_compute; reflexivity.
Defined.

(** ** The order of the two snapshots *)

Lemma tuple_of_entries c0 frames :
  tuple_of c0 frames = LexInt c0 :: frame_entries frames.
Proof.
  induction frames as [|[s c] outer IH]; [done|]. simpl. by rewrite IH.
Qed.

Lemma tuple_of_app c0 inner outer :
  tuple_of c0 (inner ++ outer) = tuple_of c0 outer ++ frame_entries inner.
Proof.
  induction inner as [|[s c] inner IH]; simpl.
  - by rewrite app_nil_r.
  - by rewrite IH, <- (assoc_L (++)).
Qed.

Lemma bump_if_stmt_added_exact c0 frames fl (f : bool) :
  bump_if_stmt_added (tuple_of c0 frames) (fl ++ [f]) =
  Ok (if f then (tuple_of (bump c0 frames).1 (bump c0 frames).2, fl ++ [false])
      else (tuple_of c0 frames, fl ++ [f])).
Proof.
  unfold bump_if_stmt_added. rewrite py_last_snoc. cbn [mbind result_bind].
  destruct f; [|done].
  rewrite py_incr_last_tuple_of. cbn [mbind result_bind].
  by rewrite py_set_last_snoc.
Qed.

Lemma moved_on_precedes T c0 frames flags :
  moved_on T c0 frames flags -> lex_precedes T (tuple_of c0 frames).
Proof.
  intros [_ [(c0b & framesb & -> & Hlt)
            |(inner & innerb & s & cb & c & outer & -> & -> & Hlt & _)]].
  - exists 0%nat, c0b, c0. rewrite !tuple_of_entries. by repeat split.
  - rewrite !tuple_of_app. cbn [tuple_of].
    set (P := tuple_of c0 outer ++ [LexIname s]).
    replace ((tuple_of c0 outer ++ [LexIname s; LexInt cb]) ++ frame_entries innerb)
      with (P ++ LexInt cb :: frame_entries innerb)
      by (unfold P; by rewrite <- !(assoc_L (++))).
    replace ((tuple_of c0 outer ++ [LexIname s; LexInt c]) ++ frame_entries inner)
      with (P ++ LexInt c :: frame_entries inner)
      by (unfold P; by rewrite <- !(assoc_L (++))).
    exists (length P), cb, c.
    rewrite !take_app_length, !list_lookup_middle by done. by repeat split.
Qed.

Lemma lex_precedes_app X Y Z1 Z2 :
  lex_precedes X Y -> lex_precedes (X ++ Z1) (Y ++ Z2).
Proof.
  intros (k & x & y & Htake & HX & HY & Hlt).
  pose proof (lookup_lt_Some _ _ _ HX). pose proof (lookup_lt_Some _ _ _ HY).
  exists k, x, y.
  rewrite !take_app_le, !lookup_app_l by lia. by repeat split.
Qed.

(** Bumping the innermost counter and clearing its flag. *)
Lemma moved_on_bump T c0 frames fl (f : bool) :
  moved_on T c0 frames (fl ++ [f]) ->
  moved_on T (bump c0 frames).1 (bump c0 frames).2 (fl ++ [false]).
Proof.
  intros [Hlen Hcase]. rewrite length_app in Hlen. simpl in Hlen.
  split.
  { rewrite length_app. simpl.
    destruct frames as [|[??]?]; simpl in *; lia. }
  destruct Hcase as [(c0b & framesb & -> & Hlt)
                    |(inner & innerb & s & cb & c & outer & -> & -> & Hlt & Htrue)].
  - left. exists c0b, framesb. split; [done|].
    destruct frames as [|[??]?]; simpl; lia.
  - right. rewrite length_app in Hlen. simpl in Hlen.
    rewrite take_app_le in Htrue by lia.
    destruct inner as [|[s1 c1] inner]; simpl.
    + exists [], innerb, s, cb, (c + 1), outer.
      rewrite take_app_le by lia. repeat split; try done. lia.
    + exists ((s1, c1 + 1) :: inner), innerb, s, cb, c, outer.
      rewrite take_app_le by lia. by repeat split.
Qed.

(** Entering a loop. *)
Lemma moved_on_push T c0 frames flags iname :
  moved_on T c0 frames flags ->
  moved_on T c0 ((iname, 0) :: frames) (flags ++ [false]).
Proof.
  intros [Hlen Hcase]. split; [rewrite length_app; simpl; lia|].
  destruct Hcase as [(c0b & framesb & -> & Hlt)
                    |(inner & innerb & s & cb & c & outer & -> & -> & Hlt & Htrue)].
  - left. by exists c0b, framesb.
  - right. exists ((iname, 0) :: inner), innerb, s, cb, c, outer.
    rewrite length_app in Hlen. simpl in Hlen.
    rewrite take_app_le by lia. by repeat split.
Qed.

(** Leaving the innermost loop. *)
Lemma moved_on_leave T c0 s1 c1 frames fl (f : bool) :
  moved_on T c0 ((s1, c1) :: frames) (fl ++ [f]) ->
  exists c0' frames' flags',
    bump_if_stmt_added (tuple_of c0 frames) fl =
      Ok (tuple_of c0' frames', flags') /\
    moved_on T c0' frames' flags'.
Proof.
  intros [Hlen Hcase]. rewrite length_app in Hlen. simpl in Hlen.
  assert (length fl = S (length frames)) as Hfl by lia.
  destruct (snoc_of_length _ _ Hfl) as (fl' & f' & -> & Hfl').
  rewrite bump_if_stmt_added_exact.
  destruct Hcase as [(c0b & framesb & -> & Hlt)
                    |(inner & innerb & s & cb & c & outer & Hfr & -> & Hlt & Htrue)].
  - assert (moved_on (tuple_of c0b framesb) c0 frames (fl' ++ [f'])) as Hm.
    { split; [done|]. left. by exists c0b, framesb. }
    destruct f'; eexists _, _, _; (split; [reflexivity|]);
      [by apply moved_on_bump in Hm|done].
  - destruct inner as [|[s2 c2] inner]; simpl in Hfr; simplify_eq.
    + (* the loop left is the one that had moved on *)
      rewrite take_app_le in Htrue by (rewrite length_app; simpl; lia).
      rewrite take_ge in Htrue by (rewrite length_app; simpl; lia).
      apply Forall_app in Htrue as [Htrue' Hf'].
      inversion Hf' as [|? ? Hf'' _]. subst f'.
      eexists _, _, _. split; [reflexivity|].
      split.
      { rewrite length_app. simpl.
        destruct outer as [|[??]?]; simpl in *; lia. }
      destruct outer as [|[s' c'] outer]; simpl.
      * left. exists c0, (innerb ++ [(s, cb)]). split; [done|]. lia.
      * right. exists [], (innerb ++ [(s, cb)]), s', c', (c' + 1), outer.
        simpl in Hfl'.
        rewrite <- (assoc_L (++)). simpl.
        rewrite take_app_le, take_ge by lia.
        repeat split; try done. lia.
    + assert (moved_on (tuple_of c0 (innerb ++ (s, cb) :: outer)) c0
                (inner ++ (s, c) :: outer) (fl' ++ [f'])) as Hm.
      { split; [done|]. right. exists inner, innerb, s, cb, c, outer.
        rewrite length_app in Hfl. simpl in Hfl.
        rewrite length_app in Hfl. simpl in Hfl.
        rewrite take_app_le in Htrue by (rewrite length_app; simpl; lia).
        by repeat split. }
      destruct f'; eexists _, _, _; (split; [reflexivity|]);
        [by apply moved_on_bump in Hm|done].
Qed.

(** Right after a snapshot, the walk has moved on from it. *)
Lemma moved_on_capture c0 frames :
  moved_on (tuple_of c0 frames) (bump c0 frames).1 (bump c0 frames).2
           (replicate (S (length frames)) true).
Proof.
  split.
  { rewrite length_replicate. destruct frames as [|[??]?]; simpl; lia. }
  destruct frames as [|[s c] outer]; simpl.
  - left. exists c0, []. split; [done|]. lia.
  - right. exists [], [], s, c, (c + 1), outer. simpl.
    repeat split; try done; [lia|].
    change (true :: take (length outer) (true :: replicate (length outer) true))
      with (take (S (length outer)) (replicate (S (S (length outer))) true)).
    rewrite take_replicate. by apply Forall_replicate.
Qed.

Section SnapshotOrder.

Variable before_insn_id after_insn_id : string.
Variable loops_to_ignore : gset string.
Hypothesis distinct : before_insn_id <> after_insn_id.

Local Abbreviation body := (loop_body before_insn_id after_insn_id loops_to_ignore).
Local Abbreviation loop := (for_loop before_insn_id after_insn_id loops_to_ignore).
Local Abbreviation carries item id_ :=
  (get_insn_id_from_linearization_item item = Some id_).

(** An item that carries none of the two ids keeps the walk moved on
    from a snapshot. *)
Lemma loop_body_diverged T item st :
  diverged T st ->
  ~ carries item before_insn_id -> ~ carries item after_insn_id ->
  match body item st with
  | Ok (st', _) => diverged T st'
  | Raise _ => True
  end.
Proof.
  intros (c0 & frames & Htup & Hm) Hnb Hna.
  destruct st as [tup flags sb sa]. simpl in Htup, Hm. subst tup.
  pose proof (proj1 Hm) as Hlen.
  destruct (snoc_of_length _ _ Hlen) as (fl & f & -> & Hfl).
  destruct item as [iname|iname|id_|c sk mk [id_|]|k|k]; simpl.
  - case_bool_decide; [by exists c0, frames|].
    rewrite bump_if_stmt_added_exact. cbn [mbind result_bind].
    destruct f; simpl.
    + exists (bump c0 frames).1, ((iname, 0) :: (bump c0 frames).2).
      split; [done|]. by apply moved_on_push, moved_on_bump with true.
    + exists c0, ((iname, 0) :: frames). split; [done|].
      by apply moved_on_push.
  - case_bool_decide; [by exists c0, frames|].
    destruct frames as [|[s1 c1] frames]; [done|].
    cbn [tuple_of].
    rewrite (assoc_L (++) _ [LexIname s1] [LexInt c1]), py_pop_snoc.
    cbn [mbind result_bind]. rewrite py_pop_snoc. cbn [mbind result_bind].
    rewrite py_pop_snoc. cbn [mbind result_bind].
    destruct (moved_on_leave _ _ _ _ _ _ _ Hm) as (c0' & frames' & flags' & -> & Hm').
    cbn [mbind result_bind]. by exists c0', frames'.
  - simpl in Hnb, Hna.
    rewrite !bool_decide_false by congruence. simpl. by exists c0, frames.
  - simpl in Hnb, Hna.
    rewrite !bool_decide_false by congruence. simpl. by exists c0, frames.
  - by exists c0, frames.
  - by exists c0, frames.
  - by exists c0, frames.
Qed.

(** The item that carries the before id snapshots the tuple, and the walk
    has moved on from it at the end of the iteration. *)
Lemma loop_body_capture_before item stack st :
  shaped stack st -> carries item before_insn_id ->
  exists st',
    body item st = Ok (st', ReachedEnd) /\
    self_before st' =
      Some (mkSIS before_insn_id (next_insn_lex_tuple st)) /\
    self_after st' = self_after st /\
    diverged (next_insn_lex_tuple st) st'.
Proof.
  intros (c0 & frames & Htup & Hst & _ & _ & Hfl) Hid.
  destruct st as [tup flags sb sa]. simpl in Htup, Hfl. subst tup.
  assert (length flags = S (length frames)) as Hlen
    by (by rewrite Hfl, <- Hst, length_fmap).
  assert (forall lp_insn_id, lp_insn_id = before_insn_id ->
    exists st',
      (let snapshot := mkSIS lp_insn_id (tuple_of c0 frames) in
       let is_before := bool_decide (lp_insn_id = before_insn_id) in
       let is_after := bool_decide (lp_insn_id = after_insn_id) in
       if is_before || is_after then
         tup ← py_incr_last (tuple_of c0 frames);
         Ok (mkWalk tup (replicate (length flags) true)
               (if is_before then Some snapshot else sb)
               (if is_after then Some snapshot else sa), ReachedEnd)
       else Ok (mkWalk (tuple_of c0 frames) flags
                  (if is_before then Some snapshot else sb)
                  (if is_after then Some snapshot else sa), ReachedEnd)) =
      Ok (st', ReachedEnd) /\
      self_before st' = Some (mkSIS before_insn_id (tuple_of c0 frames)) /\
      self_after st' = sa /\
      diverged (tuple_of c0 frames) st') as Hgen.
  { intros ? ->. cbv zeta.
    rewrite bool_decide_true by done.
    rewrite (bool_decide_false (before_insn_id = after_insn_id)) by done.
    simpl. rewrite py_incr_last_tuple_of. cbn [mbind result_bind].
    eexists. split; [reflexivity|]. simpl. repeat split.
    eexists _, _. split; [reflexivity|]. simpl.
    rewrite Hlen. apply moved_on_capture. }
  destruct item as [iname|iname|id_|c sk mk [id_|]|k|k]; simpl in Hid;
    try done; injection Hid as ->; by apply Hgen.
Qed.

(** The item that carries the after id, met when the before set is there,
    ends the walk with the tuple as the after set. *)
Lemma loop_body_capture_after item stack st :
  shaped stack st -> carries item after_insn_id ->
  exists st',
    body item st = Ok (st', ReachedEnd) /\
    self_before st' = self_before st /\
    self_after st' = Some (mkSIS after_insn_id (next_insn_lex_tuple st)).
Proof.
  intros (c0 & frames & Htup & _) Hid.
  destruct st as [tup flags sb sa]. simpl in Htup. subst tup.
  assert (forall lp_insn_id, lp_insn_id = after_insn_id ->
    exists st',
      (let snapshot := mkSIS lp_insn_id (tuple_of c0 frames) in
       let is_before := bool_decide (lp_insn_id = before_insn_id) in
       let is_after := bool_decide (lp_insn_id = after_insn_id) in
       if is_before || is_after then
         tup ← py_incr_last (tuple_of c0 frames);
         Ok (mkWalk tup (replicate (length flags) true)
               (if is_before then Some snapshot else sb)
               (if is_after then Some snapshot else sa), ReachedEnd)
       else Ok (mkWalk (tuple_of c0 frames) flags
                  (if is_before then Some snapshot else sb)
                  (if is_after then Some snapshot else sa), ReachedEnd)) =
      Ok (st', ReachedEnd) /\
      self_before st' = sb /\
      self_after st' = Some (mkSIS after_insn_id (tuple_of c0 frames))) as Hgen.
  { intros ? ->. cbv zeta.
    rewrite (bool_decide_false (after_insn_id = before_insn_id)) by done.
    rewrite bool_decide_true by done.
    simpl. rewrite py_incr_last_tuple_of. cbn [mbind result_bind].
    eexists. split; [reflexivity|]. by simpl. }
  destruct item as [iname|iname|id_|c sk mk [id_|]|k|k]; simpl in Hid;
    try done; injection Hid as ->; by apply Hgen.
Qed.

(** When the before statement is captured first, the before snapshot
    comes before the after snapshot. *)
Lemma for_loop_snapshot_order items stack st st' :
  shaped stack st ->
  self_after st = None ->
  (forall sb, self_before st = Some sb -> diverged (lex_points sb) st) ->
  (is_Some (self_before st) \/
   exists pre item post,
     items = pre ++ item :: post /\ carries item before_insn_id /\
     occurs_in after_insn_id pre = false) ->
  loop items st = Ok st' ->
  forall sb sa, self_before st' = Some sb -> self_after st' = Some sa ->
    lex_precedes (lex_points sb) (lex_points sa).
Proof.
  revert stack st. induction items as [|item rest IH];
    intros stack st Hsh Hna Hdiv Hfirst.
  { intros [= <-] sb sa _ Hsa. congruence. }
  intros Hloop sb' sa' Hsb' Hsa'. simpl in Hloop.
  pose proof (loop_body_shaped before_insn_id after_insn_id loops_to_ignore
                item stack st Hsh) as Hshstep.
  destruct (decide (carries item after_insn_id)) as [Hia|Hia].
  - (* the after statement: the before set must be there *)
    destruct Hfirst as [[sb Hsb]|(pre & it & post & Heq & Hib & Hoa)].
    + destruct (loop_body_capture_after item stack st Hsh Hia)
        as (st2 & Hbody & Hb2 & Ha2).
      rewrite Hbody in Hloop. simpl in Hloop.
      assert (both_created st2 = true) as Hboth
        by (unfold both_created; by rewrite Hb2, Ha2, Hsb).
      rewrite Hboth in Hloop. injection Hloop as <-.
      rewrite Hb2, Hsb in Hsb'. rewrite Ha2 in Hsa'.
      injection Hsb' as <-. injection Hsa' as <-. simpl.
      destruct (Hdiv _ Hsb) as (c0 & frames & -> & Hm).
      by eapply moved_on_precedes.
    + destruct pre as [|it' pre]; simpl in Heq; injection Heq as -> ->.
      * congruence.
      * simpl in Hoa. apply orb_false_iff in Hoa as [Hoa _].
        apply bool_decide_eq_false in Hoa. done.
  - destruct (decide (carries item before_insn_id)) as [Hib|Hib].
    + (* the before statement: a new snapshot *)
      destruct (loop_body_capture_before item stack st Hsh Hib)
        as (st2 & Hbody & Hb2 & Ha2 & Hd2).
      rewrite Hbody in Hloop, Hshstep. simpl in Hloop.
      destruct Hshstep as [Hsh2 _].
      assert (both_created st2 = false) as Hboth
        by (unfold both_created; by rewrite Hb2, Ha2, Hna).
      rewrite Hboth in Hloop.
      apply (IH _ st2 Hsh2) with (sb := sb') (sa := sa'); try done.
      * congruence.
      * intros sb Hsb. rewrite Hb2 in Hsb. by injection Hsb as <-.
      * left. by rewrite Hb2.
    + (* any other item *)
      destruct (body item st) as [[st2 flow]|e] eqn:Ebody; simpl in Hloop; [|done].
      destruct Hshstep as [Hsh2 _].
      destruct (loop_body_sets _ _ _ _ _ _ _ Ebody) as (Hb2 & Ha2 & _).
      rewrite bool_decide_false in Hb2, Ha2 by done.
      assert (both_created st2 = false) as Hboth
        by (unfold both_created; rewrite Ha2, Hna; by destruct (self_before st2)).
      assert (loop rest st2 = Ok st') as Hrest
        by (destruct flow; [by rewrite Hboth in Hloop|done]).
      apply (IH _ st2 Hsh2) with (sb := sb') (sa := sa'); try done.
      * congruence.
      * intros sb Hsb. rewrite Hb2 in Hsb.
        pose proof (loop_body_diverged (lex_points sb) item st (Hdiv _ Hsb)
                      Hib Hia) as Hd.
        by rewrite Ebody in Hd.
      * destruct Hfirst as [Hs|(pre & it & post & Heq & Hitb & Hoa)].
        { left. by rewrite Hb2. }
        right. destruct pre as [|it' pre]; simpl in Heq; injection Heq as -> ->.
        { done. }
        simpl in Hoa. apply orb_false_iff in Hoa as [_ Hoa].
        by exists pre, it, post.
Qed.

End SnapshotOrder.

(** When an item carrying the before id comes before every item carrying
    the after id (the ids being distinct), the lex tuple of the before set
    comes before that of the after set: they agree up to a position where
    both have a block counter, and there the before set has the smaller.
    So the order of the linearization is the order of the lex points. *)
Theorem before_precedes_after lin b a ign self pre item post :
  b <> a ->
  lin = pre ++ item :: post ->
  get_insn_id_from_linearization_item item = Some b ->
  occurs_in a pre = false ->
  PairwiseScheduleBuilder_init lin b a ign = Ok self ->
  lex_precedes (lex_points (stmt_instance_set_before self))
               (lex_points (stmt_instance_set_after self)).
Proof.
  intros Hne -> Hid Hoa Hinit.
  destruct (PairwiseScheduleBuilder_init_inv _ _ _ _ _ Hinit)
    as (st & sb & sa & Hloop & Hsb & Hsa & _).
  rewrite (PairwiseScheduleBuilder_init_Ok _ _ _ _ _ _ _ Hloop Hsb Hsa) in Hinit.
  injection Hinit as <-. simpl.
  apply lex_precedes_app.
  eapply (for_loop_snapshot_order b a ign Hne _ [] initial_state);
    [apply initial_state_shaped|done|done| |exact Hloop|exact Hsb|exact Hsa].
  right. by exists pre, item, post.
Qed.

Lemma before_precedes_after_witness :
  "Sa" <> "Sd" /\
  scenario_A = take 2 scenario_A ++ RunInstruction "Sa" :: drop 3 scenario_A /\
  get_insn_id_from_linearization_item (RunInstruction "Sa") = Some "Sa" /\
  occurs_in "Sd" (take 2 scenario_A) = false /\
  PairwiseScheduleBuilder_init scenario_A "Sa" "Sd" ∅ =
    Ok (mkBuilder
          (mkSIS "Sa" [LexInt 0; LexIname "i"; LexInt 0; LexIname "k"; LexInt 0])
          (mkSIS "Sd" [LexInt 1; LexIname "t"; LexInt 0; LexInt 0; LexInt 0])) /\
  lex_precedes
    [LexInt 0; LexIname "i"; LexInt 0; LexIname "k"; LexInt 0]
    [LexInt 1; LexIname "t"; LexInt 0; LexInt 0; LexInt 0].
Proof.
  split; [done|]. split; [reflexivity|]. split; [reflexivity|].
  split; [vm_compute; reflexivity|]. split; [vm_compute; reflexivity|].
  apply (before_precedes_after scenario_A "Sa" "Sd" ∅
           (mkBuilder
              (mkSIS "Sa" [LexInt 0; LexIname "i"; LexInt 0; LexIname "k";
                           LexInt 0])
              (mkSIS "Sd" [LexInt 1; LexIname "t"; LexInt 0; LexInt 0;
                           LexInt 0]))
           (take 2 scenario_A) (RunInstruction "Sa") (drop 3 scenario_A));
    [done | reflexivity | reflexivity | vm_compute; reflexivity
    | vm_compute; reflexivity].
Defined.

(** ** Names of the coordinates *)

Example get_lex_var_names_three :
  get_lex_var_names
    (mkBuilder (mkSIS "Sa" [LexInt 0; LexIname "i"; LexInt 0])
               (mkSIS "Sb" [LexInt 0; LexIname "i"; LexInt 1])) =
  ["_lp_linchk_l0"; "_lp_linchk_l1"; "_lp_linchk_l2"].
Proof. vm_compute. reflexivity. Qed.

(** The lex coordinates of a constructed pair have one name for each
    entry of the two (equally long) lex tuples; the names are distinct,
    and none is the name of the which-statement coordinate. *)
Theorem lex_var_names_fit lin b a ign self :
  PairwiseScheduleBuilder_init lin b a ign = Ok self ->
  length (get_lex_var_names self) =
    length (lex_points (stmt_instance_set_before self)) /\
  length (get_lex_var_names self) =
    length (lex_points (stmt_instance_set_after self)) /\
  NoDup (get_lex_var_names self) /\
  STATEMENT_VAR_NAME ∉ get_lex_var_names self.
Proof.
  intros Hinit.
  destruct (PairwiseScheduleBuilder_init_inv _ _ _ _ _ Hinit)
    as (st & sb & sa & Hloop & Hsb & Hsa & _).
  rewrite (PairwiseScheduleBuilder_init_Ok _ _ _ _ _ _ _ Hloop Hsb Hsa) in Hinit.
  injection Hinit as <-.
  unfold get_lex_var_names, max_lex_dims. simpl.
  rewrite !length_fmap, !length_seq, !length_app, !length_replicate.
  split; [lia|]. split; [lia|]. split.
  - apply (NoDup_fmap_2 _), NoDup_seq.
  - intros (i & Heq & _)%list_elem_of_fmap.
    unfold STATEMENT_VAR_NAME, LEX_VAR_PREFIX, LIN_CHECK_IDENTIFIER_PREFIX in Heq.
    simpl in Heq. discriminate.
Qed.

Lemma lex_var_names_fit_witness :
  let self := mkBuilder
    (mkSIS "Sa" [LexInt 0; LexIname "i"; LexInt 0; LexIname "k"; LexInt 0])
    (mkSIS "Sd" [LexInt 1; LexIname "t"; LexInt 0; LexInt 0; LexInt 0]) in
  PairwiseScheduleBuilder_init scenario_A "Sa" "Sd" ∅ = Ok self /\
  length (get_lex_var_names self) =
    length (lex_points (stmt_instance_set_before self)) /\
  length (get_lex_var_names self) =
    length (lex_points (stmt_instance_set_after self)) /\
  NoDup (get_lex_var_names self) /\
  STATEMENT_VAR_NAME ∉ get_lex_var_names self.
Proof.
  split; [vm_compute; reflexivity|].
  apply (lex_var_names_fit scenario_A "Sa" "Sd" ∅). vm_compute. reflexivity.
Defined.

(** * Further properties of the schedule tree *)

(** ** The identity mapper and the gatherer *)

(** [IdentityMapper] returns a tree equal to the one it is given. *)
Theorem identity_mapper_is_identity expr :
  Tree.identity_rec expr = Tree.Node expr.
Proof.
  assert (forall children,
            Forall (fun c => Tree.identity_rec c = Tree.Node c) children ->
            Tree.combine (Tree.identity_rec <$> children) = children) as Hch.
  { intros children HF. rewrite combine_nodes_of.
    induction HF as [|c children Hc _ IH]; [done|].
    rewrite !fmap_cons, Hc. cbn [concat Tree.nodes_of]. by rewrite IH. }
  induction expr as [r|c sk mk oid|children|iname children IH
                     |name ea ei children IH|children IH]
    using ScheduleNode_Forall_ind; cbn [Tree.identity_rec].
  - by destruct r.
  - done.
  - do 2 f_equal. induction children as [|[id_] children IHc]; [done|].
    rewrite fmap_cons. simpl. by rewrite IHc.
  - by rewrite Hch.
  - by rewrite Hch.
  - by rewrite Hch.
Qed.

Lemma gatherer_combine_union (values : list (gset string)) :
  Tree.gatherer_combine values = ⋃ values.
Proof.
  unfold Tree.gatherer_combine.
  assert (forall acc : gset string,
            foldl (fun acc val => acc ∪ val) acc values = acc ∪ ⋃ values) as Hgen.
  { induction values as [|v values IH]; intros acc; simpl.
    - by rewrite (right_id_L ∅ (∪)).
    - by rewrite IH, (assoc_L (∪)). }
  by rewrite Hgen, (left_id_L ∅ (∪)).
Qed.

Lemma gather_elem_of expr (id_ : string) :
  id_ ∈ Tree.gather expr <-> id_ ∈ Tree.ids_in_order expr.
Proof.
  assert (forall children,
            Forall (fun c => id_ ∈ Tree.gather c <-> id_ ∈ Tree.ids_in_order c)
                   children ->
            id_ ∈ Tree.gatherer_combine (Tree.gather <$> children) <->
            id_ ∈ concat (Tree.ids_in_order <$> children)) as Hch.
  { intros children HF. rewrite gatherer_combine_union.
    induction HF as [|c children Hc _ IH].
    - simpl. by rewrite elem_of_nil, elem_of_empty.
    - rewrite !fmap_cons, union_list_cons. cbn [concat].
      by rewrite elem_of_app, elem_of_union, Hc, IH. }
  induction expr as [r|c sk mk oid|children|iname children IH
                     |name ea ei children IH|children IH]
    using ScheduleNode_Forall_ind;
    cbn [Tree.gather Tree.ids_in_order]; try by apply Hch.
  - by rewrite elem_of_singleton, list_elem_of_singleton.
  - destruct oid as [o|].
    + by rewrite elem_of_singleton, list_elem_of_singleton.
    + by rewrite elem_of_nil, elem_of_empty.
  - rewrite gatherer_combine_union.
    induction children as [|r children IHc].
    + simpl. by rewrite elem_of_nil, elem_of_empty.
    + rewrite !fmap_cons, union_list_cons.
      by rewrite elem_of_cons, elem_of_union, elem_of_singleton, IHc.
Qed.

(** [InstructionGatherer] returns the set of the ids that the run
    instructions of the tree carry and that its barriers originate
    from, and nothing else. *)
Theorem gatherer_collects_the_ids expr (id_ : string) :
  id_ ∈ Tree.gather expr <-> id_ ∈ Tree.ids_in_order expr.
Proof. apply gather_elem_of. Qed.

(** ** More on the homogenizer *)

Lemma concat_fmap_fmap {A B} (f : A -> B) (ls : list (list A)) :
  concat ((fun l : list A => f <$> l) <$> ls) = f <$> concat ls.
Proof.
  induction ls as [|l ls IH]; [done|].
  rewrite !fmap_cons. cbn [concat]. by rewrite fmap_app, IH.
Qed.

Section HomogenizerIds.

Context {Expression : Type} `{Countable Expression}.
Variable kernel : Tree.LoopKernel Expression.

Local Abbreviation known r :=
  (is_Some (Tree.id_to_insn kernel !! Tree.insn_id r)).
Local Abbreviation key r :=
  ((fun insn => (Tree.within_inames insn, Tree.predicates insn)) <$>
   Tree.id_to_insn kernel !! Tree.insn_id r).
Local Abbreviation known_tree expr :=
  (forall block r, block ∈ Tree.blocks_of expr -> r ∈ block -> known r).
Local Abbreviation ids_of_val val :=
  (concat (Tree.ids_in_order <$> Tree.nodes_of val)).
Local Abbreviation ids_kept expr :=
  (known_tree expr ->
   exists val,
     Tree.rec kernel expr = Ok val /\
     ids_of_val val = Tree.ids_in_order expr).

Lemma ids_in_order_combine (values : list Tree.Mapped) :
  concat (Tree.ids_in_order <$> Tree.combine values) =
  concat ((fun val => ids_of_val val) <$> values).
Proof.
  rewrite combine_nodes_of.
  induction values as [|v values IH]; [done|].
  rewrite !fmap_cons. cbn [concat]. by rewrite fmap_app, concat_app, IH.
Qed.

Lemma mapM_rec_ids_kept (children : list Tree.ScheduleNode) :
  Forall (fun c => ids_kept c) children ->
  (forall c, c ∈ children -> known_tree c) ->
  exists values,
    mapM (Tree.rec kernel) children = Ok values /\
    concat (Tree.ids_in_order <$> Tree.combine values) =
      concat (Tree.ids_in_order <$> children).
Proof.
  induction 1 as [|c children Hc _ IH]; intros Hknown.
  { by exists []. }
  destruct (Hc (Hknown c ltac:(by left))) as (v & Hv & Hids).
  destruct (IH (fun c' Hc' => Hknown c' ltac:(by right))) as (vs & Hvs & Hidss).
  exists (v :: vs). split.
  - cbn [mapM]. rewrite Hv. cbn [mbind result_bind]. rewrite Hvs. done.
  - rewrite ids_in_order_combine in *. rewrite !fmap_cons. cbn [concat].
    by rewrite Hids, Hidss.
Qed.

Lemma rec_ids_kept expr : ids_kept expr.
Proof.
  induction expr as [r|c sk mk oid|children|iname children IH
                     |name ea ei children IH|children IH]
    using ScheduleNode_Forall_ind; intros Hknown.
  - exists (Tree.Node (Tree.Run r)). by destruct r.
  - eexists. split; [reflexivity|]. simpl. by rewrite app_nil_r.
  - destruct (map_instruction_block_spec kernel children)
      as (blocks & Hmap & Hcat & _).
    { intros r Hr. apply (Hknown children); [by left|done]. }
    exists (Tree.GroupedChildren (Tree.InstructionBlock <$> blocks)).
    split; [simpl; by rewrite Hmap|].
    cbn [Tree.nodes_of Tree.ids_in_order].
    rewrite <- list_fmap_compose.
    change (Tree.ids_in_order ∘ Tree.InstructionBlock)
      with (fun l : list Tree.RunInstruction => Tree.insn_id <$> l).
    by rewrite concat_fmap_fmap, Hcat.
  - destruct (mapM_rec_ids_kept children IH) as (vs & Hvs & Hids).
    { intros c Hc block r Hb Hr. apply (Hknown block); [|done].
      cbn [Tree.blocks_of].
      apply (elem_of_concat_2 _ (Tree.blocks_of c)); [|done].
      by apply list_elem_of_fmap_2. }
    eexists. split; [simpl; rewrite Hvs; reflexivity|].
    cbn [Tree.nodes_of]. simpl. by rewrite app_nil_r.
  - destruct (mapM_rec_ids_kept children IH) as (vs & Hvs & Hids).
    { intros c Hc block r Hb Hr. apply (Hknown block); [|done].
      cbn [Tree.blocks_of].
      apply (elem_of_concat_2 _ (Tree.blocks_of c)); [|done].
      by apply list_elem_of_fmap_2. }
    eexists. split; [simpl; rewrite Hvs; reflexivity|].
    cbn [Tree.nodes_of]. simpl. by rewrite app_nil_r.
  - destruct (mapM_rec_ids_kept children IH) as (vs & Hvs & Hids).
    { intros c Hc block r Hb Hr. apply (Hknown block); [|done].
      cbn [Tree.blocks_of].
      apply (elem_of_concat_2 _ (Tree.blocks_of c)); [|done].
      by apply list_elem_of_fmap_2. }
    eexists. split; [simpl; rewrite Hvs; reflexivity|].
    cbn [Tree.nodes_of]. simpl. by rewrite app_nil_r.
Qed.

(** The homogenizer, on a tree whose instructions the kernel knows, keeps
    every instruction id and every originating id of a barrier, in the
    order of the tree; so [InstructionGatherer] finds in the result the
    ids it finds in the tree. *)
Theorem homogenizer_keeps_ids expr :
  known_tree expr ->
  exists val,
    Tree.homogenize_instruction_blocks kernel expr = Ok val /\
    concat (Tree.ids_in_order <$> Tree.nodes_of val) = Tree.ids_in_order expr /\
    Tree.gatherer_combine (Tree.gather <$> Tree.nodes_of val) = Tree.gather expr.
Proof.
  intros Hknown. destruct (rec_ids_kept expr Hknown) as (val & Hval & Hids).
  exists val. split; [done|]. split; [done|].
  apply set_eq. intros id_.
  rewrite gather_elem_of, <- Hids, gatherer_combine_union.
  clear. induction (Tree.nodes_of val) as [|n ns IH].
  - simpl. by rewrite elem_of_nil, elem_of_empty.
  - rewrite !fmap_cons, union_list_cons. cbn [concat].
    by rewrite elem_of_union, elem_of_app, gather_elem_of, IH.
Qed.

End HomogenizerIds.

Section HomogenizerMore.

Context {Expression : Type} `{Countable Expression}.
Variable kernel : Tree.LoopKernel Expression.

Local Abbreviation known r :=
  (is_Some (Tree.id_to_insn kernel !! Tree.insn_id r)).
Local Abbreviation key r :=
  ((fun insn => (Tree.within_inames insn, Tree.predicates insn)) <$>
   Tree.id_to_insn kernel !! Tree.insn_id r).

(** On instructions that are all alike the loop closes no block. *)
Lemma block_loop_homogeneous block insn_blocks similar_run_insns :
  Tree.homogeneous kernel (similar_run_insns ++ block) ->
  Tree.block_loop kernel block (insn_blocks, similar_run_insns) =
  Ok (insn_blocks, similar_run_insns ++ block).
Proof.
  revert similar_run_insns.
  induction block as [|r rest IH]; intros sim Hh.
  { by rewrite app_nil_r. }
  cbn [Tree.block_loop].
  destruct (decide (sim = [])) as [->|Hne].
  - simpl. apply (IH [r]). exact Hh.
  - destruct (exists_last Hne) as (l & x & ->).
    rewrite block_loop_body_snoc.
    pose proof (proj1 (homogeneous_key kernel _) Hh) as Hk.
    assert (x ∈ (l ++ [x]) ++ r :: rest) as Hx
      by (apply elem_of_app; left; apply elem_of_app; right; by left).
    assert (r ∈ (l ++ [x]) ++ r :: rest) as Hr
      by (apply elem_of_app; right; by left).
    destruct (Hk x r Hx Hr) as [Hkx Hkey].
    destruct (Hk r x Hr Hx) as [Hkr _].
    rewrite (_are_insns_similar_spec kernel x r Hkx Hkr).
    rewrite bool_decide_true by done. cbn [mbind result_bind].
    rewrite (IH ((l ++ [x]) ++ [r])) by (by rewrite <- (assoc_L (++))).
    by rewrite <- (assoc_L (++) (l ++ [x]) [r] rest).
Qed.

(** Homogenizing twice is homogenizing once: the homogenizer maps each
    block it has made to that block alone. *)
Theorem homogenizer_fixed_point children :
  (forall r, r ∈ children -> known r) ->
  exists blocks,
    Tree.map_instruction_block kernel children = Ok blocks /\
    Forall (fun block =>
              Tree.map_instruction_block kernel block = Ok [block]) blocks.
Proof.
  intros Hknown.
  destruct (map_instruction_block_spec kernel children Hknown)
    as (blocks & Hmap & _ & Hhom).
  exists blocks. split; [done|].
  eapply Forall_impl; [exact Hhom|].
  intros block Hb. unfold Tree.map_instruction_block.
  by rewrite (block_loop_homogeneous block [] []).
Qed.

(** Splitting a list that ends with a given element. *)
Lemma snoc_eq_app_cons2 {A} (X l1 l2 : list A) (y b1 b2 : A) :
  X ++ [y] = l1 ++ b1 :: b2 :: l2 ->
  (l2 = [] /\ b2 = y /\ X = l1 ++ [b1]) \/
  (exists l2', l2 = l2' ++ [y] /\ X = l1 ++ b1 :: b2 :: l2').
Proof.
  intros Heq. destruct (decide (l2 = [])) as [->|Hne].
  - left. change (l1 ++ [b1; b2]) with (l1 ++ [b1] ++ [b2]) in Heq.
    rewrite (assoc_L (++)) in Heq. apply app_inj_tail in Heq as [-> ->]. done.
  - right. destruct (exists_last Hne) as (l2' & z & ->).
    change (l1 ++ b1 :: b2 :: l2' ++ [z])
      with (l1 ++ (b1 :: b2 :: l2') ++ [z]) in Heq.
    rewrite (assoc_L (++)) in Heq. apply app_inj_tail in Heq as [-> ->].
    by exists l2'.
Qed.

(** The loop of [map_instruction_block] closes a block only before an
    instruction that differs from the last one of the block. *)
Lemma block_loop_boundaries children insn_blocks similar_run_insns :
  (forall r, r ∈ children -> known r) ->
  (forall r, r ∈ similar_run_insns -> known r) ->
  (similar_run_insns = [] -> insn_blocks = []) ->
  (forall l1 b1 b2 l2,
     insn_blocks ++ [similar_run_insns] = l1 ++ b1 :: b2 :: l2 ->
     boundary_differs kernel b1 b2) ->
  exists insn_blocks' similar_run_insns',
    Tree.block_loop kernel children (insn_blocks, similar_run_insns) =
      Ok (insn_blocks', similar_run_insns') /\
    (similar_run_insns' = [] -> children = [] /\ similar_run_insns = []) /\
    (forall l1 b1 b2 l2,
       insn_blocks' ++ [similar_run_insns'] = l1 ++ b1 :: b2 :: l2 ->
       boundary_differs kernel b1 b2).
Proof.
  revert insn_blocks similar_run_insns.
  induction children as [|run_insn rest IH];
    intros insn_blocks sim Hknown Hksim Hempty Hinv.
  { exists insn_blocks, sim. by repeat split. }
  assert (known run_insn) as Hrun by (apply Hknown; by left).
  assert (forall r, r ∈ rest -> known r) as Hrest
    by (intros r Hr; apply Hknown; by right).
  cbn [Tree.block_loop].
  destruct (decide (sim = [])) as [->|Hne].
  - rewrite (Hempty eq_refl) in *. simpl.
    destruct (IH [] [run_insn] Hrest) as (b' & s' & -> & Hs' & Hinv').
    + by intros r ->%list_elem_of_singleton.
    + done.
    + intros [|? [|? ?]] b1 b2 l2 Heq; simplify_eq/=.
    + exists b', s'. split; [done|]. split; [|done].
      intros Hs. by destruct (Hs' Hs).
  - destruct (exists_last Hne) as (l & x & ->).
    rewrite block_loop_body_snoc.
    assert (known x) as Hx
      by (apply Hksim, elem_of_app; right; by left).
    rewrite (_are_insns_similar_spec kernel x run_insn Hx Hrun).
    cbn [mbind result_bind].
    case_bool_decide as Hkey; cbn [mbind result_bind].
    + destruct (IH insn_blocks ((l ++ [x]) ++ [run_insn]) Hrest)
        as (b' & s' & -> & Hs' & Hinv').
      * intros r [Hr| ->%list_elem_of_singleton]%elem_of_app; [by apply Hksim|done].
      * intros Hs. by destruct (l ++ [x]).
      * intros l1 b1 b2 l2 Heq.
        apply snoc_eq_app_cons2 in Heq as [(-> & -> & ->)|(l2' & -> & ->)].
        -- destruct (Hinv l1 b1 (l ++ [x]) [])
             as (r1 & r2 & i1 & i2 & Hl & Hh & E1 & E2 & Hd).
           { by rewrite <- (assoc_L (++)). }
           exists r1, r2, i1, i2. repeat split; try done.
           by destruct l.
        -- apply (Hinv l1 b1 b2 (l2' ++ [l ++ [x]])).
           by rewrite <- (assoc_L (++)).
      * exists b', s'. split; [done|]. split; [|done].
        intros Hs. destruct (Hs' Hs) as [_ Hs'']. by destruct (l ++ [x]).
    + destruct (IH (insn_blocks ++ [l ++ [x]]) [run_insn] Hrest)
        as (b' & s' & -> & Hs' & Hinv').
      * by intros r ->%list_elem_of_singleton.
      * done.
      * intros l1 b1 b2 l2 Heq.
        apply snoc_eq_app_cons2 in Heq as [(-> & -> & Heq)|(l2' & -> & Heq)].
        -- apply app_inj_tail in Heq as [-> <-].
           destruct Hx as [i1 E1], Hrun as [i2 E2].
           exists x, run_insn, i1, i2. rewrite last_snoc.
           repeat split; try done.
           intros [Hw Hp]. apply Hkey. rewrite E1, E2. simpl. by rewrite Hw, Hp.
        -- by apply (Hinv l1 b1 b2 l2').
      * exists b', s'. split; [done|]. split; [|done].
        intros Hs. by destruct (Hs' Hs).
Qed.

(** The homogenizer splits a block only where it must: of two consecutive
    blocks it makes, the last instruction of the first and the first
    instruction of the second differ in their [within_inames] or their
    [predicates]; and it makes no empty block out of a block that is not
    empty. *)
Theorem homogenizer_splits_where_needed children :
  (forall r, r ∈ children -> known r) ->
  exists blocks,
    Tree.map_instruction_block kernel children = Ok blocks /\
    (forall l1 b1 b2 l2,
       blocks = l1 ++ b1 :: b2 :: l2 -> boundary_differs kernel b1 b2) /\
    (children <> [] -> Forall (fun block => block <> []) blocks).
Proof.
  intros Hknown.
  destruct (block_loop_boundaries children [] [] Hknown)
    as (b' & s' & Hloop & Hs' & Hinv).
  { intros r Hr. by apply elem_of_nil in Hr. }
  { done. }
  { intros [|? [|? ?]] b1 b2 l2 Heq; simplify_eq/=. }
  exists (b' ++ [s']). split; [|split].
  - unfold Tree.map_instruction_block. by rewrite Hloop.
  - done.
  - intros Hne. apply Forall_forall. intros block Hin ->.
    apply list_elem_of_split in Hin as (l1 & l2 & Heq).
    destruct (decide (l2 = [])) as [->|Hl2].
    + apply app_inj_tail in Heq as [_ ->]. by destruct (Hs' eq_refl).
    + destruct l2 as [|b2 l2]; [done|].
      destruct (Hinv l1 [] b2 l2 Heq) as (r1 & ? & ? & ? & Hl & _). done.
Qed.

(** The loop of [map_instruction_block] looks up every instruction once
    there are two of them. *)
Lemma block_loop_key_error rest insn_blocks l x :
  rest <> [] ->
  (forall r, r ∈ x :: rest -> known r) \/
  (exists r, r ∈ x :: rest /\ ~ known r /\
     Tree.block_loop kernel rest (insn_blocks, l ++ [x]) =
     Raise (KeyError (Tree.insn_id r))).
Proof.
  revert insn_blocks l x. induction rest as [|run_insn rest IH];
    intros insn_blocks l x Hne; [done|].
  cbn [Tree.block_loop]. rewrite block_loop_body_snoc.
  unfold Tree._are_insns_similar, Tree.lookup_insn.
  destruct (Tree.id_to_insn kernel !! Tree.insn_id x) as [i1|] eqn:E1.
  2:{ right. exists x. split; [by left|]. split; [|done].
      rewrite E1. by intros [? ?]. }
  destruct (Tree.id_to_insn kernel !! Tree.insn_id run_insn) as [i2|] eqn:E2.
  2:{ right. exists run_insn. split; [right; by left|]. split; [|done].
      rewrite E2. by intros [? ?]. }
  cbn [mbind result_bind].
  destruct (decide (rest = [])) as [->|Hrest].
  { left. intros r [->|[->|Hr]%elem_of_cons]%elem_of_cons;
      [by rewrite E1|by rewrite E2|by apply elem_of_nil in Hr]. }
  destruct (bool_decide _ && bool_decide _); cbn [mbind result_bind].
  - destruct (IH insn_blocks (l ++ [x]) run_insn Hrest)
      as [Hall|(r & Hr & Hnk & Hraise)].
    + left. intros r [->|Hr]%elem_of_cons; [by rewrite E1|by apply Hall].
    + right. exists r. split; [by right|]. by split.
  - destruct (IH (insn_blocks ++ [l ++ [x]]) [] run_insn Hrest)
      as [Hall|(r & Hr & Hnk & Hraise)].
    + left. intros r [->|Hr]%elem_of_cons; [by rewrite E1|by apply Hall].
    + right. exists r. split; [by right|]. by split.
Qed.

(** A block of at most one instruction is returned as it is, whatever the
    kernel knows. On a block of two instructions or more every
    instruction is looked up: if the kernel does not know one of them
    the homogenizer raises the [KeyError] of an instruction it does not
    know. *)
Theorem homogenizer_key_error children :
  ((length children <= 1)%nat ->
   Tree.map_instruction_block kernel children = Ok [children]) /\
  ((2 <= length children)%nat ->
   (forall r, r ∈ children -> known r) \/
   (exists r, r ∈ children /\ ~ known r /\
      Tree.map_instruction_block kernel children =
      Raise (KeyError (Tree.insn_id r)))).
Proof.
  split.
  - destruct children as [|r [|? ?]]; simpl; [done|done|lia].
  - destruct children as [|x [|r rest]]; simpl; [lia|lia|]. intros _.
    destruct (block_loop_key_error (r :: rest) [] [] x ltac:(done))
      as [Hall|(r' & Hr' & Hnk & Hraise)]; [by left|].
    right. exists r'. split; [done|]. split; [done|].
    unfold Tree.map_instruction_block.
    change (Tree.block_loop kernel (x :: r :: rest) ([], []))
      with (Tree.block_loop kernel (r :: rest) ([], [] ++ [x])).
    by rewrite Hraise.
Qed.

End HomogenizerMore.

(** * Building the schedule tree *)

Section TreeBuilderFacts.

Import TreeBuilder.

Lemma linearize_close n :
  linearize (close n) =
  linearize_open n ++
  match n with
  | OpenFunction name _ _ _ => [ReturnFromKernel name]
  | OpenLoop iname _ => [LeaveLoop iname]
  | _ => []
  end.
Proof. destruct n; simpl; by rewrite ?app_nil_r. Qed.

Lemma linearize_stack_cons n stack :
  linearize_stack (n :: stack) = linearize_stack stack ++ linearize_open n.
Proof. done. Qed.

Lemma linearize_open_append_child n child :
  is_block n = false ->
  linearize_open (append_child n child) = linearize_open n ++ linearize child.
Proof.
  destruct n; simpl; try done; intros _;
    by rewrite fmap_app, concat_app; simpl; rewrite app_nil_r.
Qed.

Lemma stack_ok_append_child n child rest :
  stack_ok (n :: rest) = true -> stack_ok (append_child n child :: rest) = true.
Proof. destruct n, rest; simpl; try done. Qed.

Lemma is_block_append_child n child :
  is_block (append_child n child) = is_block n.
Proof. by destruct n. Qed.

Lemma stack_ok_push n stack :
  stack_ok stack = true -> is_schedule n = false ->
  match stack with top :: _ => is_block top = false | [] => True end ->
  stack_ok (n :: stack) = true.
Proof.
  destruct stack as [|top rest]; [done|]. intros Hok Hn Htop.
  change (stack_ok (n :: top :: rest))
    with (negb (is_schedule n) && negb (is_block top) && stack_ok (top :: rest)).
  by rewrite Hn, Htop, Hok.
Qed.

(** Ending an instruction block changes nothing to the items the stack
    stands for, and leaves a node that is not a block on top. *)
Lemma end_instruction_block_spec stack :
  stack_ok stack = true ->
  exists top rest,
    end_instruction_block stack = inr (top :: rest) /\
    linearize_stack (top :: rest) = linearize_stack stack /\
    stack_ok (top :: rest) = true /\ is_block top = false.
Proof.
  destruct stack as [|top [|below rest]]; [done| |].
  - destruct top; try done. intros _. by eexists _, _.
  - intros Hok. destruct (is_block top) eqn:Htop.
    + pose proof Hok as Hok'. cbn [stack_ok] in Hok'.
      apply andb_true_iff in Hok' as [[_ Hb]%andb_true_iff Hrest].
      apply negb_true_iff in Hb.
      exists (append_child below (close top)), rest.
      unfold end_instruction_block. rewrite Htop. cbn [pop].
      split; [done|]. split; [|split].
      * cbn [linearize_stack].
        rewrite linearize_open_append_child, linearize_close by done.
        destruct top; try done. by rewrite app_nil_r, (assoc_L (++)).
      * by apply stack_ok_append_child.
      * by rewrite is_block_append_child.
    + exists top, (below :: rest). unfold end_instruction_block.
      by rewrite Htop.
Qed.

(** One iteration adds its item to the items the stack stands for. *)
Lemma build_step_spec sched_item stack stack' :
  stack_ok stack = true ->
  build_step sched_item stack = inr stack' ->
  stack_ok stack' = true /\
  linearize_stack stack' = linearize_stack stack ++ [sched_item].
Proof.
  intros Hok.
  destruct (end_instruction_block_spec stack Hok)
    as (top & rest & Hend & Hlin & Hok1 & Htop).
  destruct sched_item as [name ea ei|name|iname|iname|id_|c sk mk oid|];
    cbn [build_step].
  - unfold make_and_enter_function. rewrite Hend. cbn [bind_build assert_current].
    destruct (is_schedule top) eqn:Hs; [|done]. intros [= <-]. split.
    + by apply stack_ok_push.
    + by rewrite linearize_stack_cons, Hlin.
  - unfold exit_function, exit_with. rewrite Hend.
    cbn [bind_build assert_current].
    destruct top as [|n ea ei ch| |]; try done. cbn [is_function bind_build].
    destruct rest as [|below rest]; [done|]. cbn [pop close bind_build node_name].
    case_bool_decide as Hname; [|done]. injection Hname as <-.
    intros [= <-].
    cbn [stack_ok] in Hok1.
    apply andb_true_iff in Hok1 as [[_ Hb]%andb_true_iff Hrest].
    apply negb_true_iff in Hb. split.
    + by apply stack_ok_append_child.
    + rewrite <- Hlin. cbn [linearize_stack].
      rewrite linearize_open_append_child by done.
      cbn [linearize linearize_open]. by rewrite <- !(assoc_L (++)).
  - unfold make_and_enter_loop. rewrite Hend. cbn [bind_build assert_current].
    destruct (is_schedule_function_or_loop top) eqn:Hs; [|done].
    intros [= <-]. split.
    + by apply stack_ok_push.
    + by rewrite linearize_stack_cons, Hlin.
  - unfold exit_loop, exit_with. rewrite Hend.
    cbn [bind_build assert_current].
    destruct top as [| |i ch|]; try done. cbn [is_loop bind_build].
    destruct rest as [|below rest]; [done|]. cbn [pop close bind_build node_name].
    case_bool_decide as Hname; [|done]. injection Hname as <-.
    intros [= <-].
    cbn [stack_ok] in Hok1.
    apply andb_true_iff in Hok1 as [[_ Hb]%andb_true_iff Hrest].
    apply negb_true_iff in Hb. split.
    + by apply stack_ok_append_child.
    + rewrite <- Hlin. cbn [linearize_stack].
      rewrite linearize_open_append_child by done.
      cbn [linearize linearize_open]. by rewrite <- !(assoc_L (++)).
  - unfold add_run_instruction.
    destruct stack as [|top0 rest0]; [done|].
    destruct (is_block top0) eqn:Hb0.
    + destruct top0 as [| | |ch]; try done. cbn [bind_build].
      intros [= <-]. split.
      * by destruct rest0.
      * cbn [linearize_stack linearize_open].
        by rewrite fmap_app, (assoc_L (++)).
    + unfold make_and_enter_instruction_block. cbn [assert_current].
      assert (is_schedule_function_or_loop top0 = true) as ->
        by (by destruct top0).
      cbn [bind_build]. intros [= <-]. split.
      * cbn [stack_ok]. rewrite Hb0. by destruct rest0.
      * by rewrite linearize_stack_cons.
  - unfold add_barrier. rewrite Hend. cbn [bind_build assert_current].
    destruct (is_schedule_function_or_loop top) eqn:Hs; [|done].
    cbn [bind_build]. intros [= <-]. split.
    + by apply stack_ok_append_child.
    + rewrite <- Hlin. cbn [linearize_stack].
      rewrite linearize_open_append_child by done.
      cbn [linearize]. by rewrite (assoc_L (++)).
  - done.
Qed.

Lemma build_loop_spec schedule stack stack' :
  stack_ok stack = true ->
  build_loop schedule stack = inr stack' ->
  stack_ok stack' = true /\
  linearize_stack stack' = linearize_stack stack ++ schedule.
Proof.
  revert stack. induction schedule as [|item rest IH]; intros stack Hok.
  { intros [= <-]. by rewrite app_nil_r. }
  cbn [build_loop].
  destruct (build_step item stack) as [e|stack1] eqn:Hstep; [done|].
  cbn [bind_build]. intros Hloop.
  destruct (build_step_spec _ _ _ Hok Hstep) as [Hok1 Hlin1].
  destruct (IH _ Hok1 Hloop) as [Hok' Hlin'].
  split; [done|]. by rewrite Hlin', Hlin1, <- (assoc_L (++)).
Qed.

End TreeBuilderFacts.

Lemma make_schedule_tree_linearize schedule tree :
  TreeBuilder.make_schedule_tree schedule = inr tree ->
  (exists children, tree = Tree.Schedule children) /\
  TreeBuilder.linearize tree = schedule.
Proof.
  unfold TreeBuilder.make_schedule_tree.
  destruct (TreeBuilder.build_loop schedule [TreeBuilder.OpenSchedule []])
    as [e|stack] eqn:Hloop; [done|].
  cbn [TreeBuilder.bind_build].
  destruct (build_loop_spec schedule [TreeBuilder.OpenSchedule []] stack
              eq_refl Hloop) as [Hok Hlin].
  destruct (end_instruction_block_spec stack Hok)
    as (top & rest & Hend & Hlin' & Hok' & Htop).
  unfold TreeBuilder.exit, TreeBuilder.exit_with. rewrite Hend.
  cbn [TreeBuilder.bind_build TreeBuilder.assert_current].
  destruct top as [ch| | |]; try done.
  destruct rest as [|below rest]; [|done].
  cbn [TreeBuilder.is_schedule TreeBuilder.bind_build TreeBuilder.pop
       TreeBuilder.close].
  intros [= <-]. split; [by eexists|].
  rewrite Hlin in Hlin'. exact Hlin'.
Qed.

(** The tree [make_schedule_tree] builds is a [Schedule] that stands for
    the schedule it was built from: written out in order, with every loop
    between its [EnterLoop] and [LeaveLoop] and every function between
    its [CallKernel] and [ReturnFromKernel], it gives back the items. So
    it is built only from a schedule that is nested in this way. *)
Theorem make_schedule_tree_round_trip schedule tree :
  TreeBuilder.make_schedule_tree schedule = inr tree ->
  (exists children, tree = Tree.Schedule children) /\
  TreeBuilder.linearize tree = schedule.
Proof. apply make_schedule_tree_linearize. Qed.

Section TreeBuilderNormal.

Import TreeBuilder.

Lemma ends_with_block_snoc ch c :
  ends_with_block (ch ++ [c]) = is_instruction_block c.
Proof. unfold ends_with_block. by rewrite last_snoc. Qed.

Lemma ends_with_block_cons a b rest :
  ends_with_block (a :: b :: rest) = ends_with_block (b :: rest).
Proof. done. Qed.

Lemma separated_snoc ch c :
  separated (ch ++ [c]) =
  separated ch && negb (ends_with_block ch && is_instruction_block c).
Proof.
  induction ch as [|a [|b rest] IH].
  - done.
  - simpl. unfold ends_with_block. simpl. by rewrite andb_true_r.
  - change (separated ((a :: b :: rest) ++ [c]))
      with (negb (is_instruction_block a && is_instruction_block b) &&
            separated ((b :: rest) ++ [c])).
    change (separated (a :: b :: rest))
      with (negb (is_instruction_block a && is_instruction_block b) &&
            separated (b :: rest)).
    by rewrite IH, ends_with_block_cons, andb_assoc.
Qed.

Lemma children_ok_snoc ctx ch c :
  children_ok ctx ch = true -> normal ctx c = true ->
  (is_instruction_block c = true -> ends_with_block ch = false) ->
  children_ok ctx (ch ++ [c]) = true.
Proof.
  unfold children_ok. intros [Hsep Hall]%andb_true_iff Hc Hib.
  rewrite separated_snoc, forallb_app, Hsep, Hall. simpl. rewrite Hc.
  destruct (is_instruction_block c); [by rewrite Hib|by rewrite andb_false_r].
Qed.

Lemma open_ok_append_child below c :
  is_block below = false -> open_ok below = true ->
  normal (negb (is_schedule below)) c = true ->
  (is_instruction_block c = true -> no_trailing_block below = true) ->
  open_ok (append_child below c) = true.
Proof.
  intros Hb Hok Hc Hib.
  assert (is_instruction_block c = true ->
          ends_with_block (open_children below) = false) as Hib'
    by (intros Hi; by apply negb_true_iff, Hib).
  destruct below; try done; simpl in *; by apply children_ok_snoc.
Qed.

Lemma normal_close n ctx :
  open_ok n = true -> is_schedule n = false ->
  (is_function n = true -> ctx = false) ->
  normal ctx (close n) = true.
Proof.
  destruct n; simpl; try done.
  intros Hok _ Hctx. by rewrite (Hctx eq_refl).
Qed.

Lemma no_trailing_block_append_child below c :
  is_block below = false ->
  no_trailing_block (append_child below c) = negb (is_instruction_block c).
Proof.
  intros Hb. unfold no_trailing_block.
  destruct below; try done; simpl; by rewrite ends_with_block_snoc.
Qed.

Lemma stack_nf_append_child below c rest :
  is_block below = false ->
  stack_nf (below :: rest) = true ->
  open_ok (append_child below c) = true ->
  stack_nf (append_child below c :: rest) = true.
Proof.
  intros Hb Hnf Hok. cbn [stack_nf] in *. rewrite Hok.
  apply andb_true_iff in Hnf as [[_ Hcond]%andb_true_iff Hrest].
  rewrite Hrest, andb_true_r. simpl.
  destruct rest as [|below' rest']; [done|].
  rewrite is_block_append_child, Hb in *.
  by destruct below.
Qed.

Lemma stack_nf_push n stack :
  stack_nf stack = true -> open_ok n = true -> is_block n = false ->
  (is_function n = true ->
   match stack with below :: _ => is_schedule below = true | [] => True end) ->
  stack_nf (n :: stack) = true.
Proof.
  intros Hnf Hok Hb Hf. cbn [stack_nf]. rewrite Hok, Hnf, Hb, andb_true_r. simpl.
  destruct stack as [|below rest]; [done|].
  destruct (is_function n); [by rewrite Hf|done].
Qed.

(** Ending an instruction block gives the settled stack, which holds
    children as the builder makes them. *)
Lemma end_instruction_block_nf stack :
  stack_ok stack = true -> stack_nf stack = true ->
  end_instruction_block stack = inr (settle stack) /\
  stack_nf (settle stack) = true.
Proof.
  destruct stack as [|top [|below rest]]; [done| |].
  - destruct top; try done.
  - intros Hok Hnf. destruct top as [| | |ch]; try done.
    cbn [stack_ok] in Hok.
    apply andb_true_iff in Hok as [[_ Hb]%andb_true_iff _].
    apply negb_true_iff in Hb.
    split; [done|]. cbn [settle].
    pose proof Hnf as Hnf'. cbn [stack_nf] in Hnf'.
    apply andb_true_iff in Hnf' as [[Hoktop Hcond]%andb_true_iff Hrest].
    simpl in Hcond.
    apply stack_nf_append_child; [done|done|].
    apply open_ok_append_child; try done.
    cbn [stack_nf] in Hrest. by apply andb_true_iff in Hrest as [[? _]%andb_true_iff _].
Qed.

Lemma settle_spec stack :
  stack_ok stack = true ->
  exists top rest,
    settle stack = top :: rest /\ is_block top = false /\
    stack_ok (top :: rest) = true.
Proof.
  intros Hok. destruct (end_instruction_block_spec stack Hok)
    as (top & rest & Hend & _ & Hok' & Htop).
  exists top, rest. split; [|done].
  destruct stack as [|t [|below rest']]; [done| |].
  - destruct t; simpl in *; congruence.
  - destruct t; simpl in *; congruence.
Qed.

(** The invariant of the stack is kept by every iteration. *)
Lemma build_step_inv sched_item stack stack' :
  stack_inv stack = true ->
  build_step sched_item stack = inr stack' ->
  stack_inv stack' = true.
Proof.
  unfold stack_inv at 1.
  intros [[Hok Hnf]%andb_true_iff Htopinv]%andb_true_iff Hstep.
  destruct (build_step_spec _ _ _ Hok Hstep) as [Hok' _].
  destruct (end_instruction_block_nf stack Hok Hnf) as [Hend Hnfs].
  destruct (settle_spec stack Hok) as (top & rest & Hset & Htop & Hoks).
  rewrite Hset in Hend, Hnfs.
  unfold stack_inv. rewrite Hok'. simpl.
  destruct sched_item as [name ea ei|name|iname|iname|id_|c sk mk oid|];
    cbn [build_step] in Hstep.
  - unfold make_and_enter_function in Hstep. rewrite Hend in Hstep.
    cbn [bind_build assert_current] in Hstep.
    destruct (is_schedule top) eqn:Hs; [|done]. injection Hstep as <-.
    rewrite stack_nf_push; try done.
  - unfold exit_function, exit_with in Hstep. rewrite Hend in Hstep.
    cbn [bind_build assert_current] in Hstep.
    destruct top as [|n ea ei ch| |]; try done.
    cbn [is_function bind_build] in Hstep.
    destruct rest as [|below rest]; [done|].
    cbn [pop close bind_build node_name] in Hstep.
    case_bool_decide; [|done]. injection Hstep as <-.
    pose proof Hnfs as Hnfs'. cbn [stack_nf] in Hnfs'.
    apply andb_true_iff in Hnfs' as [[Hoktop Hcond]%andb_true_iff Hrest].
    simpl in Hcond. rewrite andb_true_r in Hcond.
    cbn [stack_ok] in Hoks.
    apply andb_true_iff in Hoks as [[_ Hb]%andb_true_iff _].
    apply negb_true_iff in Hb.
    rewrite no_trailing_block_append_child by done. simpl.
    rewrite andb_true_r. apply stack_nf_append_child; [done|done|].
    apply open_ok_append_child; try done.
    + cbn [stack_nf] in Hrest.
      by apply andb_true_iff in Hrest as [[? _]%andb_true_iff _].
    + rewrite Hcond. exact Hoktop.
  - unfold make_and_enter_loop in Hstep. rewrite Hend in Hstep.
    cbn [bind_build assert_current] in Hstep.
    destruct (is_schedule_function_or_loop top) eqn:Hs; [|done].
    injection Hstep as <-.
    rewrite stack_nf_push; try done.
  - unfold exit_loop, exit_with in Hstep. rewrite Hend in Hstep.
    cbn [bind_build assert_current] in Hstep.
    destruct top as [| |i ch|]; try done.
    cbn [is_loop bind_build] in Hstep.
    destruct rest as [|below rest]; [done|].
    cbn [pop close bind_build node_name] in Hstep.
    case_bool_decide; [|done]. injection Hstep as <-.
    pose proof Hnfs as Hnfs'. cbn [stack_nf] in Hnfs'.
    apply andb_true_iff in Hnfs' as [[Hoktop Hcond]%andb_true_iff Hrest].
    cbn [stack_ok] in Hoks.
    apply andb_true_iff in Hoks as [[_ Hb]%andb_true_iff _].
    apply negb_true_iff in Hb.
    rewrite no_trailing_block_append_child by done. simpl.
    rewrite andb_true_r. apply stack_nf_append_child; [done|done|].
    apply open_ok_append_child; try done.
    cbn [stack_nf] in Hrest.
    by apply andb_true_iff in Hrest as [[? _]%andb_true_iff _].
  - unfold add_run_instruction in Hstep.
    destruct stack as [|top0 rest0]; [done|].
    destruct (is_block top0) eqn:Hb0.
    + destruct top0 as [| | |ch]; try done. cbn [bind_build] in Hstep.
      injection Hstep as <-. rewrite andb_true_r.
      cbn [stack_nf] in Hnf.
      apply andb_true_iff in Hnf as [[_ Hcond]%andb_true_iff Hrest].
      cbn [stack_nf].
      apply andb_true_iff; split; [apply andb_true_iff; split|exact Hrest].
      * simpl. apply negb_true_iff, bool_decide_eq_false. by destruct ch.
      * exact Hcond.
    + unfold make_and_enter_instruction_block in Hstep.
      cbn [assert_current] in Hstep.
      assert (is_schedule_function_or_loop top0 = true) as Hs
        by (by destruct top0).
      rewrite Hs in Hstep. cbn [bind_build] in Hstep. injection Hstep as <-.
      rewrite andb_true_r.
      change (stack_nf (OpenBlock [Tree.mkRunInstruction id_] :: top0 :: rest0))
        with (true && (true && no_trailing_block top0) && stack_nf (top0 :: rest0)).
      by rewrite Htopinv, Hnf.
  - unfold add_barrier in Hstep. rewrite Hend in Hstep.
    cbn [bind_build assert_current] in Hstep.
    destruct (is_schedule_function_or_loop top) eqn:Hs; [|done].
    cbn [bind_build] in Hstep. injection Hstep as <-.
    rewrite no_trailing_block_append_child by done. simpl.
    rewrite andb_true_r. apply stack_nf_append_child; [done|done|].
    apply open_ok_append_child; try done.
    cbn [stack_nf] in Hnfs.
    by apply andb_true_iff in Hnfs as [[? _]%andb_true_iff _].
  - done.
Qed.

Lemma build_loop_inv schedule stack stack' :
  stack_inv stack = true ->
  build_loop schedule stack = inr stack' ->
  stack_inv stack' = true.
Proof.
  revert stack. induction schedule as [|item rest IH]; intros stack Hinv.
  { by intros [= <-]. }
  cbn [build_loop].
  destruct (build_step item stack) as [e|stack1] eqn:Hstep; [done|].
  cbn [bind_build]. intros Hloop.
  eapply IH; [|exact Hloop]. by eapply build_step_inv.
Qed.

End TreeBuilderNormal.

(** In the tree [make_schedule_tree] builds, no instruction block is
    empty, no two instruction blocks are next to each other (a block
    holds a whole run of instructions), every run instruction is in a
    block, and the functions are children of the schedule itself. *)
Theorem make_schedule_tree_normal schedule tree :
  TreeBuilder.make_schedule_tree schedule = inr tree ->
  TreeBuilder.normal_schedule tree = true.
Proof.
  unfold TreeBuilder.make_schedule_tree.
  destruct (TreeBuilder.build_loop schedule [TreeBuilder.OpenSchedule []])
    as [e|stack] eqn:Hloop; [done|].
  cbn [TreeBuilder.bind_build].
  pose proof (build_loop_inv schedule [TreeBuilder.OpenSchedule []] stack
                eq_refl Hloop) as Hinv.
  unfold TreeBuilder.stack_inv in Hinv.
  apply andb_true_iff in Hinv as [[Hok Hnf]%andb_true_iff _].
  destruct (end_instruction_block_nf stack Hok Hnf) as [Hend Hnfs].
  destruct (settle_spec stack Hok) as (top & rest & Hset & Htop & Hoks).
  rewrite Hset in Hend, Hnfs.
  unfold TreeBuilder.exit, TreeBuilder.exit_with. rewrite Hend.
  cbn [TreeBuilder.bind_build TreeBuilder.assert_current].
  destruct top as [ch| | |]; try done.
  destruct rest as [|below rest]; [|done].
  cbn [TreeBuilder.is_schedule TreeBuilder.bind_build TreeBuilder.pop
       TreeBuilder.close].
  intros [= <-]. cbn [TreeBuilder.stack_nf] in Hnfs.
  by apply andb_true_iff in Hnfs as [[? _]%andb_true_iff _].
Qed.

Section TreeBuilderComplete.

Import TreeBuilder.

Lemma end_instruction_block_settle stack :
  stack_ok stack = true -> end_instruction_block stack = inr (settle stack).
Proof.
  destruct stack as [|top [|below rest]]; [done| |].
  - by destruct top.
  - by destruct top.
Qed.

Lemma settle_not_block top rest :
  is_block top = false -> settle (top :: rest) = top :: rest.
Proof. by destruct top. Qed.

Lemma open_children_append_child top c :
  is_block top = false ->
  open_children (append_child top c) = open_children top ++ [c].
Proof. by destruct top. Qed.

Lemma is_schedule_append_child top c :
  is_schedule (append_child top c) = is_schedule top.
Proof. by destruct top. Qed.

Lemma separated_app_l l1 l2 :
  separated (l1 ++ l2) = true -> separated l1 = true.
Proof.
  revert l1. induction l2 as [|c l2 IH] using rev_ind; intros l1.
  - by rewrite app_nil_r.
  - rewrite (assoc_L (++)), separated_snoc.
    intros [Hs _]%andb_true_iff. by apply IH.
Qed.

Lemma separated_app_cons chs c cs :
  separated (chs ++ c :: cs) = true ->
  is_instruction_block c = true -> ends_with_block chs = false.
Proof.
  intros Hsep Hc.
  change (chs ++ c :: cs) with (chs ++ [c] ++ cs) in Hsep.
  rewrite (assoc_L (++)) in Hsep. apply separated_app_l in Hsep.
  rewrite separated_snoc, Hc, andb_true_r in Hsep.
  apply andb_true_iff in Hsep as [_ Hsep]. by apply negb_true_iff in Hsep.
Qed.

(** The run instructions of a block extend the block that is open. *)
Lemma build_loop_runs ch b stack rest_items :
  build_loop (((fun r => RunInstruction (Tree.insn_id r)) <$> ch) ++ rest_items)
             (OpenBlock b :: stack) =
  build_loop rest_items (OpenBlock (b ++ ch) :: stack).
Proof.
  revert b. induction ch as [|[id_] ch IH]; intros b.
  { by rewrite app_nil_r. }
  rewrite fmap_cons. cbn [app build_loop build_step].
  unfold add_run_instruction. cbn [is_block bind_build Tree.insn_id].
  by rewrite IH, <- (assoc_L (++)).
Qed.

(** What building a child, and a list of children, comes to. *)
Local Abbreviation built_child c :=
  (forall stack top below rest_items,
     stack_ok stack = true ->
     settle stack = top :: below ->
     normal (negb (is_schedule top)) c = true ->
     (is_instruction_block c = true ->
      ends_with_block (open_children top) = false) ->
     exists stack',
       build_loop (linearize c ++ rest_items) stack =
         build_loop rest_items stack' /\
       stack_ok stack' = true /\
       settle stack' = append_child top c :: below).

Lemma build_children cs :
  Forall (fun c => built_child c) cs ->
  forall stack top below rest_items,
    stack_ok stack = true ->
    settle stack = top :: below ->
    forallb (normal (negb (is_schedule top))) cs = true ->
    separated (open_children top ++ cs) = true ->
    exists stack',
      build_loop (concat (linearize <$> cs) ++ rest_items) stack =
        build_loop rest_items stack' /\
      stack_ok stack' = true /\
      settle stack' = foldl append_child top cs :: below.
Proof.
  induction 1 as [|c cs Hc _ IH];
    intros stack top below rest_items Hok Hset Hall Hsep.
  { exists stack. by repeat split. }
  cbn [forallb] in Hall. apply andb_true_iff in Hall as [Hnc Hall].
  destruct (settle_spec stack Hok) as (top' & rest' & Hset' & Htop & _).
  rewrite Hset in Hset'. injection Hset' as <- <-.
  rewrite fmap_cons. cbn [concat]. rewrite <- (assoc_L (++)).
  destruct (Hc stack top below (concat (linearize <$> cs) ++ rest_items)
              Hok Hset Hnc) as (stack1 & Hb1 & Hok1 & Hset1).
  { by apply (separated_app_cons _ c cs). }
  destruct (IH stack1 (append_child top c) below rest_items Hok1 Hset1)
    as (stack2 & Hb2 & Hok2 & Hset2).
  { by rewrite is_schedule_append_child. }
  { rewrite open_children_append_child by done.
    by rewrite <- (assoc_L (++)). }
  exists stack2. rewrite Hb1, Hb2. by repeat split.
Qed.

Lemma foldl_append_child_loop iname l cs :
  foldl append_child (OpenLoop iname l) cs = OpenLoop iname (l ++ cs).
Proof.
  revert l. induction cs as [|c cs IH]; intros l; simpl.
  - by rewrite app_nil_r.
  - by rewrite IH, <- (assoc_L (++)).
Qed.

Lemma foldl_append_child_function name ea ei l cs :
  foldl append_child (OpenFunction name ea ei l) cs =
  OpenFunction name ea ei (l ++ cs).
Proof.
  revert l. induction cs as [|c cs IH]; intros l; simpl.
  - by rewrite app_nil_r.
  - by rewrite IH, <- (assoc_L (++)).
Qed.

Lemma foldl_append_child_schedule l cs :
  foldl append_child (OpenSchedule l) cs = OpenSchedule (l ++ cs).
Proof.
  revert l. induction cs as [|c cs IH]; intros l; simpl.
  - by rewrite app_nil_r.
  - by rewrite IH, <- (assoc_L (++)).
Qed.

Lemma stack_ok_top_not_block top below :
  stack_ok (top :: below) = true -> is_block top = false ->
  match below with b :: _ => is_block b = false | [] => True end.
Proof.
  destruct below as [|b rest]; [done|]. cbn [stack_ok].
  intros [[_ Hb]%andb_true_iff _]%andb_true_iff _. by apply negb_true_iff.
Qed.

Lemma build_child c : built_child c.
Proof.
  induction c as [r|c sk mk oid|children|iname children IH
                  |name ea ei children IH|children IH]
    using ScheduleNode_Forall_ind;
    intros stack top below rest_items Hok Hset Hn Hsepc.
  - done.
  - (* Barrier *)
    destruct (settle_spec stack Hok) as (top' & rest' & Hset' & Htop & Hoks).
    rewrite Hset in Hset'. injection Hset' as <- <-.
    eexists. cbn [linearize app build_loop build_step]. unfold add_barrier.
    rewrite (end_instruction_block_settle stack Hok), Hset.
    cbn [bind_build assert_current].
    assert (is_schedule_function_or_loop top = true) as -> by (by destruct top).
    cbn [bind_build]. split; [reflexivity|]. split.
    + by apply stack_ok_append_child.
    + apply settle_not_block. by rewrite is_block_append_child.
  - (* InstructionBlock *)
    destruct (settle_spec stack Hok) as (top' & rest' & Hset' & Htop & Hoks).
    rewrite Hset in Hset'. injection Hset' as <- <-.
    specialize (Hsepc eq_refl).
    assert (stack = top :: below) as ->.
    { destruct stack as [|t [|b rest]]; [done| |].
      - by destruct t.
      - destruct t as [| | |chb]; try done. cbn [settle] in Hset.
        injection Hset as <- <-.
        cbn [stack_ok] in Hok.
        apply andb_true_iff in Hok as [[_ Hb]%andb_true_iff _].
        apply negb_true_iff in Hb.
        rewrite open_children_append_child, ends_with_block_snoc in Hsepc by done.
        done. }
    destruct children as [|[id_] children]; [done|].
    cbn [linearize]. rewrite fmap_cons. cbn [app build_loop build_step].
    unfold add_run_instruction. rewrite Htop.
    unfold make_and_enter_instruction_block. cbn [assert_current].
    assert (is_schedule_function_or_loop top = true) as -> by (by destruct top).
    cbn [bind_build Tree.insn_id]. rewrite build_loop_runs.
    eexists. split; [reflexivity|]. split.
    + cbn [stack_ok]. rewrite Htop. by destruct below.
    + done.
  - (* Loop *)
    destruct (settle_spec stack Hok) as (top' & rest' & Hset' & Htop & Hoks).
    rewrite Hset in Hset'. injection Hset' as <- <-.
    cbn [normal] in Hn. apply andb_true_iff in Hn as [Hsep Hall].
    cbn [linearize app build_loop build_step]. unfold make_and_enter_loop.
    rewrite (end_instruction_block_settle stack Hok), Hset.
    cbn [bind_build assert_current].
    assert (is_schedule_function_or_loop top = true) as -> by (by destruct top).
    cbn [bind_build]. rewrite <- (assoc_L (++)).
    destruct (build_children children IH (OpenLoop iname [] :: top :: below)
                (OpenLoop iname []) (top :: below)
                ([LeaveLoop iname] ++ rest_items))
      as (stack2 & Hb2 & Hok2 & Hset2); try done.
    { by apply stack_ok_push. }
    rewrite Hb2, foldl_append_child_loop in *. simpl in Hset2.
    cbn [app build_loop build_step]. unfold exit_loop, exit_with.
    rewrite (end_instruction_block_settle stack2 Hok2), Hset2.
    cbn [bind_build assert_current is_loop pop close node_name].
    rewrite bool_decide_true by done.
    eexists. split; [reflexivity|]. split.
    + by apply stack_ok_append_child.
    + apply settle_not_block. by rewrite is_block_append_child.
  - (* Function *)
    destruct (settle_spec stack Hok) as (top' & rest' & Hset' & Htop & Hoks).
    rewrite Hset in Hset'. injection Hset' as <- <-.
    cbn [normal] in Hn. apply andb_true_iff in Hn as [Hctx Hn].
    apply andb_true_iff in Hn as [Hsep Hall].
    rewrite negb_involutive in Hctx.
    cbn [linearize app build_loop build_step]. unfold make_and_enter_function.
    rewrite (end_instruction_block_settle stack Hok), Hset.
    cbn [bind_build assert_current]. rewrite Hctx.
    cbn [bind_build]. rewrite <- (assoc_L (++)).
    destruct (build_children children IH
                (OpenFunction name ea ei [] :: top :: below)
                (OpenFunction name ea ei []) (top :: below)
                ([ReturnFromKernel name] ++ rest_items))
      as (stack2 & Hb2 & Hok2 & Hset2); try done.
    { by apply stack_ok_push. }
    rewrite Hb2, foldl_append_child_function in *. simpl in Hset2.
    cbn [app build_loop build_step]. unfold exit_function, exit_with.
    rewrite (end_instruction_block_settle stack2 Hok2), Hset2.
    cbn [bind_build assert_current is_function pop close node_name].
    rewrite bool_decide_true by done.
    eexists. split; [reflexivity|]. split.
    + by apply stack_ok_append_child.
    + apply settle_not_block. by rewrite is_block_append_child.
  - done.
Qed.

End TreeBuilderComplete.

(** [make_schedule_tree] builds every tree of the kind it builds from
    the items the tree stands for: it undoes writing such a tree out as
    a schedule. *)
Theorem make_schedule_tree_of_linearize tree :
  TreeBuilder.normal_schedule tree = true ->
  TreeBuilder.make_schedule_tree (TreeBuilder.linearize tree) = inr tree.
Proof.
  destruct tree as [| | | | |children]; try done.
  cbn [TreeBuilder.normal_schedule]. unfold TreeBuilder.children_ok.
  intros [Hsep Hall]%andb_true_iff.
  destruct (build_children children
              ltac:(apply Forall_forall; intros c _; apply build_child)
              [TreeBuilder.OpenSchedule []] (TreeBuilder.OpenSchedule []) [] [])
    as (stack' & Hb & Hok & Hset); try done.
  unfold TreeBuilder.make_schedule_tree.
  cbn [TreeBuilder.linearize]. rewrite app_nil_r in Hb. rewrite Hb.
  cbn [TreeBuilder.build_loop TreeBuilder.bind_build].
  unfold TreeBuilder.exit, TreeBuilder.exit_with.
  rewrite (end_instruction_block_settle stack' Hok), Hset.
  by rewrite foldl_append_child_schedule.
Qed.

(** ** The ids of the tree that is built *)

Lemma ids_in_order_linearize expr :
  Tree.ids_in_order expr =
  omap TreeBuilder.usable_id (TreeBuilder.linearize expr).
Proof.
  assert (forall children,
            Forall (fun c => Tree.ids_in_order c =
                             omap TreeBuilder.usable_id (TreeBuilder.linearize c))
                   children ->
            concat (Tree.ids_in_order <$> children) =
            omap TreeBuilder.usable_id
                 (concat (TreeBuilder.linearize <$> children))) as Hch.
  { induction 1 as [|c children Hc _ IH]; [done|].
    rewrite !fmap_cons. cbn [concat]. by rewrite omap_app, Hc, IH. }
  induction expr as [r|c sk mk oid|children|iname children IH
                     |name ea ei children IH|children IH]
    using ScheduleNode_Forall_ind;
    cbn [Tree.ids_in_order TreeBuilder.linearize].
  - done.
  - by destruct oid.
  - induction children as [|r children IHc]; [done|].
    rewrite !fmap_cons. cbn [omap list_omap TreeBuilder.usable_id].
    by rewrite IHc.
  - cbn [omap list_omap TreeBuilder.usable_id].
    rewrite omap_app. simpl. by rewrite app_nil_r, Hch.
  - cbn [omap list_omap TreeBuilder.usable_id].
    rewrite omap_app. simpl. by rewrite app_nil_r, Hch.
  - by apply Hch.
Qed.

(** The ids [InstructionGatherer] finds in the tree that
    [make_schedule_tree] builds are the ids that the items of the
    schedule carry: those of its run instructions and the originating ids
    of its barriers. *)
Theorem gather_of_built_tree schedule tree (id_ : string) :
  TreeBuilder.make_schedule_tree schedule = inr tree ->
  id_ ∈ Tree.gather tree <->
  exists item, item ∈ schedule /\ TreeBuilder.usable_id item = Some id_.
Proof.
  intros [_ Hlin]%make_schedule_tree_linearize.
  rewrite gather_elem_of, ids_in_order_linearize, Hlin.
  apply list_elem_of_omap.
Qed.

(** ** The homogenizer on a whole tree, stated for its entry point *)

(** On a schedule tree whose instructions the kernel knows,
    [homogenize_instruction_blocks] succeeds; the instruction blocks of
    the result hold, in order, the instructions of the blocks of the
    tree, and in each of them any two instructions have the same
    [within_inames] and the same [predicates]. *)
Theorem homogenizer_on_tree {Expression : Type} `{Countable Expression}
    (kernel : Tree.LoopKernel Expression) (expr : Tree.ScheduleNode) :
  (forall block r, block ∈ Tree.blocks_of expr -> r ∈ block ->
     is_Some (Tree.id_to_insn kernel !! Tree.insn_id r)) ->
  exists val,
    Tree.homogenize_instruction_blocks kernel expr = Ok val /\
    concat (concat (Tree.blocks_of <$> Tree.nodes_of val)) =
      concat (Tree.blocks_of expr) /\
    Forall (Tree.homogeneous kernel)
           (concat (Tree.blocks_of <$> Tree.nodes_of val)).
Proof.
  intros Hknown.
  destruct (homogenize_schedule kernel expr Hknown) as (val & Hval & Hcat & Hhom).
  exists val. split; [exact Hval|]. by split.
Qed.

(** ** The instructions of a function *)

Lemma filter_nil_iff {A} (p : A -> bool) (l : list A) :
  List.filter p l = [] <-> forall x, x ∈ l -> p x = false.
Proof.
  induction l as [|y l IH]; simpl.
  - split; [|done]. intros _ x Hx. by apply elem_of_nil in Hx.
  - destruct (p y) eqn:Hy.
    + split; [done|]. intros Hall. specialize (Hall y ltac:(by left)). congruence.
    + rewrite IH. split.
      * intros Hall x [->|Hx]%elem_of_cons; [done|by apply Hall].
      * intros Hall x Hx. apply Hall. by right.
Qed.

Lemma filter_singleton_iff {A} (p : A -> bool) (l : list A) (f : A) :
  List.filter p l = [f] <->
  exists l1 l2, l = l1 ++ f :: l2 /\ p f = true /\
    List.filter p l1 = [] /\ List.filter p l2 = [].
Proof.
  split.
  - induction l as [|y l IH]; simpl; [done|].
    destruct (p y) eqn:Hy.
    + intros [= -> Hl]. by exists [], l.
    + intros (l1 & l2 & -> & Hf & H1 & H2)%IH.
      exists (y :: l1), l2. simpl. by rewrite Hy.
  - intros (l1 & l2 & -> & Hf & H1 & H2).
    by rewrite List.filter_app, H1; simpl; rewrite Hf, H2.
Qed.

Lemma filter_cons_split {A} (p : A -> bool) (l : list A) f fs :
  List.filter p l = f :: fs ->
  exists l1 l2, l = l1 ++ f :: l2 /\ p f = true /\ List.filter p l2 = fs.
Proof.
  induction l as [|y l IH]; simpl; [done|].
  destruct (p y) eqn:Hy.
  - intros [= -> Hl]. by exists [], l.
  - intros (l1 & l2 & -> & Hn & Hl2)%IH. by exists (y :: l1), l2.
Qed.

Section FunctionInsns.

Local Abbreviation named name :=
  (fun child : Tree.ScheduleNode =>
     match child with
     | Tree.Function child_name _ _ _ => bool_decide (child_name = name)
     | _ => false
     end).

Lemma named_false name (l : list Tree.ScheduleNode) :
  (forall x, x ∈ l -> named name x = false) <->
  (forall ea ei ch, Tree.Function name ea ei ch ∉ l).
Proof.
  split.
  - intros Hall ea ei ch Hin. specialize (Hall _ Hin). simpl in Hall.
    by rewrite bool_decide_true in Hall.
  - intros Hno x Hx. destruct x as [| | | |n ea ei ch|]; try done.
    simpl. case_bool_decide as Hn; [|done]. subst n. by destruct (Hno ea ei ch).
Qed.

(** [get_insns_in_function] returns the ids gathered from the function
    called [name] when the schedule has exactly one such function among
    its children. With none the unpacking raises for want of values, and
    with two or more for too many; a function of that name deeper in the
    tree is not looked for. *)
Theorem get_insns_in_function_outcomes children name :
  (Tree.get_insns_in_function children name =
     inl Tree.ValueError_not_enough_values <->
   forall ea ei ch, Tree.Function name ea ei ch ∉ children) /\
  (forall s,
     Tree.get_insns_in_function children name = inr s <->
     exists l1 ea ei ch l2,
       children = l1 ++ Tree.Function name ea ei ch :: l2 /\
       (forall ea' ei' ch', Tree.Function name ea' ei' ch' ∉ l1 ++ l2) /\
       s = Tree.gather (Tree.Function name ea ei ch)) /\
  (Tree.get_insns_in_function children name =
     inl Tree.ValueError_too_many_values <->
   exists l1 ea ei ch l2 ea' ei' ch' l3,
     children = l1 ++ Tree.Function name ea ei ch ::
                l2 ++ Tree.Function name ea' ei' ch' :: l3).
Proof.
  unfold Tree.get_insns_in_function.
  split; [|split].
  - rewrite <- named_false, <- filter_nil_iff.
    by destruct (List.filter _ children) as [|? [|? ?]].
  - intros s. split.
    + destruct (List.filter _ children) as [|f [|? ?]] eqn:Hf; try done.
      intros [= <-].
      apply filter_singleton_iff in Hf as (l1 & l2 & -> & Hn & H1 & H2).
      destruct f as [| | | |n ea ei ch|]; try done.
      apply bool_decide_eq_true in Hn as ->.
      exists l1, ea, ei, ch, l2. split; [done|]. split; [|done].
      apply named_false. intros x [Hx|Hx]%elem_of_app.
      * by apply (proj1 (filter_nil_iff _ _) H1).
      * by apply (proj1 (filter_nil_iff _ _) H2).
    + intros (l1 & ea & ei & ch & l2 & -> & Hno & ->).
      pose proof (proj2 (named_false name (l1 ++ l2)) Hno) as Hall.
      rewrite (proj2 (filter_singleton_iff _ _ (Tree.Function name ea ei ch)));
        [done|].
      exists l1, l2. split; [done|]. split; [simpl; by rewrite bool_decide_true|].
      split; apply filter_nil_iff; intros x Hx; apply Hall, elem_of_app; auto.
  - split.
    + destruct (List.filter _ children) as [|f [|g rest]] eqn:Hf; try done.
      intros _.
      apply filter_cons_split in Hf as (l1 & l2' & -> & Hn & Hf).
      apply filter_cons_split in Hf as (l2 & l3 & -> & Hn' & _).
      destruct f as [| | | |n ea ei ch|]; try done.
      destruct g as [| | | |n' ea' ei' ch'|]; try done.
      apply bool_decide_eq_true in Hn as ->.
      apply bool_decide_eq_true in Hn' as ->.
      by exists l1, ea, ei, ch, l2, ea', ei', ch', l3.
    + intros (l1 & ea & ei & ch & l2 & ea' & ei' & ch' & l3 & ->).
      rewrite List.filter_app. simpl. rewrite bool_decide_true by done.
      rewrite List.filter_app. simpl. rewrite bool_decide_true by done.
      destruct (List.filter _ l1) as [|? [|? ?]];
        destruct (List.filter _ l2) as [|? ?]; done.
Qed.

End FunctionInsns.

(** ** Instances *)

Lemma three_insn_known r :
  r ∈ three_insn_block ->
  is_Some (Tree.id_to_insn three_insn_kernel !! Tree.insn_id r).
Proof.
  intros Hr. unfold three_insn_block in Hr.
  repeat (apply elem_of_cons in Hr as [->|Hr]); [| | |by apply elem_of_nil in Hr];
    vm_compute; eauto.
Qed.

Lemma three_insn_tree_known block r :
  block ∈ Tree.blocks_of three_insn_tree -> r ∈ block ->
  is_Some (Tree.id_to_insn three_insn_kernel !! Tree.insn_id r).
Proof.
  intros Hb Hr. apply three_insn_known.
  change (Tree.blocks_of three_insn_tree) with [three_insn_block] in Hb.
  by apply list_elem_of_singleton in Hb as ->.
Qed.

Example make_schedule_tree_scenario_A :
  TreeBuilder.make_schedule_tree scenario_A_schedule = inr scenario_A_tree.
Proof. vm_compute. reflexivity. Qed.

Example make_schedule_tree_unclosed_loop :
  TreeBuilder.make_schedule_tree
    [TreeBuilder.EnterLoop "i"; TreeBuilder.RunInstruction "Sa"] =
  inl TreeBuilder.AssertionError.
Proof. vm_compute. reflexivity. Qed.

Lemma homogenizer_on_tree_witness :
  (forall block r, block ∈ Tree.blocks_of three_insn_tree -> r ∈ block ->
     is_Some (Tree.id_to_insn three_insn_kernel !! Tree.insn_id r)) /\
  exists val,
    Tree.homogenize_instruction_blocks three_insn_kernel three_insn_tree =
      Ok val /\
    concat (concat (Tree.blocks_of <$> Tree.nodes_of val)) =
      concat (Tree.blocks_of three_insn_tree) /\
    Forall (Tree.homogeneous three_insn_kernel)
           (concat (Tree.blocks_of <$> Tree.nodes_of val)).
Proof.
  split; [exact three_insn_tree_known|].
  apply (homogenizer_on_tree three_insn_kernel three_insn_tree
           three_insn_tree_known).
Defined.

Lemma homogenizer_keeps_ids_witness :
  (forall block r, block ∈ Tree.blocks_of three_insn_tree -> r ∈ block ->
     is_Some (Tree.id_to_insn three_insn_kernel !! Tree.insn_id r)) /\
  exists val,
    Tree.homogenize_instruction_blocks three_insn_kernel three_insn_tree =
      Ok val /\
    concat (Tree.ids_in_order <$> Tree.nodes_of val) =
      Tree.ids_in_order three_insn_tree /\
    Tree.gatherer_combine (Tree.gather <$> Tree.nodes_of val) =
      Tree.gather three_insn_tree.
Proof.
  split; [exact three_insn_tree_known|].
  apply (homogenizer_keeps_ids three_insn_kernel three_insn_tree
           three_insn_tree_known).
Defined.

Lemma homogenizer_fixed_point_witness :
  (forall r, r ∈ three_insn_block ->
     is_Some (Tree.id_to_insn three_insn_kernel !! Tree.insn_id r)) /\
  exists blocks,
    Tree.map_instruction_block three_insn_kernel three_insn_block = Ok blocks /\
    Forall (fun block =>
              Tree.map_instruction_block three_insn_kernel block = Ok [block])
           blocks.
Proof.
  split; [exact three_insn_known|].
  apply (homogenizer_fixed_point three_insn_kernel three_insn_block
           three_insn_known).
Defined.

Lemma homogenizer_splits_where_needed_witness :
  (forall r, r ∈ three_insn_block ->
     is_Some (Tree.id_to_insn three_insn_kernel !! Tree.insn_id r)) /\
  exists blocks,
    Tree.map_instruction_block three_insn_kernel three_insn_block = Ok blocks /\
    (forall l1 b1 b2 l2,
       blocks = l1 ++ b1 :: b2 :: l2 ->
       boundary_differs three_insn_kernel b1 b2) /\
    (three_insn_block <> [] -> Forall (fun block => block <> []) blocks).
Proof.
  split; [exact three_insn_known|].
  apply (homogenizer_splits_where_needed three_insn_kernel three_insn_block
           three_insn_known).
Defined.

Lemma homogenizer_key_error_witness :
  (2 <= length [Tree.mkRunInstruction "a"; Tree.mkRunInstruction "z"])%nat /\
  ((forall r, r ∈ [Tree.mkRunInstruction "a"; Tree.mkRunInstruction "z"] ->
      is_Some (Tree.id_to_insn three_insn_kernel !! Tree.insn_id r)) \/
   (exists r, r ∈ [Tree.mkRunInstruction "a"; Tree.mkRunInstruction "z"] /\
      ~ is_Some (Tree.id_to_insn three_insn_kernel !! Tree.insn_id r) /\
      Tree.map_instruction_block three_insn_kernel
        [Tree.mkRunInstruction "a"; Tree.mkRunInstruction "z"] =
      Raise (KeyError (Tree.insn_id r)))).
Proof.
  split; [simpl; lia|].
  apply (proj2 (homogenizer_key_error three_insn_kernel
                  [Tree.mkRunInstruction "a"; Tree.mkRunInstruction "z"])).
  simpl; lia.
Defined.

Lemma make_schedule_tree_round_trip_witness :
  TreeBuilder.make_schedule_tree scenario_A_schedule = inr scenario_A_tree /\
  (exists children, scenario_A_tree = Tree.Schedule children) /\
  TreeBuilder.linearize scenario_A_tree = scenario_A_schedule.
Proof.
  split; [vm_compute; reflexivity|].
  apply (make_schedule_tree_round_trip scenario_A_schedule scenario_A_tree).
  vm_compute. reflexivity.
Defined.

Lemma make_schedule_tree_normal_witness :
  TreeBuilder.make_schedule_tree scenario_A_schedule = inr scenario_A_tree /\
  TreeBuilder.normal_schedule scenario_A_tree = true.
Proof.
  split; [vm_compute; reflexivity|].
  apply (make_schedule_tree_normal scenario_A_schedule scenario_A_tree).
  vm_compute. reflexivity.
Defined.

Lemma make_schedule_tree_of_linearize_witness :
  TreeBuilder.normal_schedule scenario_A_tree = true /\
  TreeBuilder.make_schedule_tree (TreeBuilder.linearize scenario_A_tree) =
  inr scenario_A_tree.
Proof.
  split; [vm_compute; reflexivity|].
  apply (make_schedule_tree_of_linearize scenario_A_tree).
  vm_compute. reflexivity.
Defined.

Lemma gather_of_built_tree_witness :
  TreeBuilder.make_schedule_tree scenario_A_schedule = inr scenario_A_tree /\
  ("Sb" ∈ Tree.gather scenario_A_tree <->
   exists item, item ∈ scenario_A_schedule /\
                TreeBuilder.usable_id item = Some "Sb").
Proof.
  split; [vm_compute; reflexivity|].
  apply (gather_of_built_tree scenario_A_schedule scenario_A_tree "Sb").
  vm_compute. reflexivity.
Defined.

(** * The constructor on a store of objects *)

(** ** The store *)

Lemma bind_Returned {A B} (m : PyHeap.M A) (k : A -> PyHeap.M B) h a h' :
  m h = PyHeap.Returned a h' -> (m ≫= k) h = k a h'.
Proof. intros Hm. unfold mbind, PyHeap.M_bind. by rewrite Hm. Qed.

Lemma bind_Raised {A B} (m : PyHeap.M A) (k : A -> PyHeap.M B) h e h' :
  m h = PyHeap.Raised e h' -> (m ≫= k) h = PyHeap.Raised e h'.
Proof. intros Hm. unfold mbind, PyHeap.M_bind. by rewrite Hm. Qed.

Lemma store_lookup_same (h : PyHeap.Store) l o o' :
  h !! l = Some o -> <[l := o']> h !! l = Some o'.
Proof. intros Hl. apply list_lookup_insert_eq. by eapply lookup_lt_Some. Qed.

Lemma store_lookup_other (h : PyHeap.Store) l l' o o' :
  h !! l = Some o -> l' <> l -> <[l' := o']> h !! l = Some o.
Proof. intros Hl Hne. by rewrite list_lookup_insert_ne. Qed.

Lemma store_lookup_alloc (h : PyHeap.Store) l o o' :
  h !! l = Some o -> (h ++ [o']) !! l = Some o.
Proof. apply lookup_app_l_Some. Qed.

Lemma store_lookup_new (h : PyHeap.Store) o :
  (h ++ [o]) !! length h = Some o.
Proof. by apply list_lookup_middle. Qed.

Lemma kept_length h0 h : PyHeap.kept h0 h -> (length h0 <= length h)%nat.
Proof.
  unfold PyHeap.kept. intros Hk.
  pose proof (length_take h (length h0)) as Hl. rewrite Hk in Hl. lia.
Qed.

Lemma kept_lookup h0 h l o :
  PyHeap.kept h0 h -> h0 !! l = Some o -> h !! l = Some o.
Proof.
  unfold PyHeap.kept. intros Hk Hl. rewrite <- Hk in Hl.
  by apply lookup_take_Some in Hl as [Hl _].
Qed.

Lemma kept_refl h : PyHeap.kept h h.
Proof. unfold PyHeap.kept. apply firstn_all. Qed.

Lemma kept_store h0 h l o :
  PyHeap.kept h0 h -> (length h0 <= l)%nat -> PyHeap.kept h0 (<[l := o]> h).
Proof. unfold PyHeap.kept. intros Hk Hl. by rewrite take_insert_ge. Qed.

Lemma kept_alloc h0 h o : PyHeap.kept h0 h -> PyHeap.kept h0 (h ++ [o]).
Proof.
  intros Hk. pose proof (kept_length _ _ Hk).
  unfold PyHeap.kept in *. by rewrite take_app_le.
Qed.

Lemma kept_trans h0 h1 h2 :
  PyHeap.kept h0 h1 -> PyHeap.kept h1 h2 -> PyHeap.kept h0 h2.
Proof.
  intros H01 H12. pose proof (kept_length _ _ H01) as Hl.
  unfold PyHeap.kept in *.
  rewrite <- H12 in H01. rewrite take_take in H01.
  by replace (length h0 `min` length h1)%nat with (length h0) in H01 by lia.
Qed.

(** ** The attributes of [self] when the store changes *)

Lemma repr_store_lex h tup o v entries entries' :
  PyHeap.repr h tup o v ->
  h !! tup = Some (PyHeap.OLexList entries) ->
  PyHeap.repr (<[tup := PyHeap.OLexList entries']> h) tup o v.
Proof.
  destruct o as [l|], v as [s|]; try done.
  intros (copy & Hl & Hc & Hne) Htup. exists copy.
  split; [|split; [|done]].
  - apply store_lookup_other; [done|]. intros ->. congruence.
  - by apply store_lookup_other.
Qed.

Lemma repr_store_flags h tup o v flags entries entries' :
  PyHeap.repr h tup o v ->
  h !! flags = Some (PyHeap.OFlagList entries) ->
  PyHeap.repr (<[flags := PyHeap.OFlagList entries']> h) tup o v.
Proof.
  destruct o as [l|], v as [s|]; try done.
  intros (copy & Hl & Hc & Hne) Hflags. exists copy.
  split; [|split; [|done]].
  - apply store_lookup_other; [done|]. intros ->. congruence.
  - apply store_lookup_other; [done|]. intros ->. congruence.
Qed.

Lemma repr_store_self h tup o v self b a b' a' :
  PyHeap.repr h tup o v ->
  h !! self = Some (PyHeap.OPairwiseScheduleBuilder b a) ->
  PyHeap.repr (<[self := PyHeap.OPairwiseScheduleBuilder b' a']> h) tup o v.
Proof.
  destruct o as [l|], v as [s|]; try done.
  intros (copy & Hl & Hc & Hne) Hself. exists copy.
  split; [|split; [|done]].
  - apply store_lookup_other; [done|]. intros ->. congruence.
  - apply store_lookup_other; [done|]. intros ->. congruence.
Qed.

Lemma repr_alloc h tup o v obj :
  PyHeap.repr h tup o v -> PyHeap.repr (h ++ [obj]) tup o v.
Proof.
  destruct o as [l|], v as [s|]; try done.
  intros (copy & Hl & Hc & Hne). exists copy.
  split; [|split; [|done]]; by apply store_lookup_alloc.
Qed.

(** ** The state of the walk when the store changes *)

Lemma sim_store_lex h0 self tup flags entries fl sb sa h entries' :
  PyHeap.sim h0 self tup flags (mkWalk entries fl sb sa) h ->
  PyHeap.sim h0 self tup flags (mkWalk entries' fl sb sa)
    (<[tup := PyHeap.OLexList entries']> h).
Proof.
  intros (Hk & Hs & Ht & Hf & Htup & Hflags & b & a & Hself & Hb & Ha).
  simpl in *.
  split; [by apply kept_store|]. do 3 (split; [done|]).
  split; [by eapply store_lookup_same|].
  split; [apply store_lookup_other; [done|]; intros ->; congruence|].
  exists b, a.
  split; [apply store_lookup_other; [done|]; intros ->; congruence|].
  split; by eapply repr_store_lex.
Qed.

Lemma sim_store_flags h0 self tup flags entries fl sb sa h fl' :
  PyHeap.sim h0 self tup flags (mkWalk entries fl sb sa) h ->
  PyHeap.sim h0 self tup flags (mkWalk entries fl' sb sa)
    (<[flags := PyHeap.OFlagList fl']> h).
Proof.
  intros (Hk & Hs & Ht & Hf & Htup & Hflags & b & a & Hself & Hb & Ha).
  simpl in *.
  split; [by apply kept_store|]. do 3 (split; [done|]).
  split; [apply store_lookup_other; [done|]; intros ->; congruence|].
  split; [by eapply store_lookup_same|].
  exists b, a.
  split; [apply store_lookup_other; [done|]; intros ->; congruence|].
  split; by eapply repr_store_flags.
Qed.

Lemma sim_rebind_flags h0 self tup flags entries fl sb sa h fl' :
  PyHeap.sim h0 self tup flags (mkWalk entries fl sb sa) h ->
  PyHeap.sim h0 self tup (length h) (mkWalk entries fl' sb sa)
    (h ++ [PyHeap.OFlagList fl']).
Proof.
  intros (Hk & Hs & Ht & Hf & Htup & Hflags & b & a & Hself & Hb & Ha).
  simpl in *.
  split; [by apply kept_alloc|]. do 2 (split; [done|]).
  split; [by apply kept_length|].
  split; [by apply store_lookup_alloc|].
  split; [apply store_lookup_new|].
  exists b, a. split; [by apply store_lookup_alloc|].
  split; by apply repr_alloc.
Qed.

(** ** The steps of the walk *)

Lemma load_lex_eq (h : PyHeap.Store) l entries :
  h !! l = Some (PyHeap.OLexList entries) ->
  PyHeap.load_lex l h = PyHeap.Returned entries h.
Proof.
  intros Hl. unfold PyHeap.load_lex, PyHeap.load, mbind, PyHeap.M_bind.
  by rewrite Hl.
Qed.

Lemma load_flags_eq (h : PyHeap.Store) l entries :
  h !! l = Some (PyHeap.OFlagList entries) ->
  PyHeap.load_flags l h = PyHeap.Returned entries h.
Proof.
  intros Hl. unfold PyHeap.load_flags, PyHeap.load, mbind, PyHeap.M_bind.
  by rewrite Hl.
Qed.

Lemma load_set_eq (h : PyHeap.Store) l members :
  h !! l = Some (PyHeap.OSet members) ->
  PyHeap.load_set l h = PyHeap.Returned members h.
Proof.
  intros Hl. unfold PyHeap.load_set, PyHeap.load, mbind, PyHeap.M_bind.
  by rewrite Hl.
Qed.

Lemma load_items_eq (h : PyHeap.Store) l entries :
  h !! l = Some (PyHeap.OItemList entries) ->
  PyHeap.load_items l h = PyHeap.Returned entries h.
Proof.
  intros Hl. unfold PyHeap.load_items, PyHeap.load, mbind, PyHeap.M_bind.
  by rewrite Hl.
Qed.

Lemma load_eq (h : PyHeap.Store) l o :
  h !! l = Some o -> PyHeap.load l h = PyHeap.Returned o h.
Proof. intros Hl. unfold PyHeap.load. by rewrite Hl. Qed.

Ltac run H := rewrite (bind_Returned _ _ _ _ _ H).
Ltac run_raise H := rewrite (bind_Raised _ _ _ _ _ H).

Lemma sim_kept h0 self tup flags st h :
  PyHeap.sim h0 self tup flags st h -> PyHeap.kept h0 h.
Proof. by intros [Hk _]. Qed.

Lemma sim_lex h0 self tup flags st h :
  PyHeap.sim h0 self tup flags st h ->
  h !! tup = Some (PyHeap.OLexList (next_insn_lex_tuple st)).
Proof. by intros (_ & _ & _ & _ & Htup & _). Qed.

Lemma sim_flags h0 self tup flags st h :
  PyHeap.sim h0 self tup flags st h ->
  h !! flags =
  Some (PyHeap.OFlagList (stmt_added_since_prev_block_at_tier st)).
Proof. by intros (_ & _ & _ & _ & _ & Hflags & _). Qed.

Section StepFacts.

Variable h0 : PyHeap.Store.
Variable self tup : nat.

Local Abbreviation sim_at flags entries fl sb sa h :=
  (PyHeap.sim h0 self tup flags (mkWalk entries fl sb sa) h).

Lemma incr_last_sim flags entries fl sb sa h :
  sim_at flags entries fl sb sa h ->
  match py_incr_last entries with
  | Ok entries' =>
      exists h', PyHeap.incr_last tup h = PyHeap.Returned tt h' /\
                 sim_at flags entries' fl sb sa h'
  | Raise e =>
      exists h', PyHeap.incr_last tup h = PyHeap.Raised e h' /\
                 PyHeap.kept h0 h'
  end.
Proof.
  intros Hsim. unfold PyHeap.incr_last.
  run (load_lex_eq _ _ _ (sim_lex _ _ _ _ _ _ Hsim)). simpl.
  destruct (py_incr_last entries) as [entries'|e].
  - eexists. split; [reflexivity|]. by eapply sim_store_lex.
  - eexists. split; [reflexivity|]. by eapply sim_kept.
Qed.

Lemma append_lex_sim flags entries fl sb sa h v :
  sim_at flags entries fl sb sa h ->
  exists h', PyHeap.append_lex tup v h = PyHeap.Returned tt h' /\
             sim_at flags (entries ++ [v]) fl sb sa h'.
Proof.
  intros Hsim. unfold PyHeap.append_lex.
  run (load_lex_eq _ _ _ (sim_lex _ _ _ _ _ _ Hsim)). simpl.
  eexists. split; [reflexivity|]. by eapply sim_store_lex.
Qed.

Lemma pop_lex_sim flags entries fl sb sa h :
  sim_at flags entries fl sb sa h ->
  match py_pop entries with
  | Ok (entries', _) =>
      exists h', PyHeap.pop_lex tup h = PyHeap.Returned tt h' /\
                 sim_at flags entries' fl sb sa h'
  | Raise e =>
      exists h', PyHeap.pop_lex tup h = PyHeap.Raised e h' /\
                 PyHeap.kept h0 h'
  end.
Proof.
  intros Hsim. unfold PyHeap.pop_lex.
  run (load_lex_eq _ _ _ (sim_lex _ _ _ _ _ _ Hsim)). simpl.
  destruct (py_pop entries) as [[entries' x]|e].
  - eexists. split; [reflexivity|]. by eapply sim_store_lex.
  - eexists. split; [reflexivity|]. by eapply sim_kept.
Qed.

Lemma bump_if_stmt_added_sim flags entries fl sb sa h :
  sim_at flags entries fl sb sa h ->
  match bump_if_stmt_added entries fl with
  | Ok (entries', fl') =>
      exists h', PyHeap.bump_if_stmt_added tup flags h = PyHeap.Returned tt h' /\
                 sim_at flags entries' fl' sb sa h'
  | Raise e =>
      exists h', PyHeap.bump_if_stmt_added tup flags h = PyHeap.Raised e h' /\
                 PyHeap.kept h0 h'
  end.
Proof.
  intros Hsim. unfold PyHeap.bump_if_stmt_added, bump_if_stmt_added.
  run (load_flags_eq _ _ _ (sim_flags _ _ _ _ _ _ Hsim)). simpl.
  destruct (py_last fl) as [flag|e]; cbn [mbind result_bind].
  2:{ eexists. split; [reflexivity|]. by eapply sim_kept. }
  change ((flag0 ← PyHeap.lift (Ok flag); _) h) with
    ((if flag
      then PyHeap.incr_last tup;;
           fl0 ← PyHeap.load_flags flags;
           fl' ← PyHeap.lift (py_set_last fl0 false);
           PyHeap.store flags (PyHeap.OFlagList fl')
      else mret tt) h).
  destruct flag.
  - pose proof (incr_last_sim _ _ _ _ _ _ Hsim) as Hincr.
    destruct (py_incr_last entries) as [entries'|e]; cbn [mbind result_bind].
    + destruct Hincr as (h1 & Hrun & Hsim1). run Hrun.
      run (load_flags_eq _ _ _ (sim_flags _ _ _ _ _ _ Hsim1)). simpl.
      destruct (py_set_last fl false) as [fl'|e]; cbn [mbind result_bind].
      * eexists. split; [reflexivity|]. by eapply sim_store_flags.
      * eexists. split; [reflexivity|]. by eapply sim_kept.
    + destruct Hincr as (h1 & Hrun & Hk). run_raise Hrun. by eexists.
  - eexists. split; [reflexivity|]. done.
Qed.

End StepFacts.

Section BodyFacts.

Variable h0 : PyHeap.Store.
Variable self tup : nat.
Variable before_insn_id after_insn_id : string.
Variable loops_to_ignore : nat.
Variable ign : gset string.
Hypothesis loops_to_ignore_ok : h0 !! loops_to_ignore = Some (PyHeap.OSet ign).

Local Abbreviation sim_at flags entries fl sb sa h :=
  (PyHeap.sim h0 self tup flags (mkWalk entries fl sb sa) h).

(** A capture leaves in [self] a reference to a new instance set, whose
    list is a copy that the walk does not touch again. *)
Lemma capture_sim flags entries fl sb sa h lp_insn_id (before : bool) :
  sim_at flags entries fl sb sa h ->
  exists h',
    PyHeap.capture self tup lp_insn_id before h = PyHeap.Returned tt h' /\
    sim_at flags entries fl
      (if before then Some (mkSIS lp_insn_id entries) else sb)
      (if before then sa else Some (mkSIS lp_insn_id entries)) h'.
Proof.
  intros (Hk & Hs & Ht & Hf & Htup & Hflags & b & a & Hself & Hb & Ha).
  simpl in *.
  unfold PyHeap.capture. run (load_lex_eq _ _ _ Htup).
  set (h1 := h ++ [PyHeap.OLexList entries]).
  set (h2 := h1 ++ [PyHeap.OStatementInstanceSet lp_insn_id (length h)]).
  assert (PyHeap.alloc (PyHeap.OLexList entries) h =
          PyHeap.Returned (length h) h1) as Ha1 by reflexivity.
  run Ha1.
  assert (PyHeap.alloc (PyHeap.OStatementInstanceSet lp_insn_id (length h)) h1 =
          PyHeap.Returned (length h1) h2) as Ha2 by reflexivity.
  run Ha2.
  assert (h2 !! tup = Some (PyHeap.OLexList entries)) as Htup2
    by (by do 2 apply store_lookup_alloc).
  assert (h2 !! flags = Some (PyHeap.OFlagList fl)) as Hflags2
    by (by do 2 apply store_lookup_alloc).
  assert (h2 !! self = Some (PyHeap.OPairwiseScheduleBuilder b a)) as Hself2
    by (by do 2 apply store_lookup_alloc).
  assert (h2 !! length h1 =
          Some (PyHeap.OStatementInstanceSet lp_insn_id (length h))) as Hnew
    by apply store_lookup_new.
  assert (h2 !! length h = Some (PyHeap.OLexList entries)) as Hcopy
    by apply store_lookup_alloc, store_lookup_new.
  assert (length h <> tup) as Hne.
  { apply lookup_lt_Some in Htup. lia. }
  assert (PyHeap.kept h0 h2) as Hk2 by (by do 2 apply kept_alloc).
  run (load_eq _ _ _ Hself2). simpl.
  eexists. split; [reflexivity|].
  set (o := if before then PyHeap.OPairwiseScheduleBuilder _ _ else _).
  assert (exists b' a', o = PyHeap.OPairwiseScheduleBuilder b' a' /\
            PyHeap.repr h2 tup b'
              (if before then Some (mkSIS lp_insn_id entries) else sb) /\
            PyHeap.repr h2 tup a'
              (if before then sa else Some (mkSIS lp_insn_id entries)))
    as (b' & a' & -> & Hb' & Ha').
  { subst o. destruct before.
    - exists (Some (length h1)), a. split; [done|]. split.
      + by exists (length h).
      + by do 2 apply repr_alloc.
    - exists b, (Some (length h1)). split; [done|]. split.
      + by do 2 apply repr_alloc.
      + by exists (length h). }
  split; [by apply kept_store|]. do 3 (split; [done|]).
  split; [apply store_lookup_other; [done|]; intros ->; congruence|].
  split; [apply store_lookup_other; [done|]; intros ->; congruence|].
  exists b', a'. split; [by eapply store_lookup_same|].
  split; by eapply repr_store_self.
Qed.

Lemma capture_if_sim flags entries fl sb sa h lp_insn_id (cond before : bool) :
  sim_at flags entries fl sb sa h ->
  exists h',
    (if cond then PyHeap.capture self tup lp_insn_id before else mret tt) h =
      PyHeap.Returned tt h' /\
    sim_at flags entries fl
      (if cond && before then Some (mkSIS lp_insn_id entries) else sb)
      (if cond && negb before then Some (mkSIS lp_insn_id entries) else sa) h'.
Proof.
  intros Hsim. destruct cond.
  - destruct (capture_sim _ _ _ _ _ _ lp_insn_id before Hsim) as (h' & Hrun & Hsim').
    exists h'. split; [done|]. by destruct before.
  - by exists h.
Qed.

Lemma run_instruction_sim flags st h lp_insn_id :
  PyHeap.sim h0 self tup flags st h ->
  match loop_body before_insn_id after_insn_id ign
          (RunInstruction lp_insn_id) st with
  | Ok (st', flow) =>
      exists flags' h',
        PyHeap.loop_body before_insn_id after_insn_id loops_to_ignore self tup
          (RunInstruction lp_insn_id) flags h =
          PyHeap.Returned (flags', flow) h' /\
        PyHeap.sim h0 self tup flags' st' h'
  | Raise e =>
      exists h',
        PyHeap.loop_body before_insn_id after_insn_id loops_to_ignore self tup
          (RunInstruction lp_insn_id) flags h = PyHeap.Raised e h' /\
        PyHeap.kept h0 h'
  end.
Proof.
  destruct st as [entries fl sb sa]. intros Hsim.
  cbn [loop_body PyHeap.loop_body get_insn_id_from_linearization_item
       next_insn_lex_tuple stmt_added_since_prev_block_at_tier
       self_before self_after].
  set (is_before := bool_decide (lp_insn_id = before_insn_id)).
  set (is_after := bool_decide (lp_insn_id = after_insn_id)).
  destruct (capture_if_sim _ _ _ _ _ _ lp_insn_id is_before true Hsim)
    as (h1 & Hrun1 & Hsim1).
  rewrite andb_true_r, andb_false_r in Hsim1.
  destruct (capture_if_sim _ _ _ _ _ _ lp_insn_id is_after false Hsim1)
    as (h2 & Hrun2 & Hsim2).
  rewrite andb_true_r, andb_false_r in Hsim2.
  destruct (is_before || is_after).
  - pose proof (incr_last_sim _ _ _ _ _ _ _ _ _ Hsim2) as Hincr.
    destruct (py_incr_last entries) as [entries'|e]; cbn [mbind result_bind].
    + destruct Hincr as (h3 & Hrun3 & Hsim3).
      run Hrun1. run Hrun2. run Hrun3.
      run (load_flags_eq _ _ _ (sim_flags _ _ _ _ _ _ Hsim3)). simpl.
      eexists _, _. split; [reflexivity|]. by eapply sim_rebind_flags.
    + destruct Hincr as (h3 & Hrun3 & Hk3).
      run Hrun1. run Hrun2. run_raise Hrun3. by eexists.
  - run Hrun1. run Hrun2. by eexists _, _.
Qed.

(** An iteration of the loop on the store does what the iteration of the
    walk does, and keeps the objects that were there before the call. *)
Lemma loop_body_sim flags st h item :
  PyHeap.sim h0 self tup flags st h ->
  match loop_body before_insn_id after_insn_id ign item st with
  | Ok (st', flow) =>
      exists flags' h',
        PyHeap.loop_body before_insn_id after_insn_id loops_to_ignore self tup
          item flags h = PyHeap.Returned (flags', flow) h' /\
        PyHeap.sim h0 self tup flags' st' h'
  | Raise e =>
      exists h',
        PyHeap.loop_body before_insn_id after_insn_id loops_to_ignore self tup
          item flags h = PyHeap.Raised e h' /\
        PyHeap.kept h0 h'
  end.
Proof.
  intros Hsim.
  pose proof (kept_lookup _ _ _ _ (sim_kept _ _ _ _ _ _ Hsim) loops_to_ignore_ok)
    as Hign.
  destruct item as [iname|iname|id_|c sk mk [id_|]|name|name].
  - (* EnterLoop *)
    destruct st as [entries fl sb sa].
    cbn [loop_body PyHeap.loop_body next_insn_lex_tuple
         stmt_added_since_prev_block_at_tier self_before self_after].
    run (load_set_eq _ _ _ Hign).
    destruct (bool_decide (iname ∈ ign)); [by exists flags, h|].
    pose proof (bump_if_stmt_added_sim _ _ _ _ _ _ _ _ _ Hsim) as Hbump.
    destruct (bump_if_stmt_added entries fl) as [[entries' fl']|e];
      cbn [mbind result_bind].
    + destruct Hbump as (h1 & Hrun1 & Hsim1). run Hrun1.
      destruct (append_lex_sim _ _ _ _ _ _ _ _ _ (LexIname iname) Hsim1)
        as (h2 & Hrun2 & Hsim2). run Hrun2.
      destruct (append_lex_sim _ _ _ _ _ _ _ _ _ (LexInt 0) Hsim2)
        as (h3 & Hrun3 & Hsim3). run Hrun3.
      run (load_flags_eq _ _ _ (sim_flags _ _ _ _ _ _ Hsim3)). simpl.
      eexists _, _. split; [reflexivity|].
      rewrite <- (assoc_L (++)) in Hsim3. by eapply sim_store_flags.
    + destruct Hbump as (h1 & Hrun1 & Hk1). run_raise Hrun1. by eexists.
  - (* LeaveLoop *)
    destruct st as [entries fl sb sa].
    cbn [loop_body PyHeap.loop_body next_insn_lex_tuple
         stmt_added_since_prev_block_at_tier self_before self_after].
    run (load_set_eq _ _ _ Hign).
    destruct (bool_decide (iname ∈ ign)); [by exists flags, h|].
    pose proof (pop_lex_sim _ _ _ _ _ _ _ _ _ Hsim) as Hpop1.
    destruct (py_pop entries) as [[entries1 x1]|e]; cbn [mbind result_bind].
    2:{ destruct Hpop1 as (h1 & Hrun1 & Hk1). run_raise Hrun1. by eexists. }
    destruct Hpop1 as (h1 & Hrun1 & Hsim1). run Hrun1.
    pose proof (pop_lex_sim _ _ _ _ _ _ _ _ _ Hsim1) as Hpop2.
    destruct (py_pop entries1) as [[entries2 x2]|e]; cbn [mbind result_bind].
    2:{ destruct Hpop2 as (h2 & Hrun2 & Hk2). run_raise Hrun2. by eexists. }
    destruct Hpop2 as (h2 & Hrun2 & Hsim2). run Hrun2.
    run (load_flags_eq _ _ _ (sim_flags _ _ _ _ _ _ Hsim2)). simpl.
    destruct (py_pop fl) as [[fl1 y]|e]; cbn [mbind result_bind].
    2:{ eexists. split; [reflexivity|]. by eapply sim_kept. }
    pose proof (sim_store_flags _ _ _ _ _ _ _ _ _ fl1 Hsim2) as Hsim3.
    change ((_ ← PyHeap.lift (Ok (fl1, y)); _) h2) with
      ((PyHeap.bump_if_stmt_added tup flags;; mret (flags, ReachedEnd))
         (<[flags := PyHeap.OFlagList fl1]> h2)).
    pose proof (bump_if_stmt_added_sim _ _ _ _ _ _ _ _ _ Hsim3) as Hbump.
    destruct (bump_if_stmt_added entries2 fl1) as [[entries' fl']|e];
      cbn [mbind result_bind].
    + destruct Hbump as (h4 & Hrun4 & Hsim4). run Hrun4. by eexists _, _.
    + destruct Hbump as (h4 & Hrun4 & Hk4). run_raise Hrun4. by eexists.
  - by apply run_instruction_sim.
  - exact (run_instruction_sim flags st h id_ Hsim).
  - by exists flags, h.
  - by exists flags, h.
  - by exists flags, h.
Qed.

End BodyFacts.

Section LoopFacts.

Variable h0 : PyHeap.Store.
Variable self tup : nat.
Variable before_insn_id after_insn_id : string.
Variable loops_to_ignore : nat.
Variable ign : gset string.
Hypothesis loops_to_ignore_ok : h0 !! loops_to_ignore = Some (PyHeap.OSet ign).
Variable linearization_items_ordered : nat.
Variable lin : list ScheduleItem.
Hypothesis items_ok :
  h0 !! linearization_items_ordered = Some (PyHeap.OItemList lin).

Lemma both_created_sim flags st h :
  PyHeap.sim h0 self tup flags st h ->
  PyHeap.both_created self h = PyHeap.Returned (both_created st) h.
Proof.
  intros (_ & _ & _ & _ & _ & _ & b & a & Hself & Hb & Ha).
  unfold PyHeap.both_created, both_created. run (load_eq _ _ _ Hself).
  destruct b, a, (self_before st), (self_after st); done.
Qed.

(** The loop on the store, reading the list of items anew at every
    iteration, does what the walk does on the items from its index on;
    the fuel it is given is enough. *)
Lemma for_loop_sim fuel i flags st h :
  PyHeap.sim h0 self tup flags st h ->
  (length lin - i < fuel)%nat ->
  match for_loop before_insn_id after_insn_id ign (drop i lin) st with
  | Ok st' =>
      exists flags' h',
        PyHeap.for_loop before_insn_id after_insn_id loops_to_ignore self tup
          fuel linearization_items_ordered i flags h = PyHeap.Returned tt h' /\
        PyHeap.sim h0 self tup flags' st' h'
  | Raise e =>
      exists h',
        PyHeap.for_loop before_insn_id after_insn_id loops_to_ignore self tup
          fuel linearization_items_ordered i flags h = PyHeap.Raised e h' /\
        PyHeap.kept h0 h'
  end.
Proof.
  revert i flags st h.
  induction fuel as [|fuel IH]; intros i flags st h Hsim Hfuel; [lia|].
  cbn [PyHeap.for_loop].
  run (load_items_eq _ _ _
         (kept_lookup _ _ _ _ (sim_kept _ _ _ _ _ _ Hsim) items_ok)).
  destruct (lin !! i) as [item|] eqn:Hi.
  - rewrite (drop_S _ _ _ Hi). cbn [for_loop].
    pose proof (lookup_lt_Some _ _ _ Hi) as Hlt.
    pose proof (loop_body_sim h0 self tup before_insn_id after_insn_id
                  loops_to_ignore ign loops_to_ignore_ok flags st h item Hsim)
      as Hbody.
    destruct (loop_body before_insn_id after_insn_id ign item st)
      as [[st' flow]|e]; cbn [mbind result_bind].
    + destruct Hbody as (flags' & h' & Hrun & Hsim'). run Hrun.
      destruct flow.
      * run (both_created_sim _ _ _ Hsim').
        destruct (both_created st').
        -- by exists flags', h'.
        -- apply IH; [done|lia].
      * apply IH; [done|lia].
    + destruct Hbody as (h' & Hrun & Hk). run_raise Hrun. by exists h'.
  - apply lookup_ge_None in Hi. rewrite (drop_ge _ _ Hi). cbn [for_loop].
    by exists flags, h.
Qed.

Lemma lex_points_of_sim h o v :
  PyHeap.repr h tup o v ->
  PyHeap.lex_points_of o h =
  match get_lex_points v with
  | Ok entries => PyHeap.Returned entries h
  | Raise e => PyHeap.Raised e h
  end.
Proof.
  destruct o as [l|], v as [s|]; try done.
  intros (copy & Hl & Hc & _). unfold PyHeap.lex_points_of.
  run (load_eq _ _ _ Hl). by apply load_lex_eq.
Qed.

Lemma max_lex_dims_sim flags st h :
  PyHeap.sim h0 self tup flags st h ->
  PyHeap.max_lex_dims self h =
  match max_lex_dims_of (self_before st) (self_after st) with
  | Ok max_lex_dim => PyHeap.Returned max_lex_dim h
  | Raise e => PyHeap.Raised e h
  end.
Proof.
  intros (_ & _ & _ & _ & _ & _ & b & a & Hself & Hb & Ha).
  unfold PyHeap.max_lex_dims, max_lex_dims_of. run (load_eq _ _ _ Hself).
  pose proof (lex_points_of_sim _ _ _ Hb) as Hlb.
  pose proof (lex_points_of_sim _ _ _ Ha) as Hla.
  destruct (get_lex_points (self_before st)) as [lb|e]; cbn [mbind result_bind].
  2:{ by run_raise Hlb. }
  run Hlb.
  destruct (get_lex_points (self_after st)) as [la|e]; cbn [mbind result_bind].
  2:{ by run_raise Hla. }
  by run Hla.
Qed.

(** The padding makes two new instance sets with new lists, and leaves
    in [self] the references to them. *)
Lemma pad_both_sim flags st h sb sa max_lex_dim :
  PyHeap.sim h0 self tup flags st h ->
  self_before st = Some sb -> self_after st = Some sa ->
  exists h',
    PyHeap.pad_both self max_lex_dim h = PyHeap.Returned tt h' /\
    PyHeap.kept h0 h' /\
    PyHeap.read_builder h' self =
    Some (mkBuilder (_pad_lex_tuple_with_zeros sb max_lex_dim)
                    (_pad_lex_tuple_with_zeros sa max_lex_dim)).
Proof.
  intros (Hk & Hs & _ & _ & _ & _ & b & a & Hself & Hb & Ha) Hsb Hsa.
  rewrite Hsb in Hb. rewrite Hsa in Ha.
  destruct b as [lb|]; [|done]. destruct a as [la|]; [|done].
  destruct Hb as (cb & Hlb & Hcb & _). destruct Ha as (ca & Hla & Hca & _).
  pose proof (lookup_lt_Some _ _ _ Hself) as Hself_lt.
  unfold PyHeap.pad_both. run (load_eq _ _ _ Hself).
  (* the before side *)
  set (pb := PyHeap.OLexList (lex_points (_pad_lex_tuple_with_zeros sb max_lex_dim))).
  set (h1 := h ++ [pb]).
  set (h2 := h1 ++ [PyHeap.OStatementInstanceSet (insn_id sb) (length h)]).
  assert (PyHeap._pad_lex_tuple_with_zeros (Some lb) max_lex_dim h =
          PyHeap.Returned (length h1) h2) as Hrun1.
  { unfold PyHeap._pad_lex_tuple_with_zeros. run (load_eq _ _ _ Hlb).
    run (load_lex_eq _ _ _ Hcb). reflexivity. }
  run Hrun1.
  set (h3 := <[self := PyHeap.OPairwiseScheduleBuilder (Some (length h1)) (Some la)]> h2).
  assert (PyHeap.store self
            (PyHeap.OPairwiseScheduleBuilder (Some (length h1)) (Some la)) h2 =
          PyHeap.Returned tt h3) as Hrun2 by reflexivity.
  run Hrun2.
  assert (h2 !! self = Some (PyHeap.OPairwiseScheduleBuilder (Some lb) (Some la)))
    as Hself2 by (by do 2 apply store_lookup_alloc).
  assert (h3 !! la = Some (PyHeap.OStatementInstanceSet (insn_id sa) ca)) as Hla3.
  { apply store_lookup_other; [by do 2 apply store_lookup_alloc|].
    intros ->. congruence. }
  assert (h3 !! ca = Some (PyHeap.OLexList (lex_points sa))) as Hca3.
  { apply store_lookup_other; [by do 2 apply store_lookup_alloc|].
    intros ->. congruence. }
  assert (h3 !! length h1 =
          Some (PyHeap.OStatementInstanceSet (insn_id sb) (length h))) as Hnb3.
  { apply store_lookup_other; [apply store_lookup_new|].
    subst h1. rewrite length_app. simpl. lia. }
  assert (h3 !! length h = Some pb) as Hpb3.
  { apply store_lookup_other; [apply store_lookup_alloc, store_lookup_new|].
    lia. }
  assert (h3 !! self =
          Some (PyHeap.OPairwiseScheduleBuilder (Some (length h1)) (Some la)))
    as Hself3 by (by eapply store_lookup_same).
  (* the after side *)
  set (pa := PyHeap.OLexList (lex_points (_pad_lex_tuple_with_zeros sa max_lex_dim))).
  set (h4 := h3 ++ [pa]).
  set (h5 := h4 ++ [PyHeap.OStatementInstanceSet (insn_id sa) (length h3)]).
  assert (PyHeap._pad_lex_tuple_with_zeros (Some la) max_lex_dim h3 =
          PyHeap.Returned (length h4) h5) as Hrun3.
  { unfold PyHeap._pad_lex_tuple_with_zeros. run (load_eq _ _ _ Hla3).
    run (load_lex_eq _ _ _ Hca3). reflexivity. }
  run Hrun3.
  eexists. split; [reflexivity|].
  set (h6 := <[self := _]> h5).
  assert (length h3 = S (S (length h))) as Hlen3.
  { subst h3 h2 h1. rewrite length_insert, !length_app. simpl. lia. }
  assert (length h4 = S (S (S (length h)))) as Hlen4.
  { subst h4. rewrite length_app. simpl. lia. }
  assert (length h1 = S (length h)) as Hlen1.
  { subst h1. rewrite length_app. simpl. lia. }
  assert (h5 !! self =
          Some (PyHeap.OPairwiseScheduleBuilder (Some (length h1)) (Some la)))
    as Hself5 by (by do 2 apply store_lookup_alloc).
  split.
  - subst h6 h5 h4 h3 h2 h1.
    apply kept_store; [|done]. do 2 apply kept_alloc.
    apply kept_store; [|done]. by do 2 apply kept_alloc.
  - unfold PyHeap.read_builder, PyHeap.read_stmt_inst.
    assert (h6 !! self =
            Some (PyHeap.OPairwiseScheduleBuilder (Some (length h1))
                    (Some (length h4)))) as ->
      by (by eapply store_lookup_same).
    assert (h6 !! length h1 =
            Some (PyHeap.OStatementInstanceSet (insn_id sb) (length h))) as ->.
    { apply store_lookup_other; [by do 2 apply store_lookup_alloc|]. lia. }
    assert (h6 !! length h = Some pb) as ->.
    { apply store_lookup_other; [by do 2 apply store_lookup_alloc|]. lia. }
    assert (h6 !! length h4 =
            Some (PyHeap.OStatementInstanceSet (insn_id sa) (length h3))) as ->.
    { apply store_lookup_other; [apply store_lookup_new|]. lia. }
    assert (h6 !! length h3 = Some pa) as ->.
    { apply store_lookup_other; [apply store_lookup_alloc, store_lookup_new|].
      lia. }
    done.
Qed.

End LoopFacts.

(** ** The constructor *)

(** A call of the constructor on a store returns a reference to a new
    builder that stands for what [PairwiseScheduleBuilder_init] returns,
    or raises what it raises; either way every object that was in the
    store is as it was. *)
Lemma PairwiseScheduleBuilder_new_spec h linearization_items_ordered lin
    before_insn_id after_insn_id loops_to_ignore ign :
  PyHeap.args_ok h linearization_items_ordered lin loops_to_ignore ign ->
  match PairwiseScheduleBuilder_init lin before_insn_id after_insn_id ign with
  | Ok builder =>
      exists h',
        PyHeap.PairwiseScheduleBuilder_new linearization_items_ordered
          before_insn_id after_insn_id loops_to_ignore h =
          PyHeap.Returned (length h) h' /\
        PyHeap.kept h h' /\
        PyHeap.read_builder h' (length h) = Some builder
  | Raise e =>
      exists h',
        PyHeap.PairwiseScheduleBuilder_new linearization_items_ordered
          before_insn_id after_insn_id loops_to_ignore h =
          PyHeap.Raised e h' /\
        PyHeap.kept h h'
  end.
Proof.
  intros [Hitems Hign].
  unfold PyHeap.PairwiseScheduleBuilder_new, PairwiseScheduleBuilder_init.
  set (ignl := default PyHeap.default_loops_to_ignore loops_to_ignore) in *.
  set (h1 := h ++ [PyHeap.OPairwiseScheduleBuilder None None]).
  set (h2 := h1 ++ [PyHeap.OLexList [LexInt 0]]).
  set (h3 := h2 ++ [PyHeap.OFlagList [false]]).
  assert (PyHeap.alloc (PyHeap.OPairwiseScheduleBuilder None None) h =
          PyHeap.Returned (length h) h1) as Ha1 by reflexivity.
  assert (PyHeap.alloc (PyHeap.OLexList [LexInt 0]) h1 =
          PyHeap.Returned (length h1) h2) as Ha2 by reflexivity.
  assert (PyHeap.alloc (PyHeap.OFlagList [false]) h2 =
          PyHeap.Returned (length h2) h3) as Ha3 by reflexivity.
  run Ha1. run Ha2. run Ha3.
  assert (length h1 = S (length h)) as Hlen1
    by (subst h1; rewrite length_app; simpl; lia).
  assert (length h2 = S (S (length h))) as Hlen2
    by (subst h2; rewrite length_app; simpl; lia).
  assert (PyHeap.sim h (length h) (length h1) (length h2) initial_state h3)
    as Hsim.
  { split; [do 3 apply kept_alloc; apply kept_refl|].
    split; [lia|]. split; [lia|]. split; [lia|].
    split; [apply store_lookup_alloc, store_lookup_new|].
    split; [apply store_lookup_new|].
    exists None, None.
    split; [do 2 apply store_lookup_alloc; apply store_lookup_new|]. done. }
  run (load_items_eq _ _ _ (kept_lookup _ _ _ _ (sim_kept _ _ _ _ _ _ Hsim) Hitems)).
  pose proof (for_loop_sim h (length h) (length h1) before_insn_id
                after_insn_id ignl ign Hign linearization_items_ordered lin
                Hitems (S (length lin)) 0%nat (length h2) initial_state h3 Hsim
                ltac:(lia)) as Hloop.
  rewrite drop_0 in Hloop.
  destruct (for_loop before_insn_id after_insn_id ign lin initial_state)
    as [st|e]; cbn [mbind result_bind].
  2:{ destruct Hloop as (h' & Hrun & Hk). run_raise Hrun. by exists h'. }
  destruct Hloop as (flags' & h4 & Hrun & Hsim4). run Hrun.
  pose proof (max_lex_dims_sim _ _ _ _ _ _ Hsim4) as Hmax.
  destruct (max_lex_dims_of (self_before st) (self_after st))
    as [max_lex_dim|e] eqn:Hpure; cbn [mbind result_bind].
  2:{ run_raise Hmax. exists h4. split; [done|]. by eapply sim_kept. }
  run Hmax.
  destruct (self_before st) as [sb|] eqn:Hsb; [|done].
  destruct (self_after st) as [sa|] eqn:Hsa; [|done].
  destruct (pad_both_sim _ _ _ _ _ _ _ _ max_lex_dim Hsim4 Hsb Hsa)
    as (h5 & Hrun5 & Hk5 & Hread).
  run Hrun5. by exists h5.
Qed.

Lemma read_stmt_inst_kept h h' l s :
  PyHeap.kept h h' ->
  PyHeap.read_stmt_inst h l = Some s -> PyHeap.read_stmt_inst h' l = Some s.
Proof.
  intros Hk. unfold PyHeap.read_stmt_inst.
  destruct (h !! l) as [[| | | |id_ c|]|] eqn:Hl; try done.
  rewrite (kept_lookup _ _ _ _ Hk Hl).
  destruct (h !! c) as [[entries| | | | |]|] eqn:Hc; try done.
  by rewrite (kept_lookup _ _ _ _ Hk Hc).
Qed.

(** What a builder stands for does not change when the store grows
    around the objects it is made of. *)
Lemma read_builder_kept h h' l builder :
  PyHeap.kept h h' ->
  PyHeap.read_builder h l = Some builder ->
  PyHeap.read_builder h' l = Some builder.
Proof.
  intros Hk. unfold PyHeap.read_builder.
  destruct (h !! l) as [[| | | | |[b|] [a|]]|] eqn:Hl; try done.
  rewrite (kept_lookup _ _ _ _ Hk Hl).
  destruct (PyHeap.read_stmt_inst h b) as [sb|] eqn:Hb; [|done].
  destruct (PyHeap.read_stmt_inst h a) as [sa|] eqn:Ha; [|done].
  by rewrite (read_stmt_inst_kept _ _ _ _ Hk Hb),
             (read_stmt_inst_kept _ _ _ _ Hk Ha).
Qed.

Lemma args_ok_kept h h' items lin loops_to_ignore ign :
  PyHeap.kept h h' ->
  PyHeap.args_ok h items lin loops_to_ignore ign ->
  PyHeap.args_ok h' items lin loops_to_ignore ign.
Proof. intros Hk [Hitems Hign]. split; by eapply kept_lookup. Qed.

Example two_constructions_scenario_A :
  exists h1 h2,
    PyHeap.PairwiseScheduleBuilder_new 1%nat "Sb" "Sc" None
      PyHeap.scenario_A_store = PyHeap.Returned 2%nat h1 /\
    PyHeap.PairwiseScheduleBuilder_new 1%nat "Sb" "Sc" None h1 =
      PyHeap.Returned 15%nat h2 /\
    PyHeap.read_builder h2 2%nat = PyHeap.read_builder h2 15%nat /\
    PyHeap.read_builder h2 15%nat =
    Some (mkBuilder
            (mkSIS "Sb" [LexInt 0; LexIname "i"; LexInt 0; LexIname "j"; LexInt 0])
            (mkSIS "Sc" [LexInt 0; LexIname "i"; LexInt 0; LexIname "j"; LexInt 1])).
Proof.
  eexists _, _. split; [vm_compute; reflexivity|].
  split; [vm_compute; reflexivity|]. split; vm_compute; reflexivity.
Qed.

(** C9. Two constructions with equal inputs give equal outputs, with
    the objects in a store that both calls share. The inputs are
    references to a list with the same items and to a set of loops to
    ignore with the same members, given or left out; left out, both
    calls get the one default set. The first call returns a new builder
    and keeps every object of the store as it was, the default set and
    its own arguments among them. A second call, made on the store the
    first one left or on any store that keeps the objects of that one,
    returns another new builder, and then the two builders stand for the
    same ids and the same lex points on the before and on the after
    side: the second call has not touched what the first one returned.
    They are what [PairwiseScheduleBuilder_init] gives. If the first call
    raises, the second raises the same exception. *)
Theorem construction_deterministic h0 items1 items2 lin
    before_insn_id after_insn_id loops_to_ignore1 loops_to_ignore2 ign :
  PyHeap.args_ok h0 items1 lin loops_to_ignore1 ign ->
  PyHeap.args_ok h0 items2 lin loops_to_ignore2 ign ->
  (exists self1 h1 builder,
     PyHeap.PairwiseScheduleBuilder_new items1 before_insn_id after_insn_id
       loops_to_ignore1 h0 = PyHeap.Returned self1 h1 /\
     PyHeap.kept h0 h1 /\
     PyHeap.read_builder h1 self1 = Some builder /\
     PairwiseScheduleBuilder_init lin before_insn_id after_insn_id ign =
       Ok builder /\
     forall h1', PyHeap.kept h1 h1' ->
       exists self2 h2,
         PyHeap.PairwiseScheduleBuilder_new items2 before_insn_id
           after_insn_id loops_to_ignore2 h1' = PyHeap.Returned self2 h2 /\
         self2 <> self1 /\
         PyHeap.kept h1' h2 /\
         PyHeap.read_builder h2 self1 = Some builder /\
         PyHeap.read_builder h2 self2 = Some builder) \/
  (exists e h1,
     PyHeap.PairwiseScheduleBuilder_new items1 before_insn_id after_insn_id
       loops_to_ignore1 h0 = PyHeap.Raised e h1 /\
     PyHeap.kept h0 h1 /\
     PairwiseScheduleBuilder_init lin before_insn_id after_insn_id ign =
       Raise e /\
     forall h1', PyHeap.kept h1 h1' ->
       exists h2,
         PyHeap.PairwiseScheduleBuilder_new items2 before_insn_id
           after_insn_id loops_to_ignore2 h1' = PyHeap.Raised e h2 /\
         PyHeap.kept h1' h2).
Proof.
  intros Hargs1 Hargs2.
  pose proof (PairwiseScheduleBuilder_new_spec h0 items1 lin before_insn_id
                after_insn_id loops_to_ignore1 ign Hargs1) as H1.
  destruct (PairwiseScheduleBuilder_init lin before_insn_id after_insn_id ign)
    as [builder|e] eqn:Hpure.
  - left. destruct H1 as (h1 & Hrun1 & Hk1 & Hread1).
    exists (length h0), h1, builder. do 4 (split; [done|]).
    intros h1' Hk1'.
    pose proof (PairwiseScheduleBuilder_new_spec h1' items2 lin before_insn_id
                  after_insn_id loops_to_ignore2 ign
                  (args_ok_kept _ _ _ _ _ _ (kept_trans _ _ _ Hk1 Hk1') Hargs2))
      as H2.
    rewrite Hpure in H2. destruct H2 as (h2 & Hrun2 & Hk2 & Hread2).
    exists (length h1'), h2. split; [done|]. split.
    + pose proof (kept_length _ _ Hk1').
      assert (length h0 < length h1)%nat; [|lia].
      unfold PyHeap.read_builder in Hread1.
      destruct (h1 !! length h0) eqn:Hl; [|done].
      by apply lookup_lt_Some in Hl.
    + split; [done|]. split; [|done].
      exact (read_builder_kept h1 h2 _ _ (kept_trans _ _ _ Hk1' Hk2) Hread1).
  - right. destruct H1 as (h1 & Hrun1 & Hk1).
    exists e, h1. do 3 (split; [done|]).
    intros h1' Hk1'.
    pose proof (PairwiseScheduleBuilder_new_spec h1' items2 lin before_insn_id
                  after_insn_id loops_to_ignore2 ign
                  (args_ok_kept _ _ _ _ _ _ (kept_trans _ _ _ Hk1 Hk1') Hargs2))
      as H2.
    rewrite Hpure in H2. destruct H2 as (h2 & Hrun2 & Hk2). by exists h2.
Qed.

Lemma construction_deterministic_witness :
  PyHeap.args_ok PyHeap.scenario_A_store 1%nat scenario_A None ∅ /\
  PyHeap.args_ok PyHeap.scenario_A_store 1%nat scenario_A None ∅ /\
  ((exists self1 h1 builder,
      PyHeap.PairwiseScheduleBuilder_new 1%nat "Sb" "Sc" None
        PyHeap.scenario_A_store = PyHeap.Returned self1 h1 /\
      PyHeap.kept PyHeap.scenario_A_store h1 /\
      PyHeap.read_builder h1 self1 = Some builder /\
      PairwiseScheduleBuilder_init scenario_A "Sb" "Sc" ∅ = Ok builder /\
      forall h1', PyHeap.kept h1 h1' ->
        exists self2 h2,
          PyHeap.PairwiseScheduleBuilder_new 1%nat "Sb" "Sc" None h1' =
            PyHeap.Returned self2 h2 /\
          self2 <> self1 /\
          PyHeap.kept h1' h2 /\
          PyHeap.read_builder h2 self1 = Some builder /\
          PyHeap.read_builder h2 self2 = Some builder) \/
   (exists e h1,
      PyHeap.PairwiseScheduleBuilder_new 1%nat "Sb" "Sc" None
        PyHeap.scenario_A_store = PyHeap.Raised e h1 /\
      PyHeap.kept PyHeap.scenario_A_store h1 /\
      PairwiseScheduleBuilder_init scenario_A "Sb" "Sc" ∅ = Raise e /\
      forall h1', PyHeap.kept h1 h1' ->
        exists h2,
          PyHeap.PairwiseScheduleBuilder_new 1%nat "Sb" "Sc" None h1' =
            PyHeap.Raised e h2 /\
          PyHeap.kept h1' h2)).
Proof.
  split; [split; reflexivity|]. split; [split; reflexivity|].
  apply (construction_deterministic PyHeap.scenario_A_store 1%nat 1%nat
           scenario_A "Sb" "Sc" None None ∅); split; reflexivity.
Defined.
